(** * A fixed-size first-fit heap allocator: [malloc.c]

    Shallow embedding of [P9/assignment09-templates/p1/malloc.c] and the
    properties of its allocation path, its deallocation path and its use of
    the global mutex.

    The C program keeps all of its state in three globals: the byte arena
    [_heapData], the free-list head [_firstFreeBlock] and the mutex [lock].
    Every function is embedded as a computation of a small state-and-error
    monad over these globals, run by one thread, call after call.

    Every address the program reads or writes is that of a block header,
    a multiple of the header size from the start of the arena; the arena
    is therefore modelled header by header.  An access anywhere else (the
    [NULL] pointer, the magic value taken for a pointer) has no defined
    behaviour in C and ends the run with [Fault]. *)

From stdpp Require Import gmap list.
From Stdlib Require Import ZArith Lia.

Local Open Scope Z_scope.

(** ** Machine integers and pointers *)

(** [uint64_t] and pointers are 64-bit: arithmetic wraps modulo [2^64]. *)
Definition wrap64 (x : Z) : Z := x mod 2 ^ 64.

Definition NULL : Z := 0.

(** "Round the integer up to the block header size (16 Bytes)": the size of
    the block header, [HEADER_SIZE] of [malloc.h]. *)
Definition HEADER_SIZE : Z := 16.

(** [roundUp]: [(n+0xF) & (~0xF)] on [uint64_t]. *)
Definition roundUp (n : Z) : Z :=
  Z.land (wrap64 (n + 0xF)) (wrap64 (Z.lnot 0xF)).

(** ** The block header

    [Block] is declared in [malloc.h]: a 16-byte header made of the [size]
    of the block (header included) and one word that is read as [next] while
    the block is free and as [magic] once it is allocated, followed by the
    payload [data]. *)
Record Block : Type := mkBlock { blk_next : Z; blk_size : Z }.

Definition zero_block : Block := mkBlock 0 0.

(** ** The globals *)

(** Calls on [lock], recorded in program order. *)
Inductive lock_event : Type := EvLock | EvUnlock.

Record state : Type := mkState {
  _heapData : gmap Z Block;     (* headers stored in the arena, by address *)
  _firstFreeBlock : Z;
  lock : bool;                  (* does the running thread hold the mutex? *)
  lock_trace : list lock_event
}.

(** ** Outcomes of a call *)
Inductive outcome (A : Type) : Type :=
| Ret (a : A) (s : state)   (* the call returns *)
| Fault                     (* access outside the headers of [_heapData] *)
| Aborted                   (* an [assert] fails *)
| Deadlock                  (* [pthread_mutex_lock] on the held mutex *)
| OutOfFuel.                (* a loop is still running when the fuel ends *)
Arguments Ret {A} a s.
Arguments Fault {A}.
Arguments Aborted {A}.
Arguments Deadlock {A}.
Arguments OutOfFuel {A}.

Definition M (A : Type) : Type := state -> outcome A.

Definition ret {A} (a : A) : M A := fun s => Ret a s.

Definition bind {A B} (m : M A) (k : A -> M B) : M B :=
  fun s => match m s with
           | Ret a s' => k a s'
           | Fault => Fault
           | Aborted => Aborted
           | Deadlock => Deadlock
           | OutOfFuel => OutOfFuel
           end.

Notation "x <- m ;; k" := (bind m (fun x => k))
  (at level 100, m at next level, right associativity).
Notation "m ;;; k" := (bind m (fun _ => k))
  (at level 100, right associativity).

Definition assert (b : bool) : M unit :=
  fun s => if b then Ret tt s else Aborted.

(** ** Reading and writing the globals *)

(** The header found at an address of the arena; [_heapData] is a global
    array, zero until written. *)
Definition header (s : state) (a : Z) : Block :=
  default zero_block (_heapData s !! a).

Definition size_at (s : state) (a : Z) : Z := blk_size (header s a).
Definition next_at (s : state) (a : Z) : Z := blk_next (header s a).

Definition put_header (a : Z) (b : Block) (s : state) : state :=
  mkState (<[a := b]> (_heapData s)) (_firstFreeBlock s) (lock s)
          (lock_trace s).

Definition set_size (a v : Z) (s : state) : state :=
  put_header a (mkBlock (next_at s a) v) s.

Definition set_next (a v : Z) (s : state) : state :=
  put_header a (mkBlock v (size_at s a)) s.

Definition set_first (p : Z) (s : state) : state :=
  mkState (_heapData s) p (lock s) (lock_trace s).

Definition locked (s : state) : state :=
  mkState (_heapData s) (_firstFreeBlock s) true (lock_trace s ++ [EvLock]).

Definition unlocked (s : state) : state :=
  mkState (_heapData s) (_firstFreeBlock s) false
          (lock_trace s ++ [EvUnlock]).

Definition fresh_lock (s : state) : state :=
  mkState (_heapData s) (_firstFreeBlock s) false (lock_trace s).

(** [lock] is created by [pthread_mutex_init(&lock, NULL)]: a default,
    non-recursive mutex.  A thread that locks it while holding it never
    proceeds. *)
Definition pthread_mutex_lock : M unit :=
  fun s => if lock s then Deadlock else Ret tt (locked s).

Definition pthread_mutex_unlock : M unit :=
  fun s => Ret tt (unlocked s).

Definition pthread_mutex_init : M unit :=
  fun s => Ret tt (fresh_lock s).

Definition get_firstFreeBlock : M Z := fun s => Ret (_firstFreeBlock s) s.

Definition set_firstFreeBlock (p : Z) : M unit :=
  fun s => Ret tt (set_first p s).

(** A pointer slot: what a [Block **] of the program points to. *)
Inductive slot : Type :=
| SlotFirstFree          (* [&_firstFreeBlock] *)
| SlotNext (b : Z).      (* [&(b->next)] *)

(** The constants of [malloc.h] that [malloc.c] uses, and the address at
    which the arena [_heapData] is placed. *)
Class Layout : Type := mkLayout {
  heap_base : Z;               (* [&_heapData[0]] *)
  HEAP_SIZE : Z;
  ALLOCATED_BLOCK_MAGIC : Z
}.

Section Allocator.

Context {L : Layout}.

(** [&_heapData[HEAP_SIZE]] *)
Definition heap_end : Z := heap_base + HEAP_SIZE.

(** Headers live at the multiples of [HEADER_SIZE] inside the arena. *)
Definition in_heap (a : Z) : bool :=
  (heap_base <=? a) && (a <? heap_end)
  && ((a - heap_base) mod HEADER_SIZE =? 0).

Definition load_size (a : Z) : M Z :=
  fun s => if in_heap a then Ret (size_at s a) s else Fault.

Definition load_next (a : Z) : M Z :=
  fun s => if in_heap a then Ret (next_at s a) s else Fault.

Definition load_magic : Z -> M Z := load_next.

Definition store_size (a v : Z) : M unit :=
  fun s => if in_heap a then Ret tt (set_size a v s) else Fault.

Definition store_next (a v : Z) : M unit :=
  fun s => if in_heap a then Ret tt (set_next a v s) else Fault.

Definition store_magic : Z -> Z -> M unit := store_next.

Definition store_slot (p : slot) (v : Z) : M unit :=
  match p with
  | SlotFirstFree => set_firstFreeBlock v
  | SlotNext b => store_next b v
  end.

(** ** The functions of [malloc.c] *)

Definition initAllocator : M unit :=
  set_firstFreeBlock heap_base ;;;
  first <- get_firstFreeBlock ;;
  store_next first NULL ;;;
  store_size first HEAP_SIZE ;;;
  pthread_mutex_init.

(** [&current->data[current->size - HEADER_SIZE]], then the assertion and
    the test against the end of the arena. *)
Definition _getNextBlockBySize (current : Z) : M Z :=
  sz <- load_size current ;;
  let next := wrap64 (current + HEADER_SIZE + wrap64 (sz - HEADER_SIZE)) in
  assert (next <=? heap_end) ;;;
  ret (if next =? heap_end then NULL else next).

(** One line of part a of the dump: offset, size, "in use". *)
Definition dump_line : Type := (Z * Z * bool)%type.

(** Part a of [dumpAllocator]: "all blocks, using size, and starting at the
    beginning of the heap". *)
Fixpoint dump_all_blocks (fuel : nat) (current : Z) : M (list dump_line) :=
  match fuel with
  | O => fun _ => OutOfFuel
  | S fuel' =>
      if current =? NULL then ret []
      else
        sz <- load_size current ;;
        mg <- load_magic current ;;
        nx <- _getNextBlockBySize current ;;
        rest <- dump_all_blocks fuel' nx ;;
        ret ((current - heap_base, sz, mg =? ALLOCATED_BLOCK_MAGIC) :: rest)
  end.

(** Part b: "free blocks, using next pointer, and starting at
    _firstFreeBlock". *)
Fixpoint dump_free_blocks (fuel : nat) (current : Z) : M (list (Z * Z)) :=
  match fuel with
  | O => fun _ => OutOfFuel
  | S fuel' =>
      if current =? NULL then ret []
      else
        sz <- load_size current ;;
        nx <- load_next current ;;
        rest <- dump_free_blocks fuel' nx ;;
        ret ((current - heap_base, sz) :: rest)
  end.

Definition dumpAllocator (fuel : nat)
  : M (list dump_line * list (Z * Z)) :=
  pthread_mutex_lock ;;;
  all <- dump_all_blocks fuel heap_base ;;
  first <- get_firstFreeBlock ;;
  free <- dump_free_blocks fuel first ;;
  pthread_mutex_unlock ;;;
  ret (all, free).

Definition allocate_block (update_next : slot) (block new_size : Z) : M Z :=
  pthread_mutex_lock ;;;
  bsz <- load_size block ;;
  assert (new_size <=? bsz) ;;;
  if bsz =? new_size then
    nx <- load_next block ;;
    store_slot update_next nx ;;;
    store_magic block ALLOCATED_BLOCK_MAGIC ;;;
    ret (block + HEADER_SIZE)
  else
    let new_free_size := wrap64 (bsz - new_size) in
    store_size block new_size ;;;
    newfree <- _getNextBlockBySize block ;;
    store_size newfree new_free_size ;;;
    nx <- load_next block ;;
    store_next newfree nx ;;;
    store_magic block ALLOCATED_BLOCK_MAGIC ;;;
    store_slot update_next newfree ;;;
    pthread_mutex_unlock ;;;
    ret (block + HEADER_SIZE).

(** The search loop of [my_malloc]: yields [block] and [prevptr]. *)
Fixpoint find_block (fuel : nat) (size block : Z) (prevptr : slot)
  : M (Z * slot) :=
  match fuel with
  | O => fun _ => OutOfFuel
  | S fuel' =>
      if block =? NULL then ret (block, prevptr)
      else
        bsz <- load_size block ;;
        if size <=? bsz then ret (block, prevptr)
        else
          nx <- load_next block ;;
          find_block fuel' size nx (SlotNext block)
  end.

Definition my_malloc (fuel : nat) (size : Z) : M Z :=
  pthread_mutex_lock ;;;
  let size := wrap64 (roundUp size + HEADER_SIZE) in
  first <- get_firstFreeBlock ;;
  found <- find_block fuel size first SlotFirstFree ;;
  if fst found =? NULL then ret NULL
  else
    pthread_mutex_unlock ;;;
    allocate_block (snd found) (fst found) size.

Definition merge_blocks (block1 block2 : Z) : M unit :=
  pthread_mutex_lock ;;;
  sz1 <- load_size block1 ;;
  if negb (wrap64 (block1 + sz1) =? block2) then ret tt
  else
    nx1 <- load_next block1 ;;
    assert (nx1 =? block2) ;;;
    sz2 <- load_size block2 ;;
    store_size block1 (wrap64 (sz1 + sz2)) ;;;
    nx2 <- load_next block2 ;;
    store_next block1 nx2 ;;;
    pthread_mutex_unlock.

(** The scan of [my_free] over the "blocks that are before our new free
    block". *)
Fixpoint find_prev (fuel : nat) (block freeblock : Z) : M Z :=
  match fuel with
  | O => fun _ => OutOfFuel
  | S fuel' =>
      nx <- load_next freeblock ;;
      if (nx <? block) && negb (nx =? NULL)
      then find_prev fuel' block nx
      else ret freeblock
  end.

Definition my_free (fuel : nat) (address : Z) : M unit :=
  pthread_mutex_lock ;;;
  if address =? NULL then ret tt
  else
    let block := wrap64 (address - HEADER_SIZE) in
    freeblock <- get_firstFreeBlock ;;
    (if block <? freeblock then
       first <- get_firstFreeBlock ;;
       store_next block first ;;;
       set_firstFreeBlock block ;;;
       nx <- load_next block ;;
       merge_blocks block nx
     else
       freeblock <- find_prev fuel block freeblock ;;
       nx <- load_next freeblock ;;
       (if nx =? NULL then
          store_next block NULL ;;;
          store_next freeblock block
        else
          nx <- load_next freeblock ;;
          store_next block nx ;;;
          store_next freeblock block) ;;;
       nx <- load_next block ;;
       merge_blocks block nx ;;;
       merge_blocks freeblock block) ;;;
    pthread_mutex_unlock.

End Allocator.

(** ** Specification-level notions *)

(** "The least multiple of 16 that is greater than or equal to [n]". *)
Definition least_multiple_of_16_from (n r : Z) : Prop :=
  r mod 16 = 0 /\ n <= r /\ forall m, m mod 16 = 0 -> n <= m -> r <= m.

Section Invariants.

Context {L : Layout}.

(** What [malloc.h] and the linker guarantee about the arena: it is not
    empty, a whole number of headers long, it lies in the 64-bit address
    space above address 0, and the magic value is no address of a header. *)
Definition layout_ok : Prop :=
  0 < heap_base /\ 0 < HEAP_SIZE /\ HEAP_SIZE mod HEADER_SIZE = 0 /\
  heap_end < 2 ^ 64 /\
  in_heap ALLOCATED_BLOCK_MAGIC = false /\ ALLOCATED_BLOCK_MAGIC <> NULL.

(** [tiles_to s a l e]: starting at address [a], blocks of the sizes [l]
    follow one another up to address [e], each size being the one stored in
    the header. *)
Fixpoint tiles_to (s : state) (a : Z) (l : list Z) (e : Z) : Prop :=
  match l with
  | [] => a = e
  | sz :: l' =>
      in_heap a = true /\ size_at s a = sz /\
      HEADER_SIZE <= sz /\ sz mod HEADER_SIZE = 0 /\
      tiles_to s (a + sz) l' e
  end.

(** The addresses of the blocks of a tiling. *)
Fixpoint starts (a : Z) (l : list Z) : list Z :=
  match l with
  | [] => []
  | sz :: l' => a :: starts (a + sz) l'
  end.

(** [chain s p l t]: following [next] from the pointer [p] visits the
    blocks [l] in order and then reaches [t]. *)
Fixpoint chain (s : state) (p : Z) (l : list Z) (t : Z) : Prop :=
  match l with
  | [] => p = t
  | b :: l' => p = b /\ chain s (next_at s b) l' t
  end.

(** The arena is tiled by the blocks [tl]; the free list visits the
    distinct blocks [fl] and ends in [t]. *)
Record heap_inv (s : state) (tl fl : list Z) (t : Z) : Prop := mkHeapInv {
  inv_tiles : tiles_to s heap_base tl heap_end;
  inv_chain : chain s (_firstFreeBlock s) fl t;
  inv_nodup : NoDup fl;
  inv_sub : forall b, b ∈ fl -> b ∈ starts heap_base tl
}.

(** A block is in use when its header carries the magic value, as
    [dumpAllocator] prints it. *)
Definition in_use (s : state) (a : Z) : Prop :=
  next_at s a = ALLOCATED_BLOCK_MAGIC.

(** The allocator invariant: the blocks tile the arena, each of them is
    either on the free list, which ends in [NULL], or in use. *)
Definition alloc_inv (s : state) (tl fl : list Z) : Prop :=
  heap_inv s tl fl NULL /\
  forall a, a ∈ starts heap_base tl -> a ∉ fl -> in_use s a.

(** What every reachable state satisfies: the tiling, and a free list that
    ends in [NULL] or in the magic value of a block handed out while it
    was still listed. *)
Definition weak_inv (s : state) : Prop :=
  exists tl fl t,
    heap_inv s tl fl t /\ (t = NULL \/ t = ALLOCATED_BLOCK_MAGIC).

(** A computation that leaves a held mutex held, and one that cannot
    return once the mutex is held. *)
Definition keeps_lock {A} (m : M A) : Prop :=
  forall s a s', lock s = true -> m s = Ret a s' -> lock s' = true.

Definition blocks_when_held {A} (m : M A) : Prop :=
  forall s a s', lock s = true -> m s <> Ret a s'.

(** Whether the mutex is held after the calls [evs] on it. *)
Definition held_after (evs : list lock_event) (held : bool) : bool :=
  match last evs with
  | Some EvLock => true
  | Some EvUnlock => false
  | None => held
  end.

(** A computation that, when it returns, has made exactly the calls [evs]
    on the mutex. *)
Definition emits {A} (evs : list lock_event) (m : M A) : Prop :=
  forall s a s', m s = Ret a s' ->
    lock_trace s' = lock_trace s ++ evs /\ lock s' = held_after evs (lock s).

(** The slot that references the block following the blocks [l] of a free
    list, the walk having started from the slot [p]. *)
Definition slot_after (p : slot) (l : list Z) : slot :=
  match last l with
  | Some b => SlotNext b
  | None => p
  end.

(** The content of a slot, and the state after a write through it. *)
Definition slot_val (s : state) (p : slot) : Z :=
  match p with
  | SlotFirstFree => _firstFreeBlock s
  | SlotNext b => next_at s b
  end.

Definition slot_write (p : slot) (v : Z) (s : state) : state :=
  match p with
  | SlotFirstFree => set_first v s
  | SlotNext b => set_next b v s
  end.

Definition slot_ok (p : slot) : Prop :=
  match p with
  | SlotFirstFree => True
  | SlotNext b => in_heap b = true
  end.

Definition total (l : list Z) : Z := foldr Z.add 0 l.

(** The size [my_malloc] searches for: "round the requested size up to the
    next larger multiple of 16, and add header", on [uint64_t]. *)
Definition needed (n : Z) : Z := wrap64 (roundUp n + HEADER_SIZE).

(** The globals after the exact-fit path of [allocate_block], and after
    its split path with the remainder placed at [newfree]. *)
Definition exact_fit_state (sl : slot) (b : Z) (s : state) : state :=
  set_next b ALLOCATED_BLOCK_MAGIC (slot_write sl (next_at s b) (locked s)).

Definition split_state (sl : slot) (b need newfree : Z) (s : state) : state :=
  unlocked
    (slot_write sl newfree
       (set_next b ALLOCATED_BLOCK_MAGIC
          (set_next newfree (next_at s b)
             (set_size newfree (wrap64 (size_at s b - need))
                (set_size b need (locked s)))))).

(** The states the program can be in after [initAllocator] and any number
    of returned calls of [my_malloc] and [my_free]. *)
Inductive reachable : state -> Prop :=
| reach_init s0 s :
    initAllocator s0 = Ret tt s -> reachable s
| reach_malloc s fuel n p s' :
    reachable s -> 0 <= n < 2 ^ 64 ->
    my_malloc fuel n s = Ret p s' -> reachable s'
| reach_free s fuel p s' :
    reachable s -> my_free fuel p s = Ret tt s' -> reachable s'.

(** The lines of part a of a dump lie one after the other from offset
    [off] to offset [e], none of them empty. *)
Fixpoint contiguous (off : Z) (lines : list dump_line) (e : Z) : Prop :=
  match lines with
  | [] => off = e
  | (o, sz, _) :: rest => o = off /\ 0 < sz /\ contiguous (off + sz) rest e
  end.

Definition total_size (lines : list dump_line) : Z :=
  foldr (fun ln acc => snd (fst ln) + acc) 0 lines.

(** The lines that describe the blocks of a tiling. *)
Fixpoint block_lines (s : state) (a : Z) (l : list Z) : list dump_line :=
  match l with
  | [] => []
  | sz :: l' =>
      (a - heap_base, sz, next_at s a =? ALLOCATED_BLOCK_MAGIC)
        :: block_lines s (a + sz) l'
  end.

(** The lines of part b of a dump for the free blocks [l]. *)
Definition free_lines (s : state) (l : list Z) : list (Z * Z) :=
  map (fun b => (b - heap_base, size_at s b)) l.

(** [spaced_from s lo l]: each block of [l] starts strictly after [lo], the
    end of the block before it: the list is in address order and no two of
    its blocks touch. *)
Fixpoint spaced_from (s : state) (lo : Z) (l : list Z) : Prop :=
  match l with
  | [] => True
  | b :: l' => lo < b /\ spaced_from s (b + size_at s b) l'
  end.

Definition spaced (s : state) (l : list Z) : Prop :=
  spaced_from s (heap_base - 1) l.

(** The end of the last block of [l], or [lo] when there is none. *)
Definition end_of (s : state) (lo : Z) (l : list Z) : Z :=
  match last l with
  | Some b => b + size_at s b
  | None => lo
  end.

(** The bytes held by the blocks [l], headers included. *)
Definition bytes_of (s : state) (l : list Z) : Z :=
  total (map (size_at s) l).

(** A computation that leaves the globals as they are. *)
Definition reads_only {A} (m : M A) : Prop :=
  forall s a s', m s = Ret a s' -> s' = s.

End Invariants.

(** ** A small arena to run the program on: four headers at address 4096 *)
Definition small : Layout := mkLayout 4096 64 0xbaadf00d.

(** The globals when the process starts. *)
Definition boot : state := mkState ∅ 0 false [].

Definition state_of {A} (o : outcome A) : state :=
  match o with
  | Ret _ s => s
  | _ => boot
  end.

(** After [initAllocator()]. *)
Definition small_init : state := state_of (initAllocator (L := small) boot).

(** After [initAllocator(); my_malloc(0)]: the header at 4096 is in use, the
    48 bytes from 4112 are free. *)
Definition small_one : state :=
  state_of (my_malloc (L := small) 8 0 small_init).

(** After [initAllocator(); my_malloc(48)]: the whole arena is in use. *)
Definition small_full : state :=
  state_of (my_malloc (L := small) 8 48 small_init).

(** After [initAllocator(); my_malloc(64)]: the request has failed. *)
Definition small_failed : state :=
  state_of (my_malloc (L := small) 8 64 small_init).

(** The globals as [my_free] builds them for the block handed out by
    [initAllocator(); my_malloc(0)], before any merge: the block at 4096 is
    the head of the free list, the block at 4112 follows it. *)
Definition small_unmerged : state :=
  set_next 4096 4112 (set_first 4096 small_one).

(** ** Properties *)

Lemma wrap64_small x : 0 <= x < 2 ^ 64 -> wrap64 x = x.
Proof. intros H. unfold wrap64. apply Z.mod_small. exact H. Qed.

Lemma wrap64_range x : 0 <= wrap64 x < 2 ^ 64.
Proof. unfold wrap64. apply Z.mod_pos_bound. lia. Qed.

Lemma land_mask16 x : 0 <= x < 2 ^ 64 ->
  Z.land x (wrap64 (Z.lnot 0xF)) = 16 * (x / 16).
Proof.
  intros Hx.
  replace (wrap64 (Z.lnot 0xF)) with (Z.land (Z.lnot 15) (Z.ones 64))
    by (rewrite Z.land_ones by lia; reflexivity).
  rewrite Z.land_assoc, (Z.land_comm x), <- Z.land_assoc.
  rewrite (Z.land_ones x) by lia.
  rewrite (Z.mod_small x) by lia.
  rewrite Z.land_comm, <- Z.ldiff_land.
  change 15 with (Z.ones 4).
  rewrite Z.ldiff_ones_r by lia.
  rewrite Z.shiftl_mul_pow2, Z.shiftr_div_pow2 by lia.
  change (2 ^ 4) with 16. lia.
Qed.

Lemma roundUp_eq n : roundUp n = 16 * (wrap64 (n + 15) / 16).
Proof. unfold roundUp. apply land_mask16, wrap64_range. Qed.

Lemma roundUp_no_wrap n : 0 <= n <= 2 ^ 64 - 16 ->
  roundUp n = 16 * ((n + 15) / 16).
Proof. intros H. rewrite roundUp_eq, wrap64_small; [reflexivity | lia]. Qed.

Lemma roundUp_ge n : 0 <= n <= 2 ^ 64 - 16 -> n <= roundUp n.
Proof.
  intros Hn. rewrite roundUp_no_wrap by exact Hn.
  pose proof (Z.div_mod (n + 15) 16 ltac:(lia)) as Hdm.
  pose proof (Z.mod_pos_bound (n + 15) 16 ltac:(lia)) as Hb. lia.
Qed.

Lemma roundUp_wrap n : 2 ^ 64 - 16 < n < 2 ^ 64 -> roundUp n = 0.
Proof.
  intros H. rewrite roundUp_eq. unfold wrap64.
  replace (n + 15) with ((n + 15 - 2 ^ 64) + 1 * 2 ^ 64) by lia.
  rewrite Z.mod_add by lia.
  rewrite Z.mod_small by lia.
  rewrite Z.div_small by lia. reflexivity.
Qed.

Lemma roundUp_range n : 0 <= roundUp n <= 2 ^ 64 - 16 /\ roundUp n mod 16 = 0.
Proof.
  rewrite roundUp_eq. pose proof (wrap64_range (n + 15)) as H.
  split.
  - assert (0 <= wrap64 (n + 15) / 16 < 2 ^ 60).
    { split; [apply Z.div_pos; lia|].
      apply Z.div_lt_upper_bound; [lia|]. change (16 * 2 ^ 60) with (2 ^ 64). lia. }
    lia.
  - rewrite Z.mul_comm. apply Z.mod_mul. lia.
Qed.

(** *** Observing the globals after a write *)

Lemma header_put_header s a b a' :
  header (put_header a b s) a' = if decide (a' = a) then b else header s a'.
Proof.
  unfold header, put_header; simpl.
  destruct (decide (a' = a)) as [->|Hne].
  - rewrite lookup_insert_eq. reflexivity.
  - rewrite lookup_insert_ne by congruence. reflexivity.
Qed.

Lemma size_at_set_size s a v a' :
  size_at (set_size a v s) a' = if decide (a' = a) then v else size_at s a'.
Proof.
  unfold size_at, set_size. rewrite header_put_header.
  destruct (decide (a' = a)); reflexivity.
Qed.

Lemma next_at_set_size s a v a' : next_at (set_size a v s) a' = next_at s a'.
Proof.
  unfold next_at, set_size. rewrite header_put_header.
  destruct (decide (a' = a)) as [->|]; reflexivity.
Qed.

Lemma size_at_set_next s a v a' : size_at (set_next a v s) a' = size_at s a'.
Proof.
  unfold size_at, set_next. rewrite header_put_header.
  destruct (decide (a' = a)) as [->|]; reflexivity.
Qed.

Lemma next_at_set_next s a v a' :
  next_at (set_next a v s) a' = if decide (a' = a) then v else next_at s a'.
Proof.
  unfold next_at, set_next. rewrite header_put_header.
  destruct (decide (a' = a)); reflexivity.
Qed.

Lemma size_at_set_first s p a : size_at (set_first p s) a = size_at s a.
Proof. reflexivity. Qed.
Lemma next_at_set_first s p a : next_at (set_first p s) a = next_at s a.
Proof. reflexivity. Qed.
Lemma size_at_locked s a : size_at (locked s) a = size_at s a.
Proof. reflexivity. Qed.
Lemma next_at_locked s a : next_at (locked s) a = next_at s a.
Proof. reflexivity. Qed.
Lemma size_at_unlocked s a : size_at (unlocked s) a = size_at s a.
Proof. reflexivity. Qed.
Lemma next_at_unlocked s a : next_at (unlocked s) a = next_at s a.
Proof. reflexivity. Qed.

Lemma first_set_size s a v :
  _firstFreeBlock (set_size a v s) = _firstFreeBlock s.
Proof. reflexivity. Qed.
Lemma first_set_next s a v :
  _firstFreeBlock (set_next a v s) = _firstFreeBlock s.
Proof. reflexivity. Qed.
Lemma first_set_first s p : _firstFreeBlock (set_first p s) = p.
Proof. reflexivity. Qed.
Lemma first_locked s : _firstFreeBlock (locked s) = _firstFreeBlock s.
Proof. reflexivity. Qed.
Lemma first_unlocked s : _firstFreeBlock (unlocked s) = _firstFreeBlock s.
Proof. reflexivity. Qed.

Lemma lock_set_size s a v : lock (set_size a v s) = lock s.
Proof. reflexivity. Qed.
Lemma lock_set_next s a v : lock (set_next a v s) = lock s.
Proof. reflexivity. Qed.
Lemma lock_set_first s p : lock (set_first p s) = lock s.
Proof. reflexivity. Qed.
Lemma lock_locked s : lock (locked s) = true.
Proof. reflexivity. Qed.
Lemma lock_unlocked s : lock (unlocked s) = false.
Proof. reflexivity. Qed.

Lemma trace_set_size s a v : lock_trace (set_size a v s) = lock_trace s.
Proof. reflexivity. Qed.
Lemma trace_set_next s a v : lock_trace (set_next a v s) = lock_trace s.
Proof. reflexivity. Qed.
Lemma trace_set_first s p : lock_trace (set_first p s) = lock_trace s.
Proof. reflexivity. Qed.
Lemma trace_locked s : lock_trace (locked s) = lock_trace s ++ [EvLock].
Proof. reflexivity. Qed.
Lemma trace_unlocked s : lock_trace (unlocked s) = lock_trace s ++ [EvUnlock].
Proof. reflexivity. Qed.

Lemma size_at_fresh_lock s a : size_at (fresh_lock s) a = size_at s a.
Proof. reflexivity. Qed.
Lemma next_at_fresh_lock s a : next_at (fresh_lock s) a = next_at s a.
Proof. reflexivity. Qed.
Lemma first_fresh_lock s : _firstFreeBlock (fresh_lock s) = _firstFreeBlock s.
Proof. reflexivity. Qed.
Lemma lock_fresh_lock s : lock (fresh_lock s) = false.
Proof. reflexivity. Qed.
Lemma trace_fresh_lock s : lock_trace (fresh_lock s) = lock_trace s.
Proof. reflexivity. Qed.

Create Rewrite HintDb obs.
#[export] Hint Rewrite size_at_set_size next_at_set_size size_at_set_next
  next_at_set_next size_at_set_first next_at_set_first size_at_locked
  next_at_locked size_at_unlocked next_at_unlocked first_set_size
  first_set_next first_set_first first_locked first_unlocked lock_set_size
  lock_set_next lock_set_first lock_locked lock_unlocked trace_set_size
  trace_set_next trace_set_first trace_locked trace_unlocked
  size_at_fresh_lock next_at_fresh_lock first_fresh_lock lock_fresh_lock
  trace_fresh_lock : obs.

#[global] Opaque set_size set_next set_first locked unlocked fresh_lock
  size_at next_at.

(** *** Running the primitive steps *)

Section Steps.

Context {L : Layout}.

Lemma run_ret {A B} (a : A) (k : A -> M B) s : bind (ret a) k s = k a s.
Proof. reflexivity. Qed.

Lemma run_lock {B} (k : unit -> M B) s :
  lock s = false -> bind pthread_mutex_lock k s = k tt (locked s).
Proof. intros H. unfold bind, pthread_mutex_lock. rewrite H. reflexivity. Qed.

Lemma run_lock_held {B} (k : unit -> M B) s :
  lock s = true -> bind pthread_mutex_lock k s = Deadlock.
Proof. intros H. unfold bind, pthread_mutex_lock. rewrite H. reflexivity. Qed.

Lemma run_unlock {B} (k : unit -> M B) s :
  bind pthread_mutex_unlock k s = k tt (unlocked s).
Proof. reflexivity. Qed.

Lemma run_assert {B} (b : bool) (k : unit -> M B) s :
  b = true -> bind (assert b) k s = k tt s.
Proof. intros ->. reflexivity. Qed.

Lemma run_get_first {B} (k : Z -> M B) s :
  bind get_firstFreeBlock k s = k (_firstFreeBlock s) s.
Proof. reflexivity. Qed.

Lemma run_set_first {B} p (k : unit -> M B) s :
  bind (set_firstFreeBlock p) k s = k tt (set_first p s).
Proof. reflexivity. Qed.

Lemma run_load_size {B} a (k : Z -> M B) s :
  in_heap a = true -> bind (load_size a) k s = k (size_at s a) s.
Proof. intros H. unfold bind, load_size. rewrite H. reflexivity. Qed.

Lemma run_load_next {B} a (k : Z -> M B) s :
  in_heap a = true -> bind (load_next a) k s = k (next_at s a) s.
Proof. intros H. unfold bind, load_next. rewrite H. reflexivity. Qed.

Lemma run_store_size {B} a v (k : unit -> M B) s :
  in_heap a = true -> bind (store_size a v) k s = k tt (set_size a v s).
Proof. intros H. unfold bind, store_size. rewrite H. reflexivity. Qed.

Lemma run_store_next {B} a v (k : unit -> M B) s :
  in_heap a = true -> bind (store_next a v) k s = k tt (set_next a v s).
Proof. intros H. unfold bind, store_next. rewrite H. reflexivity. Qed.

Lemma run_load_fault {B} a (k : Z -> M B) s :
  in_heap a = false -> bind (load_next a) k s = Fault.
Proof. intros H. unfold bind, load_next. rewrite H. reflexivity. Qed.

Lemma run_load_size_fault {B} a (k : Z -> M B) s :
  in_heap a = false -> bind (load_size a) k s = Fault.
Proof. intros H. unfold bind, load_size. rewrite H. reflexivity. Qed.

Lemma bind_assoc {A B C} (m : M A) (k : A -> M B) (h : B -> M C) s :
  bind (bind m k) h s = bind m (fun a => bind (k a) h) s.
Proof. unfold bind. destruct (m s); reflexivity. Qed.

Lemma in_heap_spec a :
  in_heap a = true <->
  heap_base <= a < heap_end /\ (a - heap_base) mod HEADER_SIZE = 0.
Proof. unfold in_heap. rewrite !andb_true_iff. lia. Qed.

End Steps.

(** *** Tilings of the arena *)

Section Tilings.

Context {L : Layout}.

Lemma starts_app a l1 l2 :
  starts a (l1 ++ l2) = starts a l1 ++ starts (a + total l1) l2.
Proof.
  revert a; induction l1 as [|x l1 IH]; intros a; simpl.
  - f_equal. lia.
  - rewrite IH. do 3 f_equal. lia.
Qed.

Lemma tiles_to_app s a l1 l2 e :
  tiles_to s a (l1 ++ l2) e <->
  tiles_to s a l1 (a + total l1) /\ tiles_to s (a + total l1) l2 e.
Proof.
  revert a; induction l1 as [|x l1 IH]; intros a; simpl.
  - replace (a + 0) with a by lia. tauto.
  - rewrite IH. replace (a + x + total l1) with (a + (x + total l1)) by lia.
    tauto.
Qed.

Lemma tiles_to_le s a l e : tiles_to s a l e -> a <= e.
Proof.
  revert a; induction l as [|x l IH]; intros a; simpl.
  - lia.
  - intros (_ & _ & Hx & _ & Ht). apply IH in Ht. unfold HEADER_SIZE in *. lia.
Qed.

Lemma tiles_to_total s a l e : tiles_to s a l e -> a + total l = e.
Proof.
  revert a; induction l as [|x l IH]; intros a; simpl.
  - lia.
  - intros (_ & _ & _ & _ & Ht). apply IH in Ht. lia.
Qed.

Lemma tiles_to_starts s a l e x :
  tiles_to s a l e -> x ∈ starts a l ->
  in_heap x = true /\ a <= x /\ x + size_at s x <= e /\
  HEADER_SIZE <= size_at s x /\ size_at s x mod HEADER_SIZE = 0.
Proof.
  revert a; induction l as [|sz l IH]; intros a; simpl.
  - intros _ H. inversion H.
  - intros (Hin & Hsz & Hge & Hmod & Ht) Hx.
    apply elem_of_cons in Hx as [->|Hx].
    + apply tiles_to_le in Ht. rewrite Hsz. repeat split; auto; lia.
    + destruct (IH _ Ht Hx) as (? & ? & ? & ? & ?).
      unfold HEADER_SIZE in *. repeat split; auto; lia.
Qed.

Lemma tiles_to_frame s s' a l e :
  (forall x, x ∈ starts a l -> size_at s' x = size_at s x) ->
  tiles_to s a l e -> tiles_to s' a l e.
Proof.
  revert a; induction l as [|sz l IH]; intros a Hf; simpl; [tauto|].
  intros (Hin & Hsz & Hge & Hmod & Ht).
  repeat split; auto.
  - rewrite Hf; [exact Hsz | simpl; apply list_elem_of_here].
  - apply IH; [|exact Ht]. intros x Hx. apply Hf. simpl.
    apply list_elem_of_further, Hx.
Qed.

Lemma starts_lt s a l e x :
  tiles_to s a l e -> x ∈ starts a l -> x < e.
Proof.
  intros Ht Hx. destruct (tiles_to_starts _ _ _ _ _ Ht Hx) as (_ & _ & ? & ? & _).
  unfold HEADER_SIZE in *. lia.
Qed.

Lemma elem_of_starts_split a l x :
  x ∈ starts a l ->
  exists l1 sz l2, l = l1 ++ sz :: l2 /\ x = a + total l1.
Proof.
  revert a; induction l as [|sz l IH]; intros a; simpl.
  - intros H; inversion H.
  - intros Hx. apply elem_of_cons in Hx as [->|Hx].
    + exists [], sz, l. simpl. split; [reflexivity | lia].
    + destruct (IH _ Hx) as (l1 & sz' & l2 & -> & ->).
      exists (sz :: l1), sz', l2. simpl. split; [reflexivity | lia].
Qed.

(** The block found at a start of a tiling, with the tiling before and
    after it. *)
Lemma tiles_to_split s a l1 sz l2 e :
  tiles_to s a (l1 ++ sz :: l2) e ->
  let b := a + total l1 in
  tiles_to s a l1 b /\ in_heap b = true /\ size_at s b = sz /\
  HEADER_SIZE <= sz /\ sz mod HEADER_SIZE = 0 /\
  tiles_to s (b + sz) l2 e /\
  (forall x, x ∈ starts a l1 -> x < b) /\
  (forall x, x ∈ starts (b + sz) l2 -> b + sz <= x).
Proof.
  intros H b. apply tiles_to_app in H as [H1 H2]. simpl in H2.
  destruct H2 as (Hin & Hsz & Hge & Hmod & H2). fold b in H1, Hin, Hsz, H2.
  repeat split; auto.
  - intros x Hx. eapply starts_lt; eauto.
  - intros x Hx. destruct (tiles_to_starts _ _ _ _ _ H2 Hx) as (_ & ? & _). lia.
Qed.

End Tilings.

(** *** Free lists *)

Section Chains.

Context {L : Layout}.

Lemma chain_frame s s' p l t :
  (forall x, x ∈ l -> next_at s' x = next_at s x) ->
  chain s p l t -> chain s' p l t.
Proof.
  revert p; induction l as [|b l IH]; intros p Hf; simpl; [tauto|].
  intros [-> Hc]. split; [reflexivity|].
  rewrite Hf by apply list_elem_of_here.
  apply IH; [|exact Hc]. intros x Hx. apply Hf, list_elem_of_further, Hx.
Qed.

Lemma chain_app s p l1 l2 t :
  chain s p (l1 ++ l2) t <-> exists m, chain s p l1 m /\ chain s m l2 t.
Proof.
  revert p; induction l1 as [|b l1 IH]; intros p; simpl.
  - split.
    + intros H. exists p. split; [reflexivity | exact H].
    + intros (m & -> & H). exact H.
  - rewrite IH. split.
    + intros (-> & m & H1 & H2). exists m. auto.
    + intros (m & (-> & H1) & H2). split; [reflexivity|]. exists m. auto.
Qed.

Lemma slot_after_cons sl b l :
  slot_after sl (b :: l) = slot_after (SlotNext b) l.
Proof.
  unfold slot_after. destruct l as [|c l]; [reflexivity|].
  rewrite last_cons. destruct (last (c :: l)) eqn:E; [reflexivity|].
  apply last_None in E. discriminate.
Qed.

Lemma slot_after_snoc sl l b : slot_after sl (l ++ [b]) = SlotNext b.
Proof. unfold slot_after. rewrite last_snoc. reflexivity. Qed.

Lemma slot_ok_after sl l :
  slot_ok sl -> (forall x, x ∈ l -> in_heap x = true) ->
  slot_ok (slot_after sl l).
Proof.
  intros Hsl Hl. destruct l as [|b l] using rev_ind; [exact Hsl|].
  rewrite slot_after_snoc. simpl. apply Hl. apply elem_of_app. right.
  apply list_elem_of_here.
Qed.

(** Writing [v] through the slot reached after [l] redirects the end of
    the walk over [l] to [v]. *)
Lemma chain_redirect s l m v :
  chain s (_firstFreeBlock s) l m -> NoDup l ->
  let s' := slot_write (slot_after SlotFirstFree l) v s in
  chain s' (_firstFreeBlock s') l v.
Proof.
  intros Hc Hnd. destruct l as [|b l _] using rev_ind.
  - simpl. autorewrite with obs. reflexivity.
  - rewrite slot_after_snoc. simpl.
    apply chain_app in Hc as (m' & Hc & Hb). simpl in Hb. destruct Hb as [-> Hb].
    apply NoDup_app in Hnd as (_ & Hnd & _).
    autorewrite with obs. apply chain_app. exists b. split.
    + eapply chain_frame; [|exact Hc]. intros x Hx. autorewrite with obs.
      rewrite decide_False; [reflexivity|]. intros ->. eapply Hnd; eauto.
      apply list_elem_of_here.
    + simpl. split; [reflexivity|]. autorewrite with obs.
      rewrite decide_True by reflexivity. reflexivity.
Qed.

End Chains.

(** *** The helper functions, run *)

Section Runs.

Context {L : Layout}.
Hypothesis Hlayout : layout_ok.

Lemma heap_base_pos : 0 < heap_base.
Proof. apply Hlayout. Qed.

Lemma in_heap_not_null a : in_heap a = true -> a <> NULL.
Proof.
  intros H%in_heap_spec. pose proof heap_base_pos. unfold NULL. lia.
Qed.

Lemma in_heap_null : in_heap NULL = false.
Proof.
  destruct (in_heap NULL) eqn:E; [|reflexivity].
  apply in_heap_not_null in E. congruence.
Qed.

Lemma in_heap_range a : in_heap a = true -> 0 < a < 2 ^ 64.
Proof.
  intros H%in_heap_spec. destruct Hlayout as (? & ? & ? & ? & _). lia.
Qed.

Lemma run_store_slot {B} sl v (k : unit -> M B) s :
  slot_ok sl -> bind (store_slot sl v) k s = k tt (slot_write sl v s).
Proof.
  destruct sl as [|b]; simpl; intros H.
  - apply run_set_first.
  - apply run_store_next, H.
Qed.

Lemma run_getNext {B} current (k : Z -> M B) s :
  in_heap current = true ->
  let next :=
    wrap64 (current + HEADER_SIZE + wrap64 (size_at s current - HEADER_SIZE)) in
  next <= heap_end ->
  bind (_getNextBlockBySize current) k s =
  k (if next =? heap_end then NULL else next) s.
Proof.
  intros Hin next Hle. unfold _getNextBlockBySize.
  rewrite bind_assoc, run_load_size by assumption.
  rewrite bind_assoc, run_assert by (apply Z.leb_le; exact Hle).
  rewrite run_ret. reflexivity.
Qed.

(** The exact-fit path: no unlock before the return. *)
Lemma allocate_block_exact sl b need s :
  lock s = false -> in_heap b = true -> slot_ok sl ->
  size_at s b = need ->
  allocate_block sl b need s =
  Ret (b + HEADER_SIZE) (exact_fit_state sl b s).
Proof.
  intros Hl Hin Hsl Hsz. unfold allocate_block.
  rewrite run_lock by assumption.
  rewrite run_load_size by assumption. autorewrite with obs.
  rewrite run_assert by (apply Z.leb_le; lia).
  rewrite (proj2 (Z.eqb_eq _ _) Hsz).
  rewrite run_load_next by assumption. autorewrite with obs.
  rewrite run_store_slot by assumption.
  unfold store_magic. rewrite run_store_next by assumption.
  reflexivity.
Qed.

(** The split path, whatever address [_getNextBlockBySize] computes. *)
Lemma allocate_block_split sl b need s :
  lock s = false -> in_heap b = true -> slot_ok sl ->
  need < size_at s b ->
  let newfree := wrap64 (b + HEADER_SIZE + wrap64 (need - HEADER_SIZE)) in
  in_heap newfree = true ->
  allocate_block sl b need s =
  Ret (b + HEADER_SIZE) (split_state sl b need newfree s).
Proof.
  intros Hl Hin Hsl Hsz newfree Hnf. unfold allocate_block.
  pose proof (proj1 (in_heap_spec _) Hnf) as [Hr _].
  rewrite run_lock by assumption.
  rewrite run_load_size by assumption. autorewrite with obs.
  rewrite run_assert by (apply Z.leb_le; lia).
  rewrite (proj2 (Z.eqb_neq _ _)) by lia.
  rewrite run_store_size by assumption.
  rewrite run_getNext;
    autorewrite with obs; rewrite ?decide_True by reflexivity;
    fold newfree; [|assumption|lia].
  rewrite (proj2 (Z.eqb_neq _ _)) by lia.
  rewrite run_store_size by assumption.
  rewrite run_load_next by assumption. autorewrite with obs.
  rewrite run_store_next by assumption.
  unfold store_magic. rewrite run_store_next by assumption.
  rewrite run_store_slot by assumption.
  rewrite run_unlock. reflexivity.
Qed.

(** The search of [my_malloc]. *)
Lemma find_block_found s need b l2 t l1 :
  forall fuel p sl,
  chain s p (l1 ++ b :: l2) t ->
  (forall x, x ∈ l1 -> in_heap x = true /\ size_at s x < need) ->
  in_heap b = true -> need <= size_at s b ->
  (length l1 < fuel)%nat ->
  find_block fuel need p sl s = Ret (b, slot_after sl l1) s.
Proof.
  induction l1 as [|x l1 IH]; intros fuel p sl Hc Hl1 Hb Hsz Hfuel;
    (destruct fuel as [|fuel]; [simpl in Hfuel; lia|]); simpl in *.
  - destruct Hc as [-> _].
    rewrite (proj2 (Z.eqb_neq _ _)) by (apply in_heap_not_null, Hb).
    rewrite run_load_size by assumption.
    rewrite (proj2 (Z.leb_le _ _)) by assumption. reflexivity.
  - destruct Hc as [-> Hc].
    destruct (Hl1 x) as [Hx Hxs]; [apply list_elem_of_here|].
    rewrite (proj2 (Z.eqb_neq _ _)) by (apply in_heap_not_null, Hx).
    rewrite run_load_size by assumption.
    rewrite (proj2 (Z.leb_gt _ _)) by assumption.
    rewrite run_load_next by assumption.
    rewrite slot_after_cons. apply IH; auto; [|lia].
    intros y Hy. apply Hl1, list_elem_of_further, Hy.
Qed.

Lemma find_block_none s need l :
  forall fuel p sl,
  chain s p l NULL ->
  (forall x, x ∈ l -> in_heap x = true /\ size_at s x < need) ->
  (length l < fuel)%nat ->
  find_block fuel need p sl s = Ret (NULL, slot_after sl l) s.
Proof.
  induction l as [|x l IH]; intros fuel p sl Hc Hl Hfuel;
    (destruct fuel as [|fuel]; [simpl in Hfuel; lia|]); simpl in *.
  - subst p. reflexivity.
  - destruct Hc as [-> Hc].
    destruct (Hl x) as [Hx Hxs]; [apply list_elem_of_here|].
    rewrite (proj2 (Z.eqb_neq _ _)) by (apply in_heap_not_null, Hx).
    rewrite run_load_size by assumption.
    rewrite (proj2 (Z.leb_gt _ _)) by assumption.
    rewrite run_load_next by assumption.
    rewrite slot_after_cons. apply IH; auto; [|lia].
    intros y Hy. apply Hl, list_elem_of_further, Hy.
Qed.

(** Whatever the fuel, a search that returns has stopped at the first
    block that is large enough, or at the [NULL] that ends the list. *)
Lemma find_block_inv s need t l :
  forall fuel p sl b sl' s',
  chain s p l t ->
  (forall x, x ∈ l -> in_heap x = true) ->
  t = NULL \/ in_heap t = false ->
  find_block fuel need p sl s = Ret (b, sl') s' ->
  s' = s /\
  ((b = NULL /\ t = NULL /\ sl' = slot_after sl l /\
    forall x, x ∈ l -> size_at s x < need) \/
   (exists l1 l2, l = l1 ++ b :: l2 /\ sl' = slot_after sl l1 /\
      need <= size_at s b /\ forall x, x ∈ l1 -> size_at s x < need)).
Proof.
  induction l as [|x l IH]; intros fuel p sl b sl' s' Hc Hl Ht Hrun;
    (destruct fuel as [|fuel]; [discriminate|]); simpl in *.
  - subst p. destruct (Z.eqb_spec t NULL) as [->|Hne].
    + inversion Hrun; subst. split; [reflexivity|]. left.
      repeat split; auto. intros x Hx. inversion Hx.
    + destruct Ht as [Ht|Ht]; [contradiction|].
      rewrite run_load_size_fault in Hrun by assumption. discriminate.
  - destruct Hc as [-> Hc].
    pose proof (Hl x (list_elem_of_here _ _)) as Hx.
    rewrite (proj2 (Z.eqb_neq _ _)) in Hrun by (apply in_heap_not_null, Hx).
    rewrite run_load_size in Hrun by assumption.
    destruct (Z.leb_spec need (size_at s x)) as [Hle|Hgt].
    + inversion Hrun; subst. split; [reflexivity|]. right.
      exists [], l. repeat split; auto. intros y Hy. inversion Hy.
    + rewrite run_load_next in Hrun by assumption.
      apply IH in Hrun; auto;
        [|intros y Hy; apply Hl, list_elem_of_further, Hy].
      destruct Hrun as [-> Hrun]. split; [reflexivity|].
      rewrite slot_after_cons.
      destruct Hrun as [(-> & -> & -> & Hs)|(l1 & l2 & -> & -> & Hb & Hs)].
      * left. repeat split; auto. intros y Hy.
        apply elem_of_cons in Hy as [->|Hy]; auto.
      * right. exists (x :: l1), l2. rewrite slot_after_cons.
        repeat split; auto. intros y Hy.
        apply elem_of_cons in Hy as [->|Hy]; auto.
Qed.

End Runs.

(** *** The invariant along the two paths of [allocate_block] *)

Section Preservation.

Context {L : Layout}.
Hypothesis Hlayout : layout_ok.

Lemma size_at_slot_write sl v s x :
  size_at (slot_write sl v s) x = size_at s x.
Proof. destruct sl; simpl; autorewrite with obs; reflexivity. Qed.

Lemma next_at_slot_write_ne sl v s x :
  sl <> SlotNext x -> next_at (slot_write sl v s) x = next_at s x.
Proof.
  destruct sl as [|p]; simpl; intros H; autorewrite with obs; [reflexivity|].
  rewrite decide_False; [reflexivity | congruence].
Qed.

Lemma slot_after_first_in l p :
  slot_after SlotFirstFree l = SlotNext p -> p ∈ l.
Proof.
  destruct l as [|b l _] using rev_ind; [discriminate|].
  rewrite slot_after_snoc. intros [= ->].
  apply elem_of_app. right. apply list_elem_of_here.
Qed.

Lemma slot_after_first_ne l x :
  x ∉ l -> slot_after SlotFirstFree l <> SlotNext x.
Proof. intros Hx H. apply Hx, slot_after_first_in, H. Qed.

Lemma heap_inv_in_heap s tl fl t x :
  heap_inv s tl fl t -> x ∈ fl -> in_heap x = true.
Proof.
  intros [Ht _ _ Hs] Hx.
  apply (tiles_to_starts _ _ _ _ _ Ht (Hs _ Hx)).
Qed.

Lemma heap_inv_slot_ok s tl fl t l1 l2 :
  heap_inv s tl fl t -> fl = l1 ++ l2 ->
  slot_ok (slot_after SlotFirstFree l1).
Proof.
  intros Hinv ->. apply slot_ok_after; [exact I|].
  intros x Hx. eapply heap_inv_in_heap; [exact Hinv|].
  apply elem_of_app. left. exact Hx.
Qed.

(** Only the lock differs: the invariant does not see it. *)
Lemma heap_inv_ext s s' tl fl t :
  (forall a, size_at s' a = size_at s a) ->
  (forall a, next_at s' a = next_at s a) ->
  _firstFreeBlock s' = _firstFreeBlock s ->
  heap_inv s tl fl t -> heap_inv s' tl fl t.
Proof.
  intros Hsz Hnx Hf [Ht Hc Hnd Hs]. split; auto.
  - eapply tiles_to_frame; [|exact Ht]. intros; apply Hsz.
  - rewrite Hf. eapply chain_frame; [|exact Hc]. intros; apply Hnx.
Qed.

Lemma exact_fit_preserves s tl l1 b l2 t :
  heap_inv s tl (l1 ++ b :: l2) t ->
  let s' := exact_fit_state (slot_after SlotFirstFree l1) b s in
  heap_inv s' tl (l1 ++ l2) t /\
  (forall a, size_at s' a = size_at s a) /\
  next_at s' b = ALLOCATED_BLOCK_MAGIC /\
  (forall a, a ∉ l1 -> a <> b -> next_at s' a = next_at s a).
Proof.
  intros [Ht Hc Hnd Hs] s'.
  apply chain_app in Hc as (m & Hc1 & Hc2). simpl in Hc2.
  destruct Hc2 as [-> Hc2].
  apply NoDup_app in Hnd as (Hnd1 & Hnd12 & Hnd2).
  apply NoDup_cons in Hnd2 as [Hb2 Hnd2].
  assert (Hb1 : b ∉ l1).
  { intros Hb. apply (Hnd12 _ Hb), list_elem_of_here. }
  assert (Hsz : forall a, size_at s' a = size_at s a).
  { intros a. unfold s', exact_fit_state. autorewrite with obs.
    rewrite size_at_slot_write. autorewrite with obs. reflexivity. }
  assert (Hnx : forall a, a ∉ l1 -> a <> b -> next_at s' a = next_at s a).
  { intros a Ha Hab. unfold s', exact_fit_state. autorewrite with obs.
    rewrite decide_False by assumption.
    rewrite next_at_slot_write_ne by (apply slot_after_first_ne, Ha).
    autorewrite with obs. reflexivity. }
  repeat split; auto.
  - eapply tiles_to_frame; [|exact Ht]. intros; apply Hsz.
  - apply chain_app. exists (next_at s b). split.
    + unfold s', exact_fit_state. autorewrite with obs.
      eapply chain_frame;
        [|apply chain_redirect with (m := b); [|exact Hnd1]].
      * intros x Hx. autorewrite with obs. rewrite decide_False; [reflexivity|].
        intros ->. contradiction.
      * autorewrite with obs. eapply chain_frame; [|exact Hc1].
        intros; autorewrite with obs; reflexivity.
    + eapply chain_frame; [|exact Hc2]. intros x Hx. apply Hnx.
      * intros Hx1. apply (Hnd12 _ Hx1), list_elem_of_further, Hx.
      * intros ->. contradiction.
  - apply NoDup_app. repeat split; auto. intros x Hx1 Hx2.
    apply (Hnd12 _ Hx1), list_elem_of_further, Hx2.
  - intros x Hx. apply Hs. apply elem_of_app in Hx as [Hx|Hx];
      apply elem_of_app; [left | right; apply list_elem_of_further]; exact Hx.
  - unfold s', exact_fit_state. autorewrite with obs.
    rewrite decide_True by reflexivity. reflexivity.
Qed.

Lemma in_heap_offset b d :
  in_heap b = true -> 0 <= d -> d mod HEADER_SIZE = 0 -> b + d < heap_end ->
  in_heap (b + d) = true.
Proof.
  intros [Hr Hm]%in_heap_spec Hd Hdm Hlt. apply in_heap_spec.
  unfold HEADER_SIZE in *. split; [lia|].
  replace (b + d - heap_base) with ((b - heap_base) + d) by lia.
  rewrite Z.add_mod, Hm, Hdm by lia. reflexivity.
Qed.

Lemma split_preserves s tl l1 b l2 t need :
  heap_inv s tl (l1 ++ b :: l2) t ->
  HEADER_SIZE <= need -> need mod HEADER_SIZE = 0 -> need < size_at s b ->
  let nf := b + need in
  let s' := split_state (slot_after SlotFirstFree l1) b need nf s in
  exists t1 t2,
    tl = t1 ++ size_at s b :: t2 /\ b = heap_base + total t1 /\
    heap_inv s' (t1 ++ need :: (size_at s b - need) :: t2)
             (l1 ++ nf :: l2) t /\
    in_heap nf = true /\ (nf ∉ starts heap_base tl) /\
    size_at s' b = need /\ size_at s' nf = size_at s b - need /\
    next_at s' nf = next_at s b /\ next_at s' b = ALLOCATED_BLOCK_MAGIC /\
    (forall a, a <> b -> a <> nf -> size_at s' a = size_at s a) /\
    (forall a, a ∉ l1 -> a <> b -> a <> nf -> next_at s' a = next_at s a) /\
    slot_val s' (slot_after SlotFirstFree l1) = nf.
Proof.
  intros Hinv Hneed Hmod Hlt nf s'.
  pose proof Hinv as [Ht Hc Hnd Hs].
  assert (Hbfl : b ∈ l1 ++ b :: l2).
  { apply elem_of_app. right. apply list_elem_of_here. }
  destruct (elem_of_starts_split _ _ _ (Hs _ Hbfl)) as (t1 & sz & t2 & -> & Hb).
  destruct (tiles_to_split _ _ _ _ _ _ Ht)
    as (Ht1 & Hinb & Hsz & Hge & Hszm & Ht2 & Hlo & Hhi).
  rewrite <- Hb in *. subst sz.
  set (S0 := size_at s b) in *.
  apply chain_app in Hc as (m & Hc1 & Hc2). simpl in Hc2.
  destruct Hc2 as [-> Hc2].
  apply NoDup_app in Hnd as (Hnd1 & Hnd12 & Hnd2).
  apply NoDup_cons in Hnd2 as [Hb2 Hnd2].
  assert (Hb1 : b ∉ l1).
  { intros Hb1. apply (Hnd12 _ Hb1), list_elem_of_here. }
  pose proof (tiles_to_le _ _ _ _ Ht2) as Hend.
  pose proof (in_heap_range Hlayout _ Hinb) as Hbr.
  assert (Hend64 : heap_end < 2 ^ 64) by apply Hlayout.
  assert (Hinnf : in_heap nf = true).
  { apply in_heap_offset; auto; unfold HEADER_SIZE in *; lia. }
  assert (Hnfb : nf <> b) by (unfold nf, HEADER_SIZE in *; lia).
  assert (Hnfst : nf ∉ starts heap_base (t1 ++ S0 :: t2)).
  { rewrite starts_app. simpl. rewrite <- Hb. intros Hx.
    apply elem_of_app in Hx as [Hx|Hx].
    - apply Hlo in Hx. unfold nf, HEADER_SIZE in *. lia.
    - apply elem_of_cons in Hx as [Hx|Hx]; [contradiction|].
      apply Hhi in Hx. unfold nf in *. lia. }
  assert (Hnffl : nf ∉ l1 ++ b :: l2).
  { intros Hx. apply Hnfst, Hs, Hx. }
  assert (Hw : wrap64 (S0 - need) = S0 - need).
  { apply wrap64_small. unfold HEADER_SIZE in *. lia. }
  assert (Hsz' : forall a, size_at s' a =
             if decide (a = nf) then S0 - need
             else if decide (a = b) then need else size_at s a).
  { intros a. unfold s', split_state. autorewrite with obs.
    rewrite size_at_slot_write. autorewrite with obs.
    fold S0. rewrite Hw. reflexivity. }
  assert (Hnx' : forall a, a ∉ l1 -> next_at s' a =
             if decide (a = b) then ALLOCATED_BLOCK_MAGIC
             else if decide (a = nf) then next_at s b else next_at s a).
  { intros a Ha. unfold s', split_state. autorewrite with obs.
    rewrite next_at_slot_write_ne by (apply slot_after_first_ne, Ha).
    autorewrite with obs. reflexivity. }
  assert (Hnf1 : nf ∉ l1).
  { intros Hx. apply Hnffl, elem_of_app. left. exact Hx. }
  exists t1, t2. split; [reflexivity|]. split; [exact Hb|].
  split; [|repeat split].
  - split.
    + apply tiles_to_app. rewrite <- Hb. split.
      * eapply tiles_to_frame; [|exact Ht1]. intros x Hx. rewrite Hsz'.
        apply Hlo in Hx.
        rewrite !decide_False; [reflexivity | |]; unfold nf, HEADER_SIZE in *; lia.
      * simpl. repeat split; auto.
        -- rewrite Hsz'. rewrite decide_False by auto.
           rewrite decide_True by reflexivity. reflexivity.
        -- rewrite Hsz'. fold nf. rewrite decide_True by reflexivity.
           reflexivity.
        -- unfold HEADER_SIZE in *.
           assert (S0 mod 16 = 0) by assumption.
           assert ((S0 - need) mod 16 = 0).
           { rewrite Zminus_mod, H, Hmod. reflexivity. }
           assert (0 < S0 - need) by lia.
           apply Z.mod_divide in H0; [|lia]. destruct H0 as [k Hk]. lia.
        -- unfold HEADER_SIZE in *.
           rewrite Zminus_mod, Hszm, Hmod. reflexivity.
        -- replace (b + need + (S0 - need)) with (b + S0) by lia.
           eapply tiles_to_frame; [|exact Ht2]. intros x Hx. rewrite Hsz'.
           apply Hhi in Hx.
           rewrite !decide_False; [reflexivity | |]; unfold nf, HEADER_SIZE in *; lia.
    + apply chain_app. exists nf. split.
      * unfold s', split_state. autorewrite with obs.
        eapply chain_frame;
          [|apply chain_redirect with (m := b); [|exact Hnd1]].
        -- intros; autorewrite with obs; reflexivity.
        -- autorewrite with obs. eapply chain_frame; [|exact Hc1].
           intros x Hx. autorewrite with obs.
           rewrite !decide_False; [reflexivity | |]; intros ->; contradiction.
      * simpl. split; [reflexivity|]. rewrite Hnx' by exact Hnf1.
        rewrite decide_False by exact Hnfb. rewrite decide_True by reflexivity.
        eapply chain_frame; [|exact Hc2]. intros x Hx.
        assert (x ∉ l1).
        { intros Hx1. apply (Hnd12 _ Hx1), list_elem_of_further, Hx. }
        rewrite Hnx' by assumption.
        rewrite !decide_False; [reflexivity | |]; intros ->.
        -- apply Hnffl, elem_of_app. right. apply list_elem_of_further, Hx.
        -- contradiction.
    + apply NoDup_app. repeat split; auto.
      * intros x Hx1 Hx2. apply elem_of_cons in Hx2 as [->|Hx2];
          [contradiction|].
        apply (Hnd12 _ Hx1), list_elem_of_further, Hx2.
      * apply NoDup_cons. split; [|exact Hnd2]. intros Hx.
        apply Hnffl, elem_of_app. right. apply list_elem_of_further, Hx.
    + intros x Hx. rewrite starts_app. simpl. rewrite <- Hb.
      replace (b + need + (S0 - need)) with (b + S0) by lia.
      assert (Hcase : x = nf \/ x ∈ l1 ++ b :: l2).
      { apply elem_of_app in Hx as [Hx|Hx].
        - right. apply elem_of_app. left. exact Hx.
        - apply elem_of_cons in Hx as [->|Hx]; [left; reflexivity|].
          right. apply elem_of_app. right. apply list_elem_of_further, Hx. }
      destruct Hcase as [->|Hx'].
      * apply elem_of_app. right. apply list_elem_of_further, list_elem_of_here.
      * apply Hs in Hx'. rewrite starts_app in Hx'. simpl in Hx'.
        rewrite <- Hb in Hx'.
        apply elem_of_app in Hx' as [Hx'|Hx']; apply elem_of_app;
          [left; exact Hx'|right].
        apply elem_of_cons in Hx' as [->|Hx']; [apply list_elem_of_here|].
        apply list_elem_of_further, list_elem_of_further, Hx'.
  - exact Hinnf.
  - exact Hnfst.
  - rewrite Hsz'. rewrite decide_False by auto.
    rewrite decide_True by reflexivity. reflexivity.
  - rewrite Hsz'. rewrite decide_True by reflexivity. reflexivity.
  - rewrite Hnx' by exact Hnf1. rewrite decide_False by exact Hnfb.
    rewrite decide_True by reflexivity. reflexivity.
  - rewrite Hnx' by exact Hb1. rewrite decide_True by reflexivity. reflexivity.
  - intros a Hab Hanf. rewrite Hsz'. rewrite !decide_False by auto. reflexivity.
  - intros a Ha Hab Hanf. rewrite Hnx' by exact Ha.
    rewrite !decide_False by auto. reflexivity.
  - unfold s', split_state.
    destruct l1 as [|p l1 _] using rev_ind.
    + simpl. autorewrite with obs. reflexivity.
    + rewrite slot_after_snoc. simpl. autorewrite with obs.
      rewrite decide_True by reflexivity. reflexivity.
Qed.

End Preservation.

(** *** [my_malloc], run *)

Section Malloc.

Context {L : Layout}.
Hypothesis Hlayout : layout_ok.

Lemma heap_inv_locked s tl fl t :
  heap_inv s tl fl t -> heap_inv (locked s) tl fl t.
Proof. apply heap_inv_ext; intros; autorewrite with obs; reflexivity. Qed.

Lemma heap_inv_relocked s tl fl t :
  heap_inv s tl fl t -> heap_inv (unlocked (locked s)) tl fl t.
Proof. apply heap_inv_ext; intros; autorewrite with obs; reflexivity. Qed.

Lemma needed_cases n :
  needed n = 0 \/
  (HEADER_SIZE <= needed n < 2 ^ 64 /\ needed n mod HEADER_SIZE = 0 /\
   needed n = roundUp n + HEADER_SIZE).
Proof.
  destruct (roundUp_range n) as [Hr Hm]. unfold needed, HEADER_SIZE, wrap64.
  destruct (Z.eq_dec (roundUp n) (2 ^ 64 - 16)) as [E|E].
  - left. rewrite E. reflexivity.
  - right. rewrite Z.mod_small by lia. repeat split; try lia.
    rewrite Z.add_mod, Hm by lia. reflexivity.
Qed.

Lemma my_malloc_unfold fuel n s :
  lock s = false ->
  my_malloc fuel n s =
  bind (find_block fuel (needed n) (_firstFreeBlock s) SlotFirstFree)
    (fun found =>
       if fst found =? NULL then ret NULL
       else pthread_mutex_unlock ;;;
            allocate_block (snd found) (fst found) (needed n))
    (locked s).
Proof.
  intros Hl. unfold my_malloc. rewrite run_lock by assumption.
  rewrite run_get_first. reflexivity.
Qed.

Lemma my_malloc_held fuel n s : lock s = true -> my_malloc fuel n s = Deadlock.
Proof. intros Hl. unfold my_malloc. apply run_lock_held, Hl. Qed.

(** No block is large enough: [NULL], and the mutex stays held. *)
Lemma my_malloc_null fuel n s tl fl :
  heap_inv s tl fl NULL -> lock s = false ->
  (forall x, x ∈ fl -> size_at s x < needed n) ->
  (length fl < fuel)%nat ->
  my_malloc fuel n s = Ret NULL (locked s).
Proof.
  intros Hinv Hl Hsmall Hfuel. rewrite my_malloc_unfold by assumption.
  pose proof (heap_inv_locked _ _ _ _ Hinv) as Hinv'.
  unfold bind at 1.
  rewrite (find_block_none Hlayout (locked s) (needed n) fl); auto.
  - apply Hinv'.
  - intros x Hx. split; [eapply heap_inv_in_heap; eauto|].
    autorewrite with obs. auto.
Qed.

(** A block is found: the mutex is released, then [allocate_block] runs. *)
Lemma my_malloc_found fuel n s tl l1 b l2 t :
  heap_inv s tl (l1 ++ b :: l2) t -> lock s = false ->
  (forall x, x ∈ l1 -> size_at s x < needed n) ->
  needed n <= size_at s b ->
  (length l1 < fuel)%nat ->
  my_malloc fuel n s =
  allocate_block (slot_after SlotFirstFree l1) b (needed n)
                 (unlocked (locked s)).
Proof.
  intros Hinv Hl Hsmall Hfit Hfuel. rewrite my_malloc_unfold by assumption.
  pose proof (heap_inv_locked _ _ _ _ Hinv) as Hinv'.
  assert (Hb : in_heap b = true).
  { eapply heap_inv_in_heap; [exact Hinv|]. apply elem_of_app. right.
    apply list_elem_of_here. }
  unfold bind at 1.
  rewrite (find_block_found Hlayout (locked s) (needed n) b l2 t l1); auto.
  - simpl fst. simpl snd.
    rewrite (proj2 (Z.eqb_neq _ _)) by (apply (in_heap_not_null Hlayout), Hb).
    rewrite run_unlock. reflexivity.
  - apply Hinv'.
  - intros x Hx. split.
    + eapply heap_inv_in_heap; [exact Hinv|]. apply elem_of_app. left. exact Hx.
    + autorewrite with obs. auto.
Qed.

(** Every returned call went one of these two ways. *)
Lemma my_malloc_inv fuel n s tl fl t p s' :
  heap_inv s tl fl t -> t = NULL \/ in_heap t = false ->
  my_malloc fuel n s = Ret p s' ->
  lock s = false /\
  ((p = NULL /\ s' = locked s /\ t = NULL /\
    forall x, x ∈ fl -> size_at s x < needed n) \/
   (exists l1 b l2, fl = l1 ++ b :: l2 /\
      (forall x, x ∈ l1 -> size_at s x < needed n) /\
      needed n <= size_at s b /\
      allocate_block (slot_after SlotFirstFree l1) b (needed n)
                     (unlocked (locked s)) = Ret p s')).
Proof.
  intros Hinv Ht Hrun.
  destruct (lock s) eqn:Hl; [rewrite my_malloc_held in Hrun by assumption;
                             discriminate|].
  split; [reflexivity|].
  rewrite my_malloc_unfold in Hrun by assumption.
  pose proof (heap_inv_locked _ _ _ _ Hinv) as Hinv'.
  unfold bind at 1 in Hrun.
  destruct (find_block fuel (needed n) (_firstFreeBlock s) SlotFirstFree
              (locked s)) as [[b sl] s1| | | |] eqn:Hfind; try discriminate.
  eapply (find_block_inv Hlayout) in Hfind;
    [|apply Hinv'|intros x Hx; eapply heap_inv_in_heap; eauto|exact Ht].
  destruct Hfind as [-> Hfind]. simpl fst in Hrun. simpl snd in Hrun.
  destruct Hfind as [(-> & -> & -> & Hs)|(l1 & l2 & -> & -> & Hb & Hs)].
  - simpl in Hrun. inversion Hrun; subst. left.
    split; [reflexivity|]. split; [reflexivity|]. split; [reflexivity|].
    intros x Hx. specialize (Hs x Hx). autorewrite with obs in Hs. exact Hs.
  - assert (Hinb : in_heap b = true).
    { eapply heap_inv_in_heap; [exact Hinv|]. apply elem_of_app. right.
      apply list_elem_of_here. }
    rewrite (proj2 (Z.eqb_neq _ _)) in Hrun
      by (apply (in_heap_not_null Hlayout), Hinb).
    rewrite run_unlock in Hrun. right. exists l1, b, l2.
    autorewrite with obs in Hb.
    split; [reflexivity|]. split; [|split; [exact Hb | exact Hrun]].
    intros x Hx. specialize (Hs x Hx). autorewrite with obs in Hs. exact Hs.
Qed.

End Malloc.

(** *** The mutex in [my_free] and [merge_blocks] *)

Section Mutex.

Context {L : Layout}.

Lemma keeps_lock_ret {A} (a : A) : keeps_lock (ret a).
Proof. intros s a' s' Hl [= _ <-]. exact Hl. Qed.

Lemma keeps_lock_bind {A B} (m : M A) (k : A -> M B) :
  keeps_lock m -> (forall a, keeps_lock (k a)) -> keeps_lock (bind m k).
Proof.
  intros Hm Hk s b s' Hl Hrun. unfold bind in Hrun.
  destruct (m s) as [a s1| | | |] eqn:E; try discriminate.
  eapply Hk; [|exact Hrun]. eapply Hm; eauto.
Qed.

Lemma blocks_bind_l {A B} (m : M A) (k : A -> M B) :
  blocks_when_held m -> blocks_when_held (bind m k).
Proof.
  intros Hm s b s' Hl Hrun. unfold bind in Hrun.
  destruct (m s) as [a s1| | | |] eqn:E; try discriminate.
  eapply Hm; eauto.
Qed.

Lemma blocks_bind_r {A B} (m : M A) (k : A -> M B) :
  keeps_lock m -> (forall a, blocks_when_held (k a)) ->
  blocks_when_held (bind m k).
Proof.
  intros Hm Hk s b s' Hl Hrun. unfold bind in Hrun.
  destruct (m s) as [a s1| | | |] eqn:E; try discriminate.
  eapply Hk; [|exact Hrun]. eapply Hm; eauto.
Qed.

Lemma keeps_lock_get_first : keeps_lock get_firstFreeBlock.
Proof. intros s a s' Hl [= _ <-]. exact Hl. Qed.

Lemma keeps_lock_set_first p : keeps_lock (set_firstFreeBlock p).
Proof.
  intros s a s' Hl H. inversion H; subst. autorewrite with obs. exact Hl.
Qed.

Lemma keeps_lock_load_next a : keeps_lock (load_next a).
Proof.
  intros s v s' Hl. unfold load_next. destruct (in_heap a); [|discriminate].
  intros [= _ <-]. exact Hl.
Qed.

Lemma keeps_lock_store_next a v : keeps_lock (store_next a v).
Proof.
  intros s u s' Hl. unfold store_next. destruct (in_heap a); [|discriminate].
  intros H. inversion H; subst. autorewrite with obs. exact Hl.
Qed.

Lemma keeps_lock_find_prev fuel block :
  forall freeblock, keeps_lock (find_prev fuel block freeblock).
Proof.
  induction fuel as [|fuel IH]; intros freeblock; simpl.
  - intros s a s' _ H. discriminate.
  - apply keeps_lock_bind; [apply keeps_lock_load_next|].
    intros nx. destruct ((nx <? block) && negb (nx =? NULL)).
    + apply IH.
    + apply keeps_lock_ret.
Qed.

(** [merge_blocks] starts by locking the mutex that its caller, [my_free],
    already holds. *)
Lemma merge_blocks_blocks block1 block2 :
  blocks_when_held (merge_blocks block1 block2).
Proof.
  intros s a s' Hl. unfold merge_blocks.
  rewrite run_lock_held by assumption. discriminate.
Qed.

Lemma merge_blocks_deadlock block1 block2 s :
  lock s = true -> merge_blocks block1 block2 s = Deadlock.
Proof. intros Hl. unfold merge_blocks. apply run_lock_held, Hl. Qed.

(** A call of [my_free] returns only on the [NULL] pointer, and then with
    the mutex still held. *)
Lemma my_free_returns fuel p s s' :
  my_free fuel p s = Ret tt s' ->
  p = NULL /\ lock s = false /\ s' = locked s.
Proof.
  intros Hrun. unfold my_free in Hrun.
  destruct (lock s) eqn:Hl;
    [rewrite run_lock_held in Hrun by assumption; discriminate|].
  rewrite run_lock in Hrun by assumption.
  destruct (Z.eqb_spec p NULL) as [->|Hne].
  - inversion Hrun. auto.
  - exfalso. revert Hrun.
    apply blocks_bind_r; [apply keeps_lock_get_first| |reflexivity].
    intros freeblock. apply blocks_bind_l.
    destruct (wrap64 (p - HEADER_SIZE) <? freeblock).
    + apply blocks_bind_r; [apply keeps_lock_get_first|]. intros first.
      apply blocks_bind_r; [apply keeps_lock_store_next|]. intros _.
      apply blocks_bind_r; [apply keeps_lock_set_first|]. intros _.
      apply blocks_bind_r; [apply keeps_lock_load_next|]. intros nx.
      apply merge_blocks_blocks.
    + apply blocks_bind_r; [apply keeps_lock_find_prev|]. intros fb.
      apply blocks_bind_r; [apply keeps_lock_load_next|]. intros nx.
      apply blocks_bind_r.
      { destruct (nx =? NULL).
        - apply keeps_lock_bind; [apply keeps_lock_store_next|]. intros _.
          apply keeps_lock_store_next.
        - apply keeps_lock_bind; [apply keeps_lock_load_next|]. intros nx'.
          apply keeps_lock_bind; [apply keeps_lock_store_next|]. intros _.
          apply keeps_lock_store_next. }
      intros _.
      apply blocks_bind_r; [apply keeps_lock_load_next|]. intros nx'.
      apply blocks_bind_l, merge_blocks_blocks.
Qed.

End Mutex.

(** *** Reachable states *)

Section Reachable.

Context {L : Layout}.
Hypothesis Hlayout : layout_ok.

Lemma heap_size_ge : HEADER_SIZE <= HEAP_SIZE.
Proof.
  destruct Hlayout as (_ & Hpos & Hmod & _). unfold HEADER_SIZE in *.
  apply Z.mod_divide in Hmod; [|lia]. destruct Hmod as [k Hk]. lia.
Qed.

Lemma in_heap_base : in_heap heap_base = true.
Proof.
  apply in_heap_spec. destruct Hlayout as (_ & Hpos & _). unfold heap_end.
  split; [lia|]. rewrite Z.sub_diag. reflexivity.
Qed.

Lemma initAllocator_run s0 :
  initAllocator s0 =
  Ret tt (fresh_lock (set_size heap_base HEAP_SIZE
                        (set_next heap_base NULL (set_first heap_base s0)))).
Proof.
  unfold initAllocator. rewrite run_set_first, run_get_first.
  autorewrite with obs.
  rewrite run_store_next by apply in_heap_base.
  rewrite run_store_size by apply in_heap_base.
  reflexivity.
Qed.

Lemma initAllocator_inv s0 s :
  initAllocator s0 = Ret tt s ->
  alloc_inv s [HEAP_SIZE] [heap_base] /\ lock s = false.
Proof.
  rewrite initAllocator_run. intros [= <-].
  split; [|autorewrite with obs; reflexivity].
  split; [split|].
  - simpl. autorewrite with obs. rewrite decide_True by reflexivity.
    pose proof heap_size_ge. destruct Hlayout as (_ & _ & Hmod & _).
    repeat split; auto. apply in_heap_base.
  - simpl. autorewrite with obs. rewrite decide_True by reflexivity. auto.
  - apply NoDup_singleton.
  - intros b Hb. exact Hb.
  - intros a Ha Hna. contradiction.
Qed.

Lemma weak_of_alloc_inv s tl fl : alloc_inv s tl fl -> weak_inv s.
Proof. intros [H _]. exists tl, fl, NULL. auto. Qed.

(** A request whose size wraps to 0: the first free block is handed out
    whole and stays on the list, its [next] overwritten by the magic. *)
Lemma wrapped_split_preserves s tl b l2 t :
  heap_inv s tl (b :: l2) t ->
  let s' := split_state SlotFirstFree b 0 b s in
  heap_inv s' tl [b] ALLOCATED_BLOCK_MAGIC.
Proof.
  intros [Ht Hc Hnd Hs] s'.
  assert (Hb : b ∈ starts heap_base tl) by apply Hs, list_elem_of_here.
  destruct (tiles_to_starts _ _ _ _ _ Ht Hb) as (Hin & Hlo & Hhi & Hge & _).
  pose proof (in_heap_range Hlayout _ Hin) as Hbr.
  assert (Hend64 : heap_end < 2 ^ 64) by apply Hlayout.
  assert (Hsz : forall a, size_at s' a = size_at s a).
  { intros a. unfold s', split_state. simpl. autorewrite with obs.
    destruct (decide (a = b)) as [->|]; [|reflexivity].
    rewrite Z.sub_0_r. apply wrap64_small. unfold HEADER_SIZE in *. lia. }
  split.
  - eapply tiles_to_frame; [|exact Ht]. intros; apply Hsz.
  - unfold s', split_state. simpl. autorewrite with obs.
    rewrite decide_True by reflexivity. auto.
  - apply NoDup_singleton.
  - intros x Hx. apply list_elem_of_singleton in Hx as ->. exact Hb.
Qed.

Lemma magic_not_in_heap t :
  t = NULL \/ t = ALLOCATED_BLOCK_MAGIC -> t = NULL \/ in_heap t = false.
Proof. intros [->| ->]; [left; reflexivity | right; apply Hlayout]. Qed.

Lemma my_malloc_preserves_weak fuel n p s s' :
  weak_inv s -> my_malloc fuel n s = Ret p s' -> weak_inv s'.
Proof.
  intros (tl & fl & t & Hinv & Ht) Hrun.
  destruct (my_malloc_inv Hlayout _ _ _ _ _ _ _ _ Hinv (magic_not_in_heap _ Ht) Hrun)
    as [Hl [(-> & -> & -> & _)|(l1 & b & l2 & -> & Hsmall & Hfit & Halloc)]].
  - exists tl, fl, NULL. split; [apply heap_inv_locked, Hinv | auto].
  - pose proof (heap_inv_relocked _ _ _ _ Hinv) as Hinv0.
    set (s0 := unlocked (locked s)) in *.
    assert (Hbfl : b ∈ l1 ++ b :: l2).
    { apply elem_of_app. right. apply list_elem_of_here. }
    pose proof (heap_inv_in_heap _ _ _ _ _ Hinv Hbfl) as Hinb.
    pose proof (heap_inv_slot_ok _ _ _ _ l1 (b :: l2) Hinv eq_refl) as Hsl.
    destruct (tiles_to_starts _ _ _ _ _ (inv_tiles _ _ _ _ Hinv)
                (inv_sub _ _ _ _ Hinv _ Hbfl)) as (_ & _ & Hhi & Hge & _).
    pose proof (in_heap_range Hlayout _ Hinb) as Hbr.
    assert (Hend64 : heap_end < 2 ^ 64) by apply Hlayout.
    assert (Hsz0 : size_at s0 b = size_at s b)
      by (unfold s0; autorewrite with obs; reflexivity).
    assert (Hl0 : lock s0 = false)
      by (unfold s0; autorewrite with obs; reflexivity).
    destruct (needed_cases n) as [Hz|(Hn & Hnm & _)].
    + (* the size wrapped to 0 *)
      rewrite Hz in *.
      assert (l1 = []) as ->.
      { destruct l1 as [|x l1]; [reflexivity|]. exfalso.
        assert (Hx : x ∈ (x :: l1) ++ b :: l2) by apply list_elem_of_here.
        destruct (tiles_to_starts _ _ _ _ _ (inv_tiles _ _ _ _ Hinv)
                    (inv_sub _ _ _ _ Hinv _ Hx)) as (_ & _ & _ & Hgx & _).
        specialize (Hsmall x (list_elem_of_here _ _)).
        unfold HEADER_SIZE in *. lia. }
      assert (Hnf : wrap64 (b + HEADER_SIZE + wrap64 (0 - HEADER_SIZE)) = b).
      { unfold wrap64, HEADER_SIZE. change ((0 - 16) mod 2 ^ 64) with (2 ^ 64 - 16).
        replace (b + 16 + (2 ^ 64 - 16)) with (b + 1 * 2 ^ 64) by lia.
        rewrite Z.mod_add by lia. apply Z.mod_small. lia. }
      assert (Hlt : 0 < size_at s0 b)
        by (rewrite Hsz0; unfold HEADER_SIZE in *; lia).
      assert (Hinnf : in_heap
                (wrap64 (b + HEADER_SIZE + wrap64 (0 - HEADER_SIZE))) = true)
        by (rewrite Hnf; exact Hinb).
      rewrite (allocate_block_split _ _ _ _ Hl0 Hinb Hsl Hlt Hinnf)
        in Halloc.
      rewrite Hnf in Halloc. inversion Halloc; subst p s'.
      exists tl, [b], ALLOCATED_BLOCK_MAGIC. split; [|auto].
      simpl. apply wrapped_split_preserves with (l2 := l2) (t := t). exact Hinv0.
    + destruct (Z.eq_dec (size_at s b) (needed n)) as [E|E].
      * assert (E0 : size_at s0 b = needed n) by congruence.
        rewrite (allocate_block_exact _ _ _ _ Hl0 Hinb Hsl E0) in Halloc.
        inversion Halloc; subst p s'.
        destruct (exact_fit_preserves _ _ _ _ _ _ Hinv0) as (H & _).
        exists tl, (l1 ++ l2), t. auto.
      * assert (Hnf : wrap64 (b + HEADER_SIZE + wrap64 (needed n - HEADER_SIZE))
                      = b + needed n).
        { unfold HEADER_SIZE in *.
          rewrite (wrap64_small (needed n - 16)) by lia.
          rewrite wrap64_small; lia. }
        assert (Hlt : needed n < size_at s0 b) by lia.
        destruct (split_preserves Hlayout _ _ _ _ _ _ _ Hinv0 (proj1 Hn) Hnm Hlt)
          as (t1 & t2 & _ & _ & H & Hinnf & _).
        rewrite <- Hnf in Hinnf.
        rewrite (allocate_block_split _ _ _ _ Hl0 Hinb Hsl Hlt Hinnf)
          in Halloc.
        rewrite Hnf in Halloc. inversion Halloc; subst p s'.
        eexists _, _, t. split; [exact H | exact Ht].
Qed.

Lemma reachable_weak_inv s : reachable s -> weak_inv s.
Proof.
  induction 1 as [s0 s Hinit|s fuel n p s' _ IH _ Hrun|s fuel p s' _ IH Hrun].
  - apply initAllocator_inv in Hinit as [Hinv _].
    eapply weak_of_alloc_inv, Hinv.
  - eapply my_malloc_preserves_weak; eauto.
  - apply my_free_returns in Hrun as (_ & _ & ->).
    destruct IH as (tl & fl & t & Hinv & Ht).
    exists tl, fl, t. split; [apply heap_inv_locked, Hinv | exact Ht].
Qed.

End Reachable.

(** *** Enumerating the blocks by address *)

Section Enumeration.

Context {L : Layout}.
Hypothesis Hlayout : layout_ok.

Lemma getNext_tiled s a sz l e :
  tiles_to s a (sz :: l) e -> e <= heap_end ->
  wrap64 (a + HEADER_SIZE + wrap64 (size_at s a - HEADER_SIZE)) = a + sz.
Proof.
  simpl. intros (Hin & Hsz & Hge & _ & Ht) He.
  apply tiles_to_le in Ht. pose proof (in_heap_range Hlayout _ Hin).
  assert (heap_end < 2 ^ 64) by apply Hlayout.
  rewrite Hsz. unfold HEADER_SIZE in *.
  rewrite (wrap64_small (sz - 16)) by lia.
  replace (a + 16 + (sz - 16)) with (a + sz) by lia.
  apply wrap64_small. lia.
Qed.

Lemma dump_all_blocks_tiled s l :
  forall a fuel,
  tiles_to s a l heap_end -> (length l < fuel)%nat ->
  dump_all_blocks fuel (if decide (l = []) then NULL else a) s
    = Ret (block_lines s a l) s.
Proof.
  induction l as [|sz l IH]; intros a fuel Ht Hfuel;
    (destruct fuel as [|fuel]; [simpl in Hfuel; lia|]).
  - reflexivity.
  - rewrite decide_False by discriminate.
    pose proof (getNext_tiled _ _ _ _ _ Ht (Z.le_refl _)) as Hnx.
    pose proof Ht as (Hin & Hsz & Hge & Hmod & Ht').
    cbn [dump_all_blocks block_lines].
    rewrite (proj2 (Z.eqb_neq _ _))
      by (apply (in_heap_not_null Hlayout), Hin).
    rewrite run_load_size by assumption.
    unfold load_magic. rewrite run_load_next by assumption.
    rewrite run_getNext; rewrite ?Hnx;
      [|assumption|apply tiles_to_le in Ht'; lia].
    assert (Hnext : (if a + sz =? heap_end then NULL else a + sz) =
                    (if decide (l = []) then NULL else a + sz)).
    { destruct l as [|sz' l].
      - simpl in Ht'. rewrite Ht', Z.eqb_refl. reflexivity.
      - destruct Ht' as (Hin' & _). apply in_heap_spec in Hin'.
        rewrite (proj2 (Z.eqb_neq _ _)) by lia. reflexivity. }
    rewrite Hnext. unfold bind at 1.
    rewrite (IH (a + sz) fuel Ht') by (simpl in Hfuel; lia).
    rewrite Hsz. reflexivity.
Qed.

Lemma block_lines_tiled s l :
  forall a, tiles_to s a l heap_end ->
  contiguous (a - heap_base) (block_lines s a l) HEAP_SIZE /\
  total_size (block_lines s a l) = total l /\
  length (block_lines s a l) = length l.
Proof.
  induction l as [|sz l IH]; intros a Ht; simpl in *.
  - unfold heap_end in Ht. repeat split; auto. lia.
  - destruct Ht as (Hin & Hsz & Hge & Hmod & Ht').
    destruct (IH _ Ht') as (Hcont & Htot & Hlen).
    split; [|split].
    + split; [reflexivity|]. split; [unfold HEADER_SIZE in *; lia|].
      replace (a - heap_base + sz) with (a + sz - heap_base) by lia.
      exact Hcont.
    + rewrite Htot. reflexivity.
    + rewrite Hlen. reflexivity.
Qed.

Lemma tiles_nonempty s l : tiles_to s heap_base l heap_end -> l <> [].
Proof.
  intros Ht ->. simpl in Ht. destruct Hlayout as (_ & Hpos & _).
  unfold heap_end in Ht. lia.
Qed.

End Enumeration.

(** *** Blocks in use along [my_malloc] *)

Section InUse.

Context {L : Layout}.
Hypothesis Hlayout : layout_ok.

Lemma starts_split_block a0 t1 n1 n2 t2 x :
  x ∈ starts a0 (t1 ++ n1 :: n2 :: t2) <->
  x = a0 + total t1 + n1 \/ x ∈ starts a0 (t1 ++ (n1 + n2) :: t2).
Proof.
  rewrite !starts_app. simpl. rewrite !elem_of_app, !elem_of_cons.
  replace (a0 + total t1 + n1 + n2) with (a0 + total t1 + (n1 + n2)) by lia.
  tauto.
Qed.

(** Two distinct blocks of a tiling do not overlap. *)
Lemma tiles_disjoint s a0 l e x y :
  tiles_to s a0 l e -> x ∈ starts a0 l -> y ∈ starts a0 l -> x <> y ->
  x + size_at s x <= y \/ y + size_at s y <= x.
Proof.
  revert a0; induction l as [|sz l IH]; intros a0 Ht Hx Hy Hne; simpl in *.
  - inversion Hx.
  - destruct Ht as (Hin & Hsz & Hge & Hmod & Ht).
    apply elem_of_cons in Hx as [->|Hx]; apply elem_of_cons in Hy as [->|Hy].
    + contradiction.
    + left. destruct (tiles_to_starts _ _ _ _ _ Ht Hy) as (_ & ? & _). lia.
    + right. destruct (tiles_to_starts _ _ _ _ _ Ht Hx) as (_ & ? & _). lia.
    + eapply IH; eauto.
Qed.

Lemma alloc_inv_exact_fit s tl l1 b l2 :
  alloc_inv s tl (l1 ++ b :: l2) ->
  alloc_inv (exact_fit_state (slot_after SlotFirstFree l1) b s) tl (l1 ++ l2).
Proof.
  intros [Hinv Huse].
  destruct (exact_fit_preserves _ _ _ _ _ _ Hinv) as (Hinv' & _ & Hb & Hnx).
  split; [exact Hinv'|]. intros a Ha Hna. unfold in_use.
  destruct (decide (a = b)) as [->|Hab]; [exact Hb|].
  rewrite Hnx; auto.
  - apply Huse; auto. intros Hx. apply Hna.
    apply elem_of_app in Hx as [Hx|Hx]; apply elem_of_app; [left; exact Hx|].
    apply elem_of_cons in Hx as [->|Hx]; [contradiction | right; exact Hx].
  - intros Hx. apply Hna, elem_of_app. left. exact Hx.
Qed.

Lemma alloc_inv_split s tl l1 b l2 need :
  alloc_inv s tl (l1 ++ b :: l2) ->
  HEADER_SIZE <= need -> need mod HEADER_SIZE = 0 -> need < size_at s b ->
  exists tl',
    alloc_inv (split_state (slot_after SlotFirstFree l1) b need (b + need) s)
              tl' (l1 ++ (b + need) :: l2) /\
    forall a, a ∈ starts heap_base tl' <->
              a = b + need \/ a ∈ starts heap_base tl.
Proof.
  intros [Hinv Huse] Hge Hmod Hlt.
  destruct (split_preserves Hlayout _ _ _ _ _ _ _ Hinv Hge Hmod Hlt)
    as (t1 & t2 & -> & Hb & Hinv' & _ & Hnfst & _ & _ & _ & Hmagic & _ & Hnx & _).
  assert (Hst : forall a,
    a ∈ starts heap_base (t1 ++ need :: (size_at s b - need) :: t2) <->
    a = b + need \/ a ∈ starts heap_base (t1 ++ size_at s b :: t2)).
  { intros a. rewrite starts_split_block, <- Hb.
    replace (need + (size_at s b - need)) with (size_at s b) by lia.
    reflexivity. }
  eexists. split; [split; [exact Hinv'|]|exact Hst].
  intros a Ha Hna. unfold in_use.
  destruct (decide (a = b)) as [->|Hab]; [exact Hmagic|].
  assert (Hanf : a <> b + need).
  { intros ->. apply Hna, elem_of_app. right. apply list_elem_of_here. }
  apply Hst in Ha as [Ha|Ha]; [contradiction|].
  rewrite Hnx; auto.
  - apply Huse; auto. intros Hx. apply Hna.
    apply elem_of_app in Hx as [Hx|Hx]; apply elem_of_app; [left; exact Hx|].
    apply elem_of_cons in Hx as [->|Hx]; [contradiction|].
    right. apply list_elem_of_further, Hx.
  - intros Hx. apply Hna, elem_of_app. left. exact Hx.
Qed.

(** In the range of sizes that do not wrap, the code computes the size the
    specification names: the least multiple of 16 from [n], plus the
    header. *)
Lemma least_multiple_unique n r :
  least_multiple_of_16_from n r -> r = 16 * ((n + 15) / 16).
Proof.
  intros (Hm & Hle & Hleast).
  assert (Hc : (16 * ((n + 15) / 16)) mod 16 = 0)
    by (rewrite Z.mul_comm; apply Z.mod_mul; lia).
  assert (n <= 16 * ((n + 15) / 16)).
  { pose proof (Z.div_mod (n + 15) 16 ltac:(lia)).
    pose proof (Z.mod_pos_bound (n + 15) 16 ltac:(lia)). lia. }
  specialize (Hleast _ Hc H).
  apply Z.mod_divide in Hm; [|lia]. destruct Hm as [k ->].
  pose proof (Z.div_mod (n + 15) 16 ltac:(lia)).
  pose proof (Z.mod_pos_bound (n + 15) 16 ltac:(lia)). lia.
Qed.

Lemma needed_spec n r :
  0 <= n -> least_multiple_of_16_from n r -> r + HEADER_SIZE < 2 ^ 64 ->
  needed n = r + HEADER_SIZE /\
  HEADER_SIZE <= needed n /\ needed n mod HEADER_SIZE = 0.
Proof.
  intros Hn Hr Hlt. pose proof Hr as (Hm & Hle & _).
  apply least_multiple_unique in Hr. unfold needed, HEADER_SIZE in *.
  rewrite roundUp_no_wrap by lia. rewrite <- Hr.
  rewrite wrap64_small by lia. repeat split; try lia.
  rewrite Z.add_mod, Hm by lia. reflexivity.
Qed.

End InUse.

(** ** The allocation path *)

Section Allocation.

Context {L : Layout}.
Hypothesis Hlayout : layout_ok.

Lemma alloc_inv_relocked s tl fl :
  alloc_inv s tl fl -> alloc_inv (unlocked (locked s)) tl fl.
Proof.
  intros [Hinv Huse]. split; [apply heap_inv_relocked, Hinv|].
  intros a Ha Hna. unfold in_use. autorewrite with obs. apply Huse; auto.
Qed.

(** A block large enough is found after the blocks [l1]: what the call
    returns, and the globals it leaves. *)
Lemma my_malloc_fit fuel n s tl l1 b l2 t :
  heap_inv s tl (l1 ++ b :: l2) t -> lock s = false ->
  HEADER_SIZE <= needed n -> needed n mod HEADER_SIZE = 0 ->
  (forall x, x ∈ l1 -> size_at s x < needed n) ->
  needed n <= size_at s b ->
  (length l1 < fuel)%nat ->
  let s0 := unlocked (locked s) in
  let sl := slot_after SlotFirstFree l1 in
  my_malloc fuel n s =
  Ret (b + HEADER_SIZE)
      (if decide (size_at s b = needed n) then exact_fit_state sl b s0
       else split_state sl b (needed n) (b + needed n) s0).
Proof.
  intros Hinv Hl Hge Hmod Hsmall Hfit Hfuel s0 sl. subst sl.
  rewrite (my_malloc_found Hlayout fuel n s tl l1 b l2 t) by assumption.
  fold s0.
  pose proof (heap_inv_relocked _ _ _ _ Hinv) as Hinv0. fold s0 in Hinv0.
  assert (Hbfl : b ∈ l1 ++ b :: l2).
  { apply elem_of_app. right. apply list_elem_of_here. }
  pose proof (heap_inv_in_heap _ _ _ _ _ Hinv Hbfl) as Hinb.
  pose proof (heap_inv_slot_ok _ _ _ _ l1 (b :: l2) Hinv eq_refl) as Hsl.
  assert (Hsz0 : size_at s0 b = size_at s b)
    by (unfold s0; autorewrite with obs; reflexivity).
  assert (Hl0 : lock s0 = false)
    by (unfold s0; autorewrite with obs; reflexivity).
  destruct (decide (size_at s b = needed n)) as [E|E].
  - apply allocate_block_exact; auto; congruence.
  - destruct (tiles_to_starts _ _ _ _ _ (inv_tiles _ _ _ _ Hinv)
                (inv_sub _ _ _ _ Hinv _ Hbfl)) as (_ & _ & Hhi & _).
    pose proof (in_heap_range Hlayout _ Hinb) as Hbr.
    assert (Hend64 : heap_end < 2 ^ 64) by apply Hlayout.
    assert (Hnf : wrap64 (b + HEADER_SIZE + wrap64 (needed n - HEADER_SIZE))
                  = b + needed n).
    { unfold HEADER_SIZE in *.
      rewrite (wrap64_small (needed n - 16)) by lia.
      rewrite wrap64_small; lia. }
    assert (Hlt : needed n < size_at s0 b) by lia.
    destruct (split_preserves Hlayout _ _ _ _ _ _ _ Hinv0 Hge Hmod Hlt)
      as (_ & _ & _ & _ & _ & Hinnf & _).
    rewrite <- Hnf in Hinnf.
    rewrite (allocate_block_split _ _ _ _ Hl0 Hinb Hsl Hlt Hinnf).
    rewrite Hnf. reflexivity.
Qed.

(** Requests whose size does not wrap to 0 keep the allocator invariant:
    it holds after [initAllocator] and after every such [my_malloc]. *)
Lemma my_malloc_preserves_alloc_inv fuel n p s s' tl fl :
  alloc_inv s tl fl -> needed n <> 0 ->
  my_malloc fuel n s = Ret p s' ->
  exists tl' fl', alloc_inv s' tl' fl'.
Proof.
  intros Halloc Hnz Hrun. pose proof Halloc as [Hinv Huse].
  destruct (my_malloc_inv Hlayout _ _ _ _ _ _ _ _ Hinv (or_introl eq_refl) Hrun)
    as [Hl [(-> & -> & _ & _)|(l1 & b & l2 & -> & Hsmall & Hfit & Hab)]].
  - exists tl, fl. split; [apply heap_inv_locked, Hinv|].
    intros a Ha Hna. unfold in_use. autorewrite with obs. apply Huse; auto.
  - destruct (needed_cases n) as [Hz|(Hn & Hnm & _)]; [contradiction|].
    pose proof (my_malloc_fit fuel n s tl l1 b l2 NULL Hinv Hl (proj1 Hn) Hnm
                  Hsmall Hfit) as Hfitrun.
    pose proof (alloc_inv_relocked _ _ _ Halloc) as Halloc0.
    set (s0 := unlocked (locked s)) in *.
    assert (Hbfl : b ∈ l1 ++ b :: l2).
    { apply elem_of_app. right. apply list_elem_of_here. }
    pose proof (heap_inv_in_heap _ _ _ _ _ Hinv Hbfl) as Hinb.
    pose proof (heap_inv_slot_ok _ _ _ _ l1 (b :: l2) Hinv eq_refl) as Hsl.
    assert (Hsz0 : size_at s0 b = size_at s b)
      by (unfold s0; autorewrite with obs; reflexivity).
    assert (Hl0 : lock s0 = false)
      by (unfold s0; autorewrite with obs; reflexivity).
    destruct (Z.eq_dec (size_at s b) (needed n)) as [E|E].
    + assert (E0 : size_at s0 b = needed n) by congruence.
      rewrite (allocate_block_exact _ _ _ _ Hl0 Hinb Hsl E0) in Hab.
      inversion Hab; subst p s'.
      exists tl, (l1 ++ l2). apply alloc_inv_exact_fit, Halloc0.
    + assert (Hlt : needed n < size_at s0 b) by lia.
      destruct (alloc_inv_split Hlayout _ _ _ _ _ _ Halloc0 (proj1 Hn) Hnm Hlt)
        as (tl' & Halloc' & _).
      destruct (tiles_to_starts _ _ _ _ _ (inv_tiles _ _ _ _ Hinv)
                  (inv_sub _ _ _ _ Hinv _ Hbfl)) as (_ & _ & Hhi & _).
      pose proof (in_heap_range Hlayout _ Hinb) as Hbr.
      assert (Hend64 : heap_end < 2 ^ 64) by apply Hlayout.
      assert (Hnf : wrap64 (b + HEADER_SIZE + wrap64 (needed n - HEADER_SIZE))
                    = b + needed n).
      { unfold HEADER_SIZE in *.
        rewrite (wrap64_small (needed n - 16)) by lia.
        rewrite wrap64_small; lia. }
      destruct (split_preserves Hlayout _ _ _ _ _ _ _ (proj1 Halloc0)
                  (proj1 Hn) Hnm Hlt) as (_ & _ & _ & _ & _ & Hinnf & _).
      rewrite <- Hnf in Hinnf.
      rewrite (allocate_block_split _ _ _ _ Hl0 Hinb Hsl Hlt Hinnf) in Hab.
      rewrite Hnf in Hab. inversion Hab; subst p s'.
      exists tl', (l1 ++ (b + needed n) :: l2). exact Halloc'.
Qed.

(** C4 (as amended). For every [n] up to [2^64 - 16], [roundUp n] is the
    least multiple of 16 that is greater than or equal to [n]; being a
    function of [n] alone, it reads and writes no state. *)
Theorem roundUp_least_multiple (n : Z) :
  0 <= n <= 2 ^ 64 - 16 -> least_multiple_of_16_from n (roundUp n).
Proof.
  intros Hn. rewrite roundUp_no_wrap by exact Hn.
  pose proof (Z.div_mod (n + 15) 16 ltac:(lia)) as Hdm.
  pose proof (Z.mod_pos_bound (n + 15) 16 ltac:(lia)) as Hb.
  repeat split.
  - rewrite Z.mul_comm. apply Z.mod_mul. lia.
  - lia.
  - intros m Hm Hle. apply Z.mod_divide in Hm; [|lia]. destruct Hm as [k ->].
    assert ((n + 15) / 16 < k + 1); [|lia].
    apply Z.div_lt_upper_bound; lia.
Qed.

(** In a state with the mutex free whose free list has a first block
    [b], [my_malloc 0] returns the non-null pointer [b + HEADER_SIZE], and
    the block it hands out has total size exactly [HEADER_SIZE]: no payload
    byte, one header of arena space. *)
Theorem my_malloc_zero s tl b fl t fuel :
  heap_inv s tl (b :: fl) t -> lock s = false -> (0 < fuel)%nat ->
  exists s' tl',
    my_malloc fuel 0 s = Ret (b + HEADER_SIZE) s' /\
    b + HEADER_SIZE <> NULL /\
    size_at s' b = HEADER_SIZE /\ in_use s' b /\
    tiles_to s' heap_base tl' heap_end /\ b ∈ starts heap_base tl'.
Proof.
  intros Hinv Hl Hfuel.
  assert (Hneed : needed 0 = HEADER_SIZE) by reflexivity.
  assert (Hbfl : b ∈ b :: fl) by apply list_elem_of_here.
  pose proof (heap_inv_in_heap _ _ _ _ _ Hinv Hbfl) as Hinb.
  destruct (tiles_to_starts _ _ _ _ _ (inv_tiles _ _ _ _ Hinv)
              (inv_sub _ _ _ _ Hinv _ Hbfl)) as (_ & _ & _ & Hge & _).
  pose proof (in_heap_range Hlayout _ Hinb) as Hbr.
  pose proof (my_malloc_fit fuel 0 s tl [] b fl t Hinv Hl) as Hrun.
  rewrite Hneed in Hrun. simpl in Hrun.
  specialize (Hrun (Z.le_refl _) eq_refl
                (fun x (H : x ∈ []) => False_ind _ (proj1 (elem_of_nil x) H))
                Hge Hfuel).
  pose proof (heap_inv_relocked _ _ _ _ Hinv) as Hinv0.
  assert (Hsz0 : size_at (unlocked (locked s)) b = size_at s b)
    by (autorewrite with obs; reflexivity).
  destruct (decide (size_at s b = HEADER_SIZE)) as [E|E].
  - destruct (exact_fit_preserves _ _ [] _ _ _ Hinv0) as (H & Hsz & Hm & _).
    eexists _, tl. split; [exact Hrun|].
    repeat split; auto.
    + unfold HEADER_SIZE, NULL. lia.
    + rewrite Hsz, Hsz0. exact E.
    + apply H.
    + apply (inv_sub _ _ _ _ Hinv), Hbfl.
  - assert (Hlt : HEADER_SIZE < size_at (unlocked (locked s)) b)
      by (rewrite Hsz0; lia).
    destruct (split_preserves Hlayout _ _ [] _ _ _ _ Hinv0 (Z.le_refl _)
                eq_refl Hlt)
      as (t1 & t2 & Htl & Hb & H & _ & _ & Hsz & _ & _ & Hm & _).
    eexists _, _. split; [exact Hrun|].
    repeat split; auto.
    + unfold HEADER_SIZE, NULL. lia.
    + apply H.
    + rewrite starts_app. apply elem_of_app. right. rewrite <- Hb.
      apply list_elem_of_here.
Qed.

(** In a state that satisfies the heap invariant, with
    the mutex free at entry, a request for which no block of the free list
    has the size [needed n] that the code computes in 64 bits makes
    [my_malloc] return [NULL]; the arena and [_firstFreeBlock] are left as
    they were. *)
Theorem my_malloc_exhausted s tl fl fuel n :
  heap_inv s tl fl NULL -> lock s = false ->
  (forall x, x ∈ fl -> size_at s x < needed n) ->
  (length fl < fuel)%nat ->
  exists s',
    my_malloc fuel n s = Ret NULL s' /\
    _heapData s' = _heapData s /\ _firstFreeBlock s' = _firstFreeBlock s.
Proof.
  intros Hinv Hl Hsmall Hfuel. exists (locked s).
  split; [|split; reflexivity].
  eapply my_malloc_null; eauto.
Qed.

(** On a fresh allocator: every request of more than
    [HEAP_SIZE - HEADER_SIZE] bytes whose rounded size still fits 64 bits. *)
Lemma my_malloc_fresh_exhausted s0 s fuel n :
  initAllocator s0 = Ret tt s ->
  HEAP_SIZE - HEADER_SIZE < n <= 2 ^ 64 - 32 -> (1 < fuel)%nat ->
  exists s',
    my_malloc fuel n s = Ret NULL s' /\
    _heapData s' = _heapData s /\ _firstFreeBlock s' = _firstFreeBlock s.
Proof.
  intros Hinit Hn Hfuel.
  destruct (initAllocator_inv Hlayout _ _ Hinit) as [[Hinv _] Hl].
  exists (locked s). split; [|split; reflexivity].
  eapply my_malloc_null; eauto.
  intros x Hx. apply list_elem_of_singleton in Hx as ->.
  destruct Hinv as [Ht _ _ _]. simpl in Ht. destruct Ht as (_ & -> & _).
  pose proof heap_size_ge Hlayout as Hge.
  assert (Hn' : 0 <= n <= 2 ^ 64 - 16) by (unfold HEADER_SIZE in *; lia).
  pose proof (roundUp_ge n Hn') as Hle.
  destruct (roundUp_range n) as [Hr Hm].
  assert (roundUp n <= 2 ^ 64 - 32).
  { rewrite roundUp_no_wrap by lia.
    assert ((n + 15) / 16 <= 2 ^ 60 - 2); [|lia].
    assert ((n + 15) / 16 < 2 ^ 60 - 1); [|lia].
    apply Z.div_lt_upper_bound; lia. }
  unfold needed, HEADER_SIZE in *. rewrite wrap64_small by lia. lia.
Qed.

(** In a state that satisfies the allocator invariant, with the mutex
    free at entry: when [b] is the first block of the free list whose size
    is at least [neededSize], the least multiple of 16 from [n] plus the
    header, [my_malloc n] returns [b + HEADER_SIZE]; the block [b] then has
    size [neededSize], is in use and off the free list, so that its payload
    is the [neededSize - HEADER_SIZE] bytes past its header, inside the
    arena; every block that was in use still is, unchanged, and does not
    overlap [b]. *)
Theorem my_malloc_first_fit s tl l1 b l2 n r fuel :
  alloc_inv s tl (l1 ++ b :: l2) -> lock s = false ->
  0 <= n -> least_multiple_of_16_from n r ->
  (forall x, x ∈ l1 -> size_at s x < r + HEADER_SIZE) ->
  r + HEADER_SIZE <= size_at s b ->
  (length l1 < fuel)%nat ->
  exists s' tl' fl',
    my_malloc fuel n s = Ret (b + HEADER_SIZE) s' /\
    alloc_inv s' tl' fl' /\
    b ∈ starts heap_base tl' /\ (b ∉ fl') /\ in_use s' b /\
    size_at s' b = r + HEADER_SIZE /\
    b + HEADER_SIZE + r <= heap_end /\
    forall a, a ∈ starts heap_base tl -> a ∉ l1 ++ b :: l2 ->
      a ∈ starts heap_base tl' /\ (a ∉ fl') /\ in_use s' a /\
      size_at s' a = size_at s a /\
      (a + size_at s a <= b \/ b + (r + HEADER_SIZE) <= a).
Proof.
  intros Halloc Hl Hn Hr Hsmall Hfit Hfuel.
  pose proof Halloc as [Hinv Huse].
  assert (Hbfl : b ∈ l1 ++ b :: l2).
  { apply elem_of_app. right. apply list_elem_of_here. }
  pose proof (inv_sub _ _ _ _ Hinv _ Hbfl) as Hbst.
  destruct (tiles_to_starts _ _ _ _ _ (inv_tiles _ _ _ _ Hinv) Hbst)
    as (Hinb & _ & Hhi & _).
  assert (Hend64 : heap_end < 2 ^ 64) by apply Hlayout.
  pose proof (in_heap_range Hlayout _ Hinb) as Hbr.
  destruct (needed_spec n r Hn Hr ltac:(lia)) as (Hneed & Hge & Hmod).
  rewrite <- Hneed in *.
  pose proof (my_malloc_fit fuel n s tl l1 b l2 NULL Hinv Hl Hge Hmod Hsmall
                Hfit Hfuel) as Hrun. simpl in Hrun.
  pose proof (alloc_inv_relocked _ _ _ Halloc) as Halloc0.
  pose proof Halloc0 as [Hinv0 _].
  set (s0 := unlocked (locked s)) in *.
  assert (Hsz0 : forall a, size_at s0 a = size_at s a)
    by (intros; unfold s0; autorewrite with obs; reflexivity).
  pose proof (inv_nodup _ _ _ _ Hinv) as Hnd.
  apply NoDup_app in Hnd as (_ & Hnd12 & Hnd2).
  apply NoDup_cons in Hnd2 as [Hb2 _].
  assert (Hb1 : b ∉ l1).
  { intros Hb1. apply (Hnd12 _ Hb1), list_elem_of_here. }
  assert (Hdisj : forall a, a ∈ starts heap_base tl -> a ∉ l1 ++ b :: l2 ->
            a <> b /\ (a + size_at s a <= b \/ b + needed n <= a)).
  { intros a Ha Hna. assert (Hab : a <> b) by (intros ->; contradiction).
    split; [exact Hab|].
    destruct (tiles_disjoint _ _ _ _ _ _ (inv_tiles _ _ _ _ Hinv) Ha Hbst Hab);
      [left | right]; lia. }
  destruct (decide (size_at s b = needed n)) as [E|E].
  - pose proof (alloc_inv_exact_fit _ _ _ _ _ Halloc0) as Halloc'.
    destruct (exact_fit_preserves _ _ _ _ _ _ Hinv0) as (_ & Hsz & Hm & _).
    eexists _, tl, (l1 ++ l2). split; [exact Hrun|].
    split; [exact Halloc'|]. split; [exact Hbst|].
    split; [intros Hx; apply elem_of_app in Hx as [Hx|Hx]; contradiction|].
    split; [exact Hm|]. split; [rewrite Hsz, Hsz0; exact E|].
    split; [unfold HEADER_SIZE in *; lia|].
    intros a Ha Hna. destruct (Hdisj a Ha Hna) as [Hab Hd].
    assert (Hna' : a ∉ l1 ++ l2).
    { intros Hx. apply Hna.
      apply elem_of_app in Hx as [Hx|Hx]; apply elem_of_app;
        [left | right; apply list_elem_of_further]; exact Hx. }
    split; [exact Ha|]. split; [exact Hna'|].
    split; [apply Halloc'; assumption|].
    split; [rewrite Hsz, Hsz0; reflexivity | exact Hd].
  - assert (Hlt : needed n < size_at s0 b) by (rewrite Hsz0; lia).
    destruct (alloc_inv_split Hlayout _ _ _ _ _ _ Halloc0 Hge Hmod Hlt)
      as (tl' & Halloc' & Hst).
    destruct (split_preserves Hlayout _ _ _ _ _ _ _ Hinv0 Hge Hmod Hlt)
      as (_ & _ & _ & _ & _ & _ & Hnfst & Hszb & _ & _ & Hm & Hszf & _).
    assert (Hnfb : b + needed n <> b) by (unfold HEADER_SIZE in *; lia).
    eexists _, tl', (l1 ++ (b + needed n) :: l2). split; [exact Hrun|].
    split; [exact Halloc'|]. split; [apply Hst; right; exact Hbst|].
    split.
    { intros Hx. apply elem_of_app in Hx as [Hx|Hx]; [contradiction|].
      apply elem_of_cons in Hx as [Hx|Hx]; [|contradiction].
      apply Hnfb. congruence. }
    split; [exact Hm|]. split; [exact Hszb|].
    split; [unfold HEADER_SIZE in *; lia|].
    intros a Ha Hna. destruct (Hdisj a Ha Hna) as [Hab Hd].
    assert (Hanf : a <> b + needed n) by (intros ->; contradiction).
    assert (Hna' : a ∉ l1 ++ (b + needed n) :: l2).
    { intros Hx. apply Hna.
      apply elem_of_app in Hx as [Hx|Hx]; apply elem_of_app;
        [left; exact Hx|].
      apply elem_of_cons in Hx as [->|Hx]; [contradiction|].
      right. apply list_elem_of_further, Hx. }
    split; [apply Hst; right; exact Ha|]. split; [exact Hna'|].
    split; [apply Halloc'; [apply Hst; right; exact Ha | exact Hna']|].
    split; [rewrite Hszf, Hsz0 by assumption; reflexivity | exact Hd].
Qed.

(** C7. With the mutex free at entry, when the first-fit candidate [b] is
    strictly larger than [neededSize], the call splits it in place: [b]
    keeps [neededSize] bytes and is marked in use; a free block of the
    remaining [oldSize - neededSize] bytes, at least one header and never
    zero, is created at [b + neededSize] with the old [next] of [b]; the
    slot tracked by the search now points to it, so that it takes the
    place of [b] in the free list; the pointer returned is the payload of
    [b]. *)
Theorem my_malloc_split_in_place s tl l1 b l2 t n r fuel :
  heap_inv s tl (l1 ++ b :: l2) t -> lock s = false ->
  0 <= n -> least_multiple_of_16_from n r ->
  (forall x, x ∈ l1 -> size_at s x < r + HEADER_SIZE) ->
  r + HEADER_SIZE < size_at s b ->
  (length l1 < fuel)%nat ->
  let tracked := slot_after SlotFirstFree l1 in
  let newfree := b + (r + HEADER_SIZE) in
  exists s' tl',
    find_block fuel (needed n) (_firstFreeBlock s) SlotFirstFree (locked s)
      = Ret (b, tracked) (locked s) /\
    my_malloc fuel n s = Ret (b + HEADER_SIZE) s' /\
    size_at s' b = r + HEADER_SIZE /\ in_use s' b /\
    in_heap newfree = true /\
    size_at s' newfree = size_at s b - (r + HEADER_SIZE) /\
    HEADER_SIZE <= size_at s' newfree /\
    next_at s' newfree = next_at s b /\
    slot_val s' tracked = newfree /\
    heap_inv s' tl' (l1 ++ newfree :: l2) t.
Proof.
  intros Hinv Hl Hn Hr Hsmall Hfit Hfuel tracked newfree.
  assert (Hbfl : b ∈ l1 ++ b :: l2).
  { apply elem_of_app. right. apply list_elem_of_here. }
  pose proof (inv_sub _ _ _ _ Hinv _ Hbfl) as Hbst.
  destruct (tiles_to_starts _ _ _ _ _ (inv_tiles _ _ _ _ Hinv) Hbst)
    as (Hinb & _ & Hhi & _).
  assert (Hend64 : heap_end < 2 ^ 64) by apply Hlayout.
  pose proof (in_heap_range Hlayout _ Hinb) as Hbr.
  destruct (needed_spec n r Hn Hr ltac:(lia)) as (Hneed & Hge & Hmod).
  unfold newfree. rewrite <- Hneed in *.
  pose proof (my_malloc_fit fuel n s tl l1 b l2 t Hinv Hl Hge Hmod Hsmall
                ltac:(lia) Hfuel) as Hrun. simpl in Hrun.
  rewrite decide_False in Hrun by lia.
  pose proof (heap_inv_relocked _ _ _ _ Hinv) as Hinv0.
  set (s0 := unlocked (locked s)) in *.
  assert (Hsz0 : forall a, size_at s0 a = size_at s a)
    by (intros; unfold s0; autorewrite with obs; reflexivity).
  assert (Hnx0 : forall a, next_at s0 a = next_at s a)
    by (intros; unfold s0; autorewrite with obs; reflexivity).
  assert (Hlt : needed n < size_at s0 b) by (rewrite Hsz0; lia).
  destruct (split_preserves Hlayout _ _ _ _ _ _ _ Hinv0 Hge Hmod Hlt)
    as (t1 & t2 & _ & _ & Hinv' & Hinnf & _ & Hszb & Hsznf & Hnxnf & Hm & _ & _
        & Hslot).
  eexists _, _. split; [|split; [exact Hrun|]].
  - pose proof (heap_inv_locked _ _ _ _ Hinv) as Hinv1.
    apply (find_block_found Hlayout (locked s) (needed n) b l2 t l1); auto.
    + apply Hinv1.
    + intros x Hx. split.
      * eapply heap_inv_in_heap; [exact Hinv|]. apply elem_of_app. left.
        exact Hx.
      * autorewrite with obs. auto.
    + autorewrite with obs. lia.
  - rewrite Hsz0 in Hsznf. rewrite Hnx0 in Hnxnf.
    split; [exact Hszb|]. split; [exact Hm|]. split; [exact Hinnf|].
    split; [exact Hsznf|].
    split.
    { destruct (tiles_to_starts _ _ _ _ _ (inv_tiles _ _ _ _ Hinv')
                  (inv_sub _ _ _ _ Hinv' (b + needed n)
                     ltac:(apply elem_of_app; right; apply list_elem_of_here)))
        as (_ & _ & _ & H & _). exact H. }
    split; [exact Hnxnf|]. split; [exact Hslot | exact Hinv'].
Qed.

(** C9. In every state reachable from [initAllocator] by returned calls of
    [my_malloc] and [my_free], the enumeration of [dumpAllocator], from the
    start of the arena through [_getNextBlockBySize], returns blocks that
    follow one another without gap or overlap from offset 0 to offset
    [HEAP_SIZE], and whose sizes add up to [HEAP_SIZE]. *)
Theorem partition_invariant s :
  reachable s ->
  exists lines,
    (forall fuel, (length lines < fuel)%nat ->
                  dump_all_blocks fuel heap_base s = Ret lines s) /\
    contiguous 0 lines HEAP_SIZE /\ total_size lines = HEAP_SIZE.
Proof.
  intros Hreach.
  destruct (reachable_weak_inv Hlayout _ Hreach) as (tl & fl & t & Hinv & _).
  pose proof (inv_tiles _ _ _ _ Hinv) as Ht.
  pose proof (tiles_nonempty Hlayout _ _ Ht) as Hne.
  destruct (block_lines_tiled s tl heap_base Ht) as (Hcont & Htot & Hlen).
  exists (block_lines s heap_base tl). rewrite Z.sub_diag in Hcont.
  split; [|split; [exact Hcont|]].
  - intros fuel Hfuel. rewrite Hlen in Hfuel.
    pose proof (dump_all_blocks_tiled Hlayout s tl heap_base fuel Ht Hfuel)
      as Hrun.
    rewrite decide_False in Hrun by exact Hne. exact Hrun.
  - rewrite Htot. apply tiles_to_total in Ht. unfold heap_end in Ht. lia.
Qed.

End Allocation.

(** ** The mutex along a call *)

Section LockDiscipline.

Context {L : Layout}.

Lemma bind_inv {A B} (m : M A) (k : A -> M B) s b s' :
  bind m k s = Ret b s' -> exists a s1, m s = Ret a s1 /\ k a s1 = Ret b s'.
Proof.
  unfold bind. destruct (m s) as [a s1| | | |]; try discriminate.
  intros H. exists a, s1. auto.
Qed.

Lemma emits_ret {A} (a : A) : emits [] (ret a).
Proof.
  intros s a' s' H. inversion H; subst. rewrite app_nil_r. auto.
Qed.

Lemma emits_bind_quiet {A B} evs (m : M A) (k : A -> M B) :
  emits [] m -> (forall a, emits evs (k a)) -> emits evs (bind m k).
Proof.
  intros Hm Hk s b s' Hrun. apply bind_inv in Hrun as (a & s1 & H1 & H2).
  apply Hm in H1 as [Ht Hl]. apply Hk in H2 as [Ht' Hl'].
  rewrite app_nil_r in Ht. unfold held_after in Hl. simpl in Hl.
  rewrite Ht', Hl', Ht, Hl. auto.
Qed.

Lemma emits_assert b : emits [] (assert b).
Proof.
  intros s a s'. unfold assert. destruct b; [|discriminate].
  intros H. inversion H; subst. rewrite app_nil_r. auto.
Qed.

Lemma emits_set_first p : emits [] (set_firstFreeBlock p).
Proof.
  intros s a s' H. inversion H; subst. autorewrite with obs.
  rewrite app_nil_r. auto.
Qed.

Lemma emits_load_size a : emits [] (load_size a).
Proof.
  intros s v s'. unfold load_size. destruct (in_heap a); [|discriminate].
  intros H. inversion H; subst. rewrite app_nil_r. auto.
Qed.

Lemma emits_load_next a : emits [] (load_next a).
Proof.
  intros s v s'. unfold load_next. destruct (in_heap a); [|discriminate].
  intros H. inversion H; subst. rewrite app_nil_r. auto.
Qed.

Lemma emits_store_size a v : emits [] (store_size a v).
Proof.
  intros s u s'. unfold store_size. destruct (in_heap a); [|discriminate].
  intros H. inversion H; subst. autorewrite with obs. rewrite app_nil_r. auto.
Qed.

Lemma emits_store_next a v : emits [] (store_next a v).
Proof.
  intros s u s'. unfold store_next. destruct (in_heap a); [|discriminate].
  intros H. inversion H; subst. autorewrite with obs. rewrite app_nil_r. auto.
Qed.

Lemma emits_store_slot sl v : emits [] (store_slot sl v).
Proof.
  destruct sl; simpl; [apply emits_set_first | apply emits_store_next].
Qed.

Lemma emits_getNext current : emits [] (_getNextBlockBySize current).
Proof.
  unfold _getNextBlockBySize.
  apply emits_bind_quiet; [apply emits_load_size|]. intros sz.
  apply emits_bind_quiet; [apply emits_assert|]. intros _.
  apply emits_ret.
Qed.

Lemma emits_get_first : emits [] get_firstFreeBlock.
Proof.
  intros s a s' H. inversion H; subst. rewrite app_nil_r. auto.
Qed.

Lemma emits_dump_all_blocks fuel :
  forall current, emits [] (dump_all_blocks fuel current).
Proof.
  induction fuel as [|fuel IH]; intros current; simpl.
  - intros s a s' H. discriminate.
  - destruct (current =? NULL); [apply emits_ret|].
    apply emits_bind_quiet; [apply emits_load_size|]. intros sz.
    apply emits_bind_quiet; [apply emits_load_next|]. intros mg.
    apply emits_bind_quiet; [apply emits_getNext|]. intros nx.
    apply emits_bind_quiet; [apply IH|]. intros rest.
    apply emits_ret.
Qed.

Lemma emits_dump_free_blocks fuel :
  forall current, emits [] (dump_free_blocks fuel current).
Proof.
  induction fuel as [|fuel IH]; intros current; simpl.
  - intros s a s' H. discriminate.
  - destruct (current =? NULL); [apply emits_ret|].
    apply emits_bind_quiet; [apply emits_load_size|]. intros sz.
    apply emits_bind_quiet; [apply emits_load_next|]. intros nx.
    apply emits_bind_quiet; [apply IH|]. intros rest.
    apply emits_ret.
Qed.

Lemma emits_unlock_ret {A} (a : A) :
  emits [EvUnlock] (pthread_mutex_unlock ;;; ret a).
Proof.
  intros s a' s' H. inversion H; subst. autorewrite with obs. auto.
Qed.

(** [find_block] only reads. *)
Lemma find_block_pure fuel size :
  forall block prevptr s r s',
  find_block fuel size block prevptr s = Ret r s' -> s' = s.
Proof.
  induction fuel as [|fuel IH]; intros block prevptr s r s' H; simpl in H.
  - discriminate.
  - destruct (block =? NULL); [inversion H; reflexivity|].
    apply bind_inv in H as (bsz & s1 & H1 & H).
    unfold load_size in H1. destruct (in_heap block) eqn:Hin; [|discriminate].
    injection H1 as Hbsz Hs1. subst bsz s1.
    destruct (size <=? size_at s block); [inversion H; reflexivity|].
    apply bind_inv in H as (nx & s2 & H2 & H).
    unfold load_next in H2. rewrite Hin in H2.
    injection H2 as Hnx Hs2. subst nx s2. eapply IH, H.
Qed.

(** The two ways out of [allocate_block]: the exact-fit path returns with
    the mutex held, the split path releases it. *)
Lemma allocate_block_emits sl b need s p s' :
  allocate_block sl b need s = Ret p s' ->
  lock s = false /\
  ((lock_trace s' = lock_trace s ++ [EvLock] /\ lock s' = true) \/
   (lock_trace s' = lock_trace s ++ [EvLock; EvUnlock] /\ lock s' = false)).
Proof.
  intros H. unfold allocate_block in H.
  destruct (lock s) eqn:Hl;
    [rewrite run_lock_held in H by assumption; discriminate|].
  split; [reflexivity|].
  rewrite run_lock in H by assumption.
  apply bind_inv in H as (bsz & s1 & H1 & H).
  apply emits_load_size in H1 as [Ht1 Hl1].
  apply bind_inv in H as (u & s2 & H2 & H).
  apply emits_assert in H2 as [Ht2 Hl2].
  rewrite app_nil_r in *. unfold held_after in *. simpl in *.
  autorewrite with obs in *.
  destruct (bsz =? need).
  - left. revert H.
    assert (He : emits []
      (nx <- load_next b;; store_slot sl nx;;;
       store_magic b ALLOCATED_BLOCK_MAGIC;;; ret (b + HEADER_SIZE))).
    { apply emits_bind_quiet; [apply emits_load_next|]. intros nx.
      apply emits_bind_quiet; [apply emits_store_slot|]. intros _.
      apply emits_bind_quiet; [apply emits_store_next|]. intros _.
      apply emits_ret. }
    intros H. apply He in H as [Ht Hl']. rewrite app_nil_r in Ht.
    unfold held_after in Hl'. simpl in Hl'.
    rewrite Ht, Hl', Ht2, Hl2, Ht1, Hl1. auto.
  - right. revert H.
    assert (He : emits [EvUnlock]
      (store_size b need;;;
       newfree <- _getNextBlockBySize b;;
       store_size newfree (wrap64 (bsz - need));;;
       nx <- load_next b;;
       store_next newfree nx;;;
       store_magic b ALLOCATED_BLOCK_MAGIC;;;
       store_slot sl newfree;;; pthread_mutex_unlock;;;
       ret (b + HEADER_SIZE))).
    { apply emits_bind_quiet; [apply emits_store_size|]. intros _.
      apply emits_bind_quiet; [apply emits_getNext|]. intros newfree.
      apply emits_bind_quiet; [apply emits_store_size|]. intros _.
      apply emits_bind_quiet; [apply emits_load_next|]. intros nx.
      apply emits_bind_quiet; [apply emits_store_next|]. intros _.
      apply emits_bind_quiet; [apply emits_store_next|]. intros _.
      apply emits_bind_quiet; [apply emits_store_slot|]. intros _.
      apply emits_unlock_ret. }
    intros H. apply He in H as [Ht Hl']. unfold held_after in Hl'.
    simpl in Hl'. rewrite Ht, Hl', Ht2, Ht1, <- app_assoc. auto.
Qed.

(** [dumpAllocator] is the one function that keeps the discipline: one
    lock, one unlock, the two walks in between. *)
Lemma dumpAllocator_emits fuel s r s' :
  dumpAllocator fuel s = Ret r s' ->
  lock s = false /\
  lock_trace s' = lock_trace s ++ [EvLock; EvUnlock] /\ lock s' = false.
Proof.
  intros H. unfold dumpAllocator in H.
  destruct (lock s) eqn:Hl;
    [rewrite run_lock_held in H by assumption; discriminate|].
  split; [reflexivity|].
  rewrite run_lock in H by assumption. revert H.
  assert (He : emits [EvUnlock]
    (all <- dump_all_blocks fuel heap_base;;
     first <- get_firstFreeBlock;;
     free <- dump_free_blocks fuel first;;
     pthread_mutex_unlock;;; ret (all, free))).
  { apply emits_bind_quiet; [apply emits_dump_all_blocks|]. intros all.
    apply emits_bind_quiet; [apply emits_get_first|]. intros first.
    apply emits_bind_quiet; [apply emits_dump_free_blocks|]. intros free.
    apply emits_unlock_ret. }
  intros H. apply He in H as [Ht Hl']. unfold held_after in Hl'. simpl in Hl'.
  autorewrite with obs in Ht. rewrite <- app_assoc in Ht. auto.
Qed.

(** C1 (the code departs from the claim). A returned call of [my_malloc]
    has taken the mutex; either it found no block and returns [NULL] with
    the mutex still held, or it found its candidate [b] and the slot [sl]
    under the mutex, released the mutex, and only then entered
    [allocate_block], which takes the mutex a second time to unlink or
    split [b]: two critical sections, the second one left open on the
    exact-fit path. *)
Theorem my_malloc_lock_trace fuel n s p s' :
  my_malloc fuel n s = Ret p s' ->
  lock s = false /\
  ((p = NULL /\ s' = locked s) \/
   (exists b sl,
      b <> NULL /\
      find_block fuel (needed n) (_firstFreeBlock s) SlotFirstFree (locked s)
        = Ret (b, sl) (locked s) /\
      lock (unlocked (locked s)) = false /\
      allocate_block sl b (needed n) (unlocked (locked s)) = Ret p s' /\
      ((lock_trace s' = lock_trace s ++ [EvLock; EvUnlock; EvLock] /\
        lock s' = true) \/
       (lock_trace s' = lock_trace s ++ [EvLock; EvUnlock; EvLock; EvUnlock] /\
        lock s' = false)))).
Proof.
  intros Hrun.
  destruct (lock s) eqn:Hl;
    [rewrite my_malloc_held in Hrun by assumption; discriminate|].
  split; [reflexivity|].
  rewrite my_malloc_unfold in Hrun by assumption.
  apply bind_inv in Hrun as ([b sl] & s1 & Hfind & Hrun).
  pose proof (find_block_pure _ _ _ _ _ _ _ Hfind) as ->.
  cbn [fst snd] in Hrun.
  destruct (Z.eqb_spec b NULL) as [->|Hne].
  - left. inversion Hrun. auto.
  - right. rewrite run_unlock in Hrun. exists b, sl.
    split; [exact Hne|]. split; [exact Hfind|].
    split; [autorewrite with obs; reflexivity|]. split; [exact Hrun|].
    apply allocate_block_emits in Hrun as [_ [[Ht Hl']|[Ht Hl']]];
      autorewrite with obs in Ht; rewrite <- !app_assoc in Ht; simpl in Ht;
      [left | right]; auto.
Qed.

End LockDiscipline.

(** ** The deallocation path *)

Section Deallocation.

Context {L : Layout}.
Hypothesis Hlayout : layout_ok.

Lemma bind_deadlock {A B} (m : M A) (k : A -> M B) s :
  m s = Deadlock -> bind m k s = Deadlock.
Proof. intros H. unfold bind. rewrite H. reflexivity. Qed.

Lemma bind_fault {A B} (m : M A) (k : A -> M B) s :
  m s = Fault -> bind m k s = Fault.
Proof. intros H. unfold bind. rewrite H. reflexivity. Qed.

(** The block lies before the head: it is linked, then [merge_blocks]
    waits for the mutex that [my_free] holds. *)
Lemma my_free_before_head_deadlocks s p fuel :
  lock s = false -> p <> NULL ->
  wrap64 (p - HEADER_SIZE) < _firstFreeBlock s ->
  in_heap (wrap64 (p - HEADER_SIZE)) = true ->
  my_free fuel p s = Deadlock.
Proof.
  intros Hl Hp Hlt Hin. unfold my_free.
  set (block := wrap64 (p - HEADER_SIZE)) in *.
  rewrite run_lock by assumption.
  rewrite (proj2 (Z.eqb_neq _ _)) by assumption.
  rewrite run_get_first. autorewrite with obs.
  rewrite (proj2 (Z.ltb_lt _ _)) by assumption.
  apply bind_deadlock.
  rewrite run_get_first.
  rewrite run_store_next by assumption.
  rewrite run_set_first.
  rewrite run_load_next by assumption.
  apply merge_blocks_deadlock. autorewrite with obs. reflexivity.
Qed.

(** C2 (the code departs from the claim). Entered with the mutex free on a
    non-null pointer whose block is [block]: when the free list is empty,
    [block < freeblock] is false, the scan reads [freeblock->next] through
    the [NULL] head, and nothing is inserted; when [block] lies before the
    head, the call writes [block->next] and [_firstFreeBlock] and then
    blocks for ever in [merge_blocks], on the mutex it holds. *)
Theorem my_free_at_head s p fuel :
  lock s = false -> p <> NULL ->
  let block := wrap64 (p - HEADER_SIZE) in
  (_firstFreeBlock s = NULL -> my_free (S fuel) p s = Fault) /\
  (block < _firstFreeBlock s -> in_heap block = true ->
   my_free fuel p s = Deadlock).
Proof.
  intros Hl Hp block. split.
  - intros Hfirst. unfold my_free. fold block.
    rewrite run_lock by assumption.
    rewrite (proj2 (Z.eqb_neq _ _)) by assumption.
    rewrite run_get_first. autorewrite with obs. rewrite Hfirst.
    rewrite (proj2 (Z.ltb_ge _ _))
      by (pose proof (wrap64_range (p - HEADER_SIZE)); unfold NULL; fold block; lia).
    apply bind_fault. cbn [find_prev]. rewrite bind_assoc.
    apply run_load_fault, (in_heap_null Hlayout).
  - apply my_free_before_head_deadlocks; assumption.
Qed.

Lemma find_prev_chain s block l :
  forall h fuel,
  in_heap h = true -> chain s (next_at s h) l NULL ->
  (forall x, x ∈ l -> in_heap x = true) -> (length l < fuel)%nat ->
  exists fb, find_prev fuel block h s = Ret fb s /\ in_heap fb = true.
Proof.
  induction l as [|x l IH]; intros h fuel Hh Hc Hl Hfuel;
    (destruct fuel as [|fuel]; [simpl in Hfuel; lia|]); simpl in Hc;
    cbn [find_prev]; rewrite run_load_next by assumption.
  - rewrite Hc. rewrite Z.eqb_refl, andb_false_r. exists h. auto.
  - destruct Hc as [Hx Hc]. rewrite Hx.
    destruct ((x <? block) && negb (x =? NULL)).
    + apply IH; auto.
      * apply Hl, list_elem_of_here.
      * intros y Hy. apply Hl, list_elem_of_further, Hy.
      * simpl in Hfuel. lia.
    + exists h. auto.
Qed.

(** With a block on the free list and the mutex free at entry, [my_free]
    on the payload of a block of the arena links the block and then blocks
    in [merge_blocks]. *)
Lemma my_free_deadlocks s tl h fl p fuel :
  heap_inv s tl (h :: fl) NULL -> lock s = false -> p <> NULL ->
  in_heap (wrap64 (p - HEADER_SIZE)) = true ->
  (length fl < fuel)%nat ->
  my_free fuel p s = Deadlock.
Proof.
  intros Hinv Hl Hp Hin Hfuel.
  set (block := wrap64 (p - HEADER_SIZE)) in *.
  pose proof (inv_chain _ _ _ _ Hinv) as [Hfirst Hc].
  destruct (Z.ltb_spec block (_firstFreeBlock s)) as [Hlt|Hge].
  - apply my_free_before_head_deadlocks; assumption.
  - unfold my_free. rewrite run_lock by assumption.
    rewrite (proj2 (Z.eqb_neq _ _)) by assumption.
    rewrite run_get_first. autorewrite with obs. fold block.
    rewrite (proj2 (Z.ltb_ge _ _)) by assumption.
    apply bind_deadlock.
    assert (Hh : in_heap h = true).
    { eapply heap_inv_in_heap; [exact Hinv | apply list_elem_of_here]. }
    destruct (find_prev_chain (locked s) block fl h fuel Hh) as (fb & Hrun & Hfb).
    { autorewrite with obs. eapply chain_frame; [|exact Hc].
      intros; autorewrite with obs; reflexivity. }
    { intros x Hx. eapply heap_inv_in_heap; [exact Hinv|].
      apply list_elem_of_further, Hx. }
    { exact Hfuel. }
    rewrite Hfirst. unfold bind at 1. rewrite Hrun.
    rewrite run_load_next by assumption.
    destruct (next_at (locked s) fb =? NULL).
    + rewrite bind_assoc. rewrite run_store_next by assumption.
      rewrite run_store_next by assumption.
      rewrite run_load_next by assumption.
      apply bind_deadlock, merge_blocks_deadlock.
      autorewrite with obs. reflexivity.
    + rewrite bind_assoc. rewrite run_load_next by assumption.
      rewrite bind_assoc. rewrite run_store_next by assumption.
      rewrite run_store_next by assumption.
      rewrite run_load_next by assumption.
      apply bind_deadlock, merge_blocks_deadlock.
      autorewrite with obs. reflexivity.
Qed.

(** C5 (the code departs from the claim). In a state that satisfies the
    allocator invariant, with the mutex free, a call of [my_malloc] that
    finds a block returns a pointer on which the immediately following
    [my_free] never returns: it stops in [pthread_mutex_lock], at its entry
    after the exact-fit path, in [merge_blocks] after a split.  The free
    list is not restored. *)
Theorem my_free_after_malloc_deadlocks s tl l1 b l2 n r fuel fuel' :
  alloc_inv s tl (l1 ++ b :: l2) -> lock s = false ->
  0 <= n -> least_multiple_of_16_from n r ->
  (forall x, x ∈ l1 -> size_at s x < r + HEADER_SIZE) ->
  r + HEADER_SIZE <= size_at s b ->
  (length l1 < fuel)%nat -> (length (l1 ++ b :: l2) <= fuel')%nat ->
  exists s1,
    my_malloc fuel n s = Ret (b + HEADER_SIZE) s1 /\
    my_free fuel' (b + HEADER_SIZE) s1 = Deadlock.
Proof.
  intros Halloc Hl Hn Hr Hsmall Hfit Hfuel Hfuel'.
  pose proof Halloc as [Hinv _].
  assert (Hbfl : b ∈ l1 ++ b :: l2).
  { apply elem_of_app. right. apply list_elem_of_here. }
  pose proof (inv_sub _ _ _ _ Hinv _ Hbfl) as Hbst.
  destruct (tiles_to_starts _ _ _ _ _ (inv_tiles _ _ _ _ Hinv) Hbst)
    as (Hinb & _ & Hhi & _).
  assert (Hend64 : heap_end < 2 ^ 64) by apply Hlayout.
  pose proof (in_heap_range Hlayout _ Hinb) as Hbr.
  destruct (needed_spec n r Hn Hr ltac:(lia)) as (Hneed & Hge & Hmod).
  rewrite <- Hneed in *.
  pose proof (my_malloc_fit Hlayout fuel n s tl l1 b l2 NULL Hinv Hl Hge Hmod
                Hsmall Hfit Hfuel) as Hrun. simpl in Hrun.
  eexists. split; [exact Hrun|].
  pose proof (heap_inv_relocked _ _ _ _ Hinv) as Hinv0.
  set (s0 := unlocked (locked s)) in *.
  assert (Hsz0 : size_at s0 b = size_at s b)
    by (unfold s0; autorewrite with obs; reflexivity).
  destruct (decide (size_at s b = needed n)) as [E|E].
  - unfold my_free. apply run_lock_held.
    unfold exact_fit_state. autorewrite with obs.
    destruct (slot_after SlotFirstFree l1); simpl; autorewrite with obs;
      reflexivity.
  - assert (Hlt : needed n < size_at s0 b) by (rewrite Hsz0; lia).
    destruct (split_preserves Hlayout _ _ _ _ _ _ _ Hinv0 Hge Hmod Hlt)
      as (t1 & t2 & _ & _ & Hinv' & _).
    assert (Hblock : wrap64 (b + HEADER_SIZE - HEADER_SIZE) = b).
    { replace (b + HEADER_SIZE - HEADER_SIZE) with b by lia.
      apply wrap64_small. lia. }
    assert (Hp : b + HEADER_SIZE <> NULL) by (unfold HEADER_SIZE, NULL; lia).
    assert (Hl' : lock (split_state (slot_after SlotFirstFree l1) b
                          (needed n) (b + needed n) s0) = false).
    { unfold split_state. autorewrite with obs. reflexivity. }
    rewrite length_app in Hfuel'. simpl in Hfuel'.
    rewrite <- Hblock in Hinb.
    destruct l1 as [|h l1]; simpl in Hinv'.
    + apply (my_free_deadlocks _ _ _ _ _ _ Hinv' Hl' Hp Hinb).
      simpl in Hfuel'. lia.
    + apply (my_free_deadlocks _ _ _ _ _ _ Hinv' Hl' Hp Hinb).
      rewrite length_app. simpl in *. lia.
Qed.

(** C8 (the code departs from the claim). A call of [my_free] that returns
    was given [NULL]: it has freed nothing, merged nothing, left the arena
    and the free list as they were, and it has kept the mutex. *)
Theorem my_free_returns_only_on_null fuel p s s' :
  my_free fuel p s = Ret tt s' ->
  p = NULL /\ _heapData s' = _heapData s /\
  _firstFreeBlock s' = _firstFreeBlock s /\ lock s' = true.
Proof.
  intros Hfree. apply my_free_returns in Hfree as (-> & _ & ->).
  repeat split.
Qed.

End Deallocation.

(** ** The program run on the small arena *)

Ltac small_facts :=
  vm_compute; repeat split; (reflexivity || discriminate).

Lemma small_layout_ok : layout_ok (L := small).
Proof. small_facts. Defined.

Lemma small_init_run :
  initAllocator (L := small) boot = Ret tt small_init.
Proof. vm_compute. reflexivity. Defined.

Lemma small_one_run :
  my_malloc (L := small) 8 0 small_init = Ret 4112 small_one.
Proof. vm_compute. reflexivity. Defined.

Lemma small_init_inv : heap_inv (L := small) small_init [64] [4096] NULL.
Proof.
  split.
  - small_facts.
  - small_facts.
  - apply NoDup_singleton.
  - intros b Hb. exact Hb.
Defined.

Lemma small_one_inv : heap_inv (L := small) small_one [16; 48] [4112] NULL.
Proof.
  split.
  - small_facts.
  - small_facts.
  - apply NoDup_singleton.
  - intros b Hb. apply list_elem_of_further. exact Hb.
Defined.

Lemma small_one_alloc_inv : alloc_inv (L := small) small_one [16; 48] [4112].
Proof.
  split; [exact small_one_inv|].
  intros a Ha Hna.
  apply elem_of_cons in Ha as [->|Ha]; [vm_compute; reflexivity|].
  contradiction.
Defined.

(** The calls on the mutex during [initAllocator(); my_malloc(0)]: the
    mutex is released and taken again between the search and the split. *)
Example malloc_small_trace :
  lock_trace small_one = [EvLock; EvUnlock; EvLock; EvUnlock].
Proof. vm_compute. reflexivity. Qed.

(** [initAllocator(); my_malloc(64)] fails and [initAllocator();
    my_malloc(48)] takes the exact-fit path: both return with the mutex
    held, and the next call never proceeds. *)
Example malloc_leaves_mutex_held :
  lock small_failed = true /\ lock small_full = true /\
  my_malloc (L := small) 8 0 small_failed = Deadlock /\
  dumpAllocator (L := small) 8 small_full = Deadlock.
Proof. vm_compute. repeat split. Qed.

(** [initAllocator(); p = my_malloc(0); my_free(p)]. *)
Example free_after_malloc_deadlocks :
  my_free (L := small) 8 4112 small_one = Deadlock.
Proof. vm_compute. reflexivity. Qed.

(** [initAllocator(); p = my_malloc(48); my_free(p)]: the free list is
    empty. *)
Example free_on_full_arena_deadlocks :
  _firstFreeBlock small_full = NULL /\
  my_free (L := small) 8 4112 small_full = Deadlock.
Proof. vm_compute. split; reflexivity. Qed.

(** A request whose size wraps to 0 returns the first free block whole and
    leaves it on the free list: the next request gets the same pointer. *)
Example wrapped_request_shares_block :
  exists s1 s2,
    my_malloc (L := small) 8 (2 ^ 64 - 17) small_init = Ret 4112 s1 /\
    _firstFreeBlock s1 = 4096 /\
    my_malloc (L := small) 8 0 s1 = Ret 4112 s2.
Proof.
  eexists _, _. split; [vm_compute; reflexivity|].
  split; vm_compute; reflexivity.
Qed.

(** *** Counterexamples *)

(** C4 as stated fails at [n = 2^64 - 1]: the addition wraps and [roundUp]
    returns 0, which is less than [n]. *)
Lemma roundUp_wraps_at_max :
  roundUp (2 ^ 64 - 1) = 0 /\
  ~ least_multiple_of_16_from (2 ^ 64 - 1) (roundUp (2 ^ 64 - 1)).
Proof.
  split; [reflexivity|]. intros (_ & Hle & _).
  change (roundUp (2 ^ 64 - 1)) with 0 in Hle. lia.
Qed.

(** The fresh small arena at [n = 2^64 - 1]: the
    request exceeds [HEAP_SIZE - HEADER_SIZE] and no free block has [n]
    rounded up plus a header, yet the call returns a non-null pointer and
    changes the arena. *)
Lemma huge_request_is_served :
  @HEAP_SIZE small - HEADER_SIZE < 2 ^ 64 - 1 /\
  size_at small_init 4096 < 2 ^ 64 - 1 + HEADER_SIZE /\
  exists s',
    my_malloc (L := small) 8 (2 ^ 64 - 1) small_init = Ret 4112 s' /\
    4112 <> NULL /\
    next_at s' 4096 <> next_at small_init 4096 /\
    _firstFreeBlock s' <> _firstFreeBlock small_init.
Proof.
  split; [vm_compute; reflexivity|]. split; [vm_compute; reflexivity|].
  eexists. split; [vm_compute; reflexivity|].
  repeat split; vm_compute; discriminate.
Qed.

(** *** The theorems at work on the small arena *)

Lemma my_malloc_lock_trace_witness :
  my_malloc (L := small) 8 0 small_init = Ret 4112 small_one /\
  lock small_init = false /\
  lock_trace small_one =
  lock_trace small_init ++ [EvLock; EvUnlock; EvLock; EvUnlock].
Proof.
  destruct (my_malloc_lock_trace (L := small) 8 0 small_init 4112 small_one
              small_one_run) as [Hl H].
  split; [exact small_one_run|]. split; [exact Hl|].
  destruct H as [[Hnull _]|(b & sl & _ & _ & _ & _ & [[_ Hheld]|[Ht _]])].
  - discriminate Hnull.
  - vm_compute in Hheld. discriminate Hheld.
  - exact Ht.
Defined.

Lemma my_free_at_head_witness :
  my_free (L := small) 1 4112 boot = Fault /\
  my_free (L := small) 8 4112 small_one = Deadlock.
Proof.
  split.
  - apply (my_free_at_head (L := small) small_layout_ok boot 4112 0).
    + reflexivity.
    + discriminate.
    + reflexivity.
  - apply (my_free_at_head (L := small) small_layout_ok small_one 4112 8).
    + vm_compute. reflexivity.
    + discriminate.
    + vm_compute. reflexivity.
    + vm_compute. reflexivity.
Defined.

Lemma my_malloc_exhausted_witness :
  exists s',
    my_malloc (L := small) 8 64 small_init = Ret NULL s' /\
    _heapData s' = _heapData small_init /\
    _firstFreeBlock s' = _firstFreeBlock small_init.
Proof.
  apply (my_malloc_exhausted (L := small) small_layout_ok small_init
           [64] [4096] 8 64 small_init_inv).
  - vm_compute. reflexivity.
  - intros x Hx. apply list_elem_of_singleton in Hx. subst x.
    vm_compute. reflexivity.
  - simpl. lia.
Defined.

Lemma roundUp_least_multiple_witness :
  0 <= 17 <= 2 ^ 64 - 16 /\ least_multiple_of_16_from 17 (roundUp 17).
Proof.
  assert (H : 0 <= 17 <= 2 ^ 64 - 16) by lia.
  split; [exact H | apply (roundUp_least_multiple 17 H)].
Defined.

Lemma least_multiple_16_16 : least_multiple_of_16_from 16 16.
Proof. split; [reflexivity|]. split; [lia | intros m _ Hm; exact Hm]. Defined.

Lemma my_free_after_malloc_deadlocks_witness :
  exists s1,
    my_malloc (L := small) 8 16 small_one = Ret (4112 + HEADER_SIZE) s1 /\
    my_free (L := small) 8 (4112 + HEADER_SIZE) s1 = Deadlock.
Proof.
  apply (my_free_after_malloc_deadlocks (L := small) small_layout_ok small_one
           [16; 48] [] 4112 [] 16 16 8 8 small_one_alloc_inv).
  - vm_compute. reflexivity.
  - lia.
  - exact least_multiple_16_16.
  - intros x Hx. inversion Hx.
  - vm_compute. discriminate.
  - simpl. lia.
  - simpl. lia.
Defined.

Lemma my_malloc_first_fit_witness :
  exists s' tl' fl',
    my_malloc (L := small) 8 16 small_one = Ret (4112 + HEADER_SIZE) s' /\
    alloc_inv (L := small) s' tl' fl' /\
    4112 ∈ starts 4096 tl' /\ (4112 ∉ fl') /\ in_use (L := small) s' 4112 /\
    size_at s' 4112 = 16 + HEADER_SIZE /\
    4112 + HEADER_SIZE + 16 <= heap_end (L := small) /\
    forall a, a ∈ starts 4096 [16; 48] -> a ∉ [] ++ [4112] ->
      a ∈ starts 4096 tl' /\ (a ∉ fl') /\ in_use (L := small) s' a /\
      size_at s' a = size_at small_one a /\
      (a + size_at small_one a <= 4112 \/ 4112 + (16 + HEADER_SIZE) <= a).
Proof.
  apply (my_malloc_first_fit (L := small) small_layout_ok small_one
           [16; 48] [] 4112 [] 16 16 8 small_one_alloc_inv).
  - vm_compute. reflexivity.
  - lia.
  - exact least_multiple_16_16.
  - intros x Hx. inversion Hx.
  - vm_compute. discriminate.
  - simpl. lia.
Defined.

Lemma my_malloc_split_in_place_witness :
  exists s' tl',
    find_block (L := small) 8 (needed 16) (_firstFreeBlock small_one)
      SlotFirstFree (locked small_one)
      = Ret (4112, SlotFirstFree) (locked small_one) /\
    my_malloc (L := small) 8 16 small_one = Ret (4112 + HEADER_SIZE) s' /\
    size_at s' 4112 = 16 + HEADER_SIZE /\ in_use (L := small) s' 4112 /\
    in_heap (L := small) (4112 + (16 + HEADER_SIZE)) = true /\
    size_at s' (4112 + (16 + HEADER_SIZE)) =
      size_at small_one 4112 - (16 + HEADER_SIZE) /\
    HEADER_SIZE <= size_at s' (4112 + (16 + HEADER_SIZE)) /\
    next_at s' (4112 + (16 + HEADER_SIZE)) = next_at small_one 4112 /\
    slot_val s' SlotFirstFree = 4112 + (16 + HEADER_SIZE) /\
    heap_inv (L := small) s' tl' ([] ++ (4112 + (16 + HEADER_SIZE)) :: [])
             NULL.
Proof.
  apply (my_malloc_split_in_place (L := small) small_layout_ok small_one
           [16; 48] [] 4112 [] NULL 16 16 8 small_one_inv).
  - vm_compute. reflexivity.
  - lia.
  - exact least_multiple_16_16.
  - intros x Hx. inversion Hx.
  - vm_compute. reflexivity.
  - simpl. lia.
Defined.

Lemma my_free_returns_only_on_null_witness :
  my_free (L := small) 8 NULL small_one = Ret tt (locked small_one) /\
  NULL = NULL /\ _heapData (locked small_one) = _heapData small_one /\
  _firstFreeBlock (locked small_one) = _firstFreeBlock small_one /\
  lock (locked small_one) = true.
Proof.
  assert (H : my_free (L := small) 8 NULL small_one
              = Ret tt (locked small_one)) by (vm_compute; reflexivity).
  split; [exact H|].
  apply (my_free_returns_only_on_null (L := small) 8 NULL small_one _ H).
Defined.

Lemma partition_invariant_witness :
  exists lines,
    (forall fuel, (length lines < fuel)%nat ->
       dump_all_blocks (L := small) fuel 4096 small_one
       = Ret lines small_one) /\
    contiguous 0 lines 64 /\ total_size lines = 64.
Proof.
  apply (partition_invariant (L := small) small_layout_ok small_one).
  apply (reach_malloc small_init 8 0 4112 small_one).
  - apply (reach_init boot small_init small_init_run).
  - lia.
  - exact small_one_run.
Defined.

Lemma my_malloc_zero_witness :
  exists s' tl',
    my_malloc (L := small) 8 0 small_init = Ret (4096 + HEADER_SIZE) s' /\
    4096 + HEADER_SIZE <> NULL /\
    size_at s' 4096 = HEADER_SIZE /\ in_use (L := small) s' 4096 /\
    tiles_to (L := small) s' 4096 tl' 4160 /\ 4096 ∈ starts 4096 tl'.
Proof.
  apply (my_malloc_zero (L := small) small_layout_ok small_init
           [64] 4096 [] NULL 8 small_init_inv).
  - vm_compute. reflexivity.
  - lia.
Defined.

(** ** Further properties of the functions *)

(** *** [roundUp] *)

(** The result of [roundUp] is a fixed point of [roundUp], for every
    argument, wrapped or not. *)
Theorem roundUp_idempotent (n : Z) : roundUp (roundUp n) = roundUp n.
Proof.
  destruct (roundUp_range n) as [Hr Hm].
  rewrite (roundUp_no_wrap (roundUp n)) by lia.
  apply Z.mod_divide in Hm; [|lia]. destruct Hm as [k Hk]. rewrite Hk.
  replace (k * 16 + 15) with (15 + k * 16) by lia.
  rewrite Z.div_add by lia. change (15 / 16) with 0. lia.
Qed.

(** Below the wrap-around, [roundUp] is monotone and adds at most 15. *)
Theorem roundUp_monotone (n m : Z) :
  0 <= n <= m -> m <= 2 ^ 64 - 16 ->
  roundUp n <= roundUp m /\ roundUp n - n <= 15.
Proof.
  intros Hnm Hm. rewrite !roundUp_no_wrap by lia. split.
  - apply Z.mul_le_mono_nonneg_l; [lia|]. apply Z.div_le_mono; lia.
  - pose proof (Z.div_mod (n + 15) 16 ltac:(lia)).
    pose proof (Z.mod_pos_bound (n + 15) 16 ltac:(lia)). lia.
Qed.

Lemma roundUp_monotone_witness :
  roundUp 17 <= roundUp 33 /\ roundUp 17 - 17 <= 15.
Proof. apply (roundUp_monotone 17 33); lia. Defined.

(** *** [dumpAllocator] *)

Section Dump.

Context {L : Layout}.
Hypothesis Hlayout : layout_ok.

Lemma reads_only_ret {A} (a : A) : reads_only (ret a).
Proof. intros s a' s' H. inversion H. reflexivity. Qed.

Lemma reads_only_bind {A B} (m : M A) (k : A -> M B) :
  reads_only m -> (forall a, reads_only (k a)) -> reads_only (bind m k).
Proof.
  intros Hm Hk s b s' Hrun. apply bind_inv in Hrun as (a & s1 & H1 & H2).
  apply Hm in H1. subst s1. eapply Hk, H2.
Qed.

Lemma reads_only_assert b : reads_only (assert b).
Proof.
  intros s a s'. unfold assert. destruct b; [|discriminate].
  intros H. inversion H. reflexivity.
Qed.

Lemma reads_only_load_size a : reads_only (load_size a).
Proof.
  intros s v s'. unfold load_size. destruct (in_heap a); [|discriminate].
  intros H. inversion H. reflexivity.
Qed.

Lemma reads_only_load_next a : reads_only (load_next a).
Proof.
  intros s v s'. unfold load_next. destruct (in_heap a); [|discriminate].
  intros H. inversion H. reflexivity.
Qed.

Lemma reads_only_get_first : reads_only get_firstFreeBlock.
Proof. intros s v s' H. inversion H. reflexivity. Qed.

Lemma reads_only_getNext current : reads_only (_getNextBlockBySize current).
Proof.
  unfold _getNextBlockBySize.
  apply reads_only_bind; [apply reads_only_load_size|]. intros sz.
  apply reads_only_bind; [apply reads_only_assert|]. intros _.
  apply reads_only_ret.
Qed.

Lemma reads_only_dump_all_blocks fuel :
  forall current, reads_only (dump_all_blocks fuel current).
Proof.
  induction fuel as [|fuel IH]; intros current; simpl.
  - intros s a s' H. discriminate.
  - destruct (current =? NULL); [apply reads_only_ret|].
    apply reads_only_bind; [apply reads_only_load_size|]. intros sz.
    apply reads_only_bind; [apply reads_only_load_next|]. intros mg.
    apply reads_only_bind; [apply reads_only_getNext|]. intros nx.
    apply reads_only_bind; [apply IH|]. intros rest.
    apply reads_only_ret.
Qed.

Lemma reads_only_dump_free_blocks fuel :
  forall current, reads_only (dump_free_blocks fuel current).
Proof.
  induction fuel as [|fuel IH]; intros current; simpl.
  - intros s a s' H. discriminate.
  - destruct (current =? NULL); [apply reads_only_ret|].
    apply reads_only_bind; [apply reads_only_load_size|]. intros sz.
    apply reads_only_bind; [apply reads_only_load_next|]. intros nx.
    apply reads_only_bind; [apply IH|]. intros rest.
    apply reads_only_ret.
Qed.

(** A returned [dumpAllocator] was entered with the mutex free, has taken
    and released it once, and has written nothing: the arena and the free
    list are as before, in whatever state it was called. *)
Theorem dumpAllocator_read_only fuel s r s' :
  dumpAllocator fuel s = Ret r s' ->
  lock s = false /\ lock s' = false /\
  lock_trace s' = lock_trace s ++ [EvLock; EvUnlock] /\
  _heapData s' = _heapData s /\ _firstFreeBlock s' = _firstFreeBlock s.
Proof.
  intros H. unfold dumpAllocator in H.
  destruct (lock s) eqn:Hl;
    [rewrite run_lock_held in H by assumption; discriminate|].
  rewrite run_lock in H by assumption.
  apply bind_inv in H as (all & s1 & H1 & H).
  apply reads_only_dump_all_blocks in H1. subst s1.
  rewrite run_get_first in H.
  apply bind_inv in H as (free & s2 & H2 & H).
  apply reads_only_dump_free_blocks in H2. subst s2.
  rewrite run_unlock in H. inversion H; subst.
  autorewrite with obs. rewrite <- app_assoc.
  repeat split.
Qed.

Lemma block_lines_locked s l :
  forall a, block_lines (locked s) a l = block_lines s a l.
Proof.
  induction l as [|sz l IH]; intros a; simpl; [reflexivity|].
  rewrite IH. autorewrite with obs. reflexivity.
Qed.

Lemma free_lines_locked s l : free_lines (locked s) l = free_lines s l.
Proof.
  unfold free_lines. induction l as [|b l IH]; simpl; [reflexivity|].
  rewrite IH. autorewrite with obs. reflexivity.
Qed.

Lemma dump_free_blocks_chain s l :
  forall p fuel,
  chain s p l NULL -> (forall x, x ∈ l -> in_heap x = true) ->
  (length l < fuel)%nat ->
  dump_free_blocks fuel p s = Ret (free_lines s l) s.
Proof.
  induction l as [|b l IH]; intros p fuel Hc Hl Hfuel;
    (destruct fuel as [|fuel]; [simpl in Hfuel; lia|]); simpl in Hc.
  - subst p. reflexivity.
  - destruct Hc as [-> Hc].
    pose proof (Hl b (list_elem_of_here _ _)) as Hb.
    cbn [dump_free_blocks].
    rewrite (proj2 (Z.eqb_neq _ _)) by (apply (in_heap_not_null Hlayout), Hb).
    rewrite run_load_size by assumption.
    rewrite run_load_next by assumption.
    unfold bind at 1. rewrite (IH (next_at s b) fuel Hc).
    + reflexivity.
    + intros x Hx. apply Hl, list_elem_of_further, Hx.
    + simpl in Hfuel. lia.
Qed.

(** The two walks of [dumpAllocator] over a well-formed heap. *)
Lemma dumpAllocator_run fuel s tl fl :
  heap_inv s tl fl NULL -> lock s = false ->
  (length tl < fuel)%nat -> (length fl < fuel)%nat ->
  dumpAllocator fuel s =
  Ret (block_lines s heap_base tl, free_lines s fl) (unlocked (locked s)).
Proof.
  intros Hinv Hl Htl Hfl. unfold dumpAllocator.
  rewrite run_lock by assumption.
  pose proof (heap_inv_locked _ _ _ _ Hinv) as [Ht Hc _ _].
  pose proof (dump_all_blocks_tiled Hlayout _ _ _ fuel Ht Htl) as Hall.
  rewrite decide_False in Hall by (eapply tiles_nonempty; eauto).
  unfold bind at 1. rewrite Hall. rewrite run_get_first.
  unfold bind at 1.
  rewrite (dump_free_blocks_chain (locked s) fl _ fuel Hc); auto.
  - rewrite run_unlock, block_lines_locked, free_lines_locked. reflexivity.
  - intros x Hx. eapply heap_inv_in_heap; eauto.
Qed.

Lemma elem_of_block_lines s l ln :
  forall a e, tiles_to s a l e ->
  (ln ∈ block_lines s a l <->
   exists x, x ∈ starts a l /\
     ln = (x - heap_base, size_at s x,
           next_at s x =? ALLOCATED_BLOCK_MAGIC)).
Proof.
  induction l as [|sz l IH]; intros a e Ht; simpl in *.
  - split; [intros H; inversion H | intros (x & H & _); inversion H].
  - destruct Ht as (_ & Hsz & _ & _ & Ht). rewrite elem_of_cons, (IH _ _ Ht).
    split.
    + intros [->|(x & Hx & ->)].
      * exists a. rewrite Hsz. split; [apply list_elem_of_here | reflexivity].
      * exists x. split; [apply list_elem_of_further, Hx | reflexivity].
    + intros (x & Hx & ->). apply elem_of_cons in Hx as [->|Hx].
      * left. rewrite Hsz. reflexivity.
      * right. exists x. auto.
Qed.

Lemma elem_of_free_lines s l ln :
  ln ∈ free_lines s l <->
  exists x, x ∈ l /\ ln = (x - heap_base, size_at s x).
Proof.
  unfold free_lines. induction l as [|b l IH]; simpl.
  - split; [intros H; inversion H | intros (x & H & _); inversion H].
  - rewrite elem_of_cons, IH. split.
    + intros [->|(x & Hx & ->)].
      * exists b. split; [apply list_elem_of_here | reflexivity].
      * exists x. split; [apply list_elem_of_further, Hx | reflexivity].
    + intros (x & Hx & ->). apply elem_of_cons in Hx as [->|Hx].
      * left. reflexivity.
      * right. exists x. auto.
Qed.

(** A block on a [NULL]-terminated free list does not carry the magic. *)
Lemma listed_not_in_use s tl fl x :
  heap_inv s tl fl NULL -> x ∈ fl -> ~ in_use s x.
Proof.
  intros Hinv Hx Huse. unfold in_use in Huse.
  destruct (list_elem_of_split _ _ Hx) as (l1 & l2 & ->).
  pose proof (inv_chain _ _ _ _ Hinv) as Hc.
  apply chain_app in Hc as (m & _ & Hc). simpl in Hc. destruct Hc as [_ Hc].
  destruct Hlayout as (_ & _ & _ & _ & Hmagic & Hnz).
  destruct l2 as [|y l2]; simpl in Hc.
  - congruence.
  - destruct Hc as [Hy _].
    assert (Hin : in_heap y = true).
    { eapply heap_inv_in_heap; [exact Hinv|]. apply elem_of_app. right.
      apply list_elem_of_further, list_elem_of_here. }
    congruence.
Qed.

(** In a state that satisfies the allocator invariant, entered with the
    mutex free, [dumpAllocator] returns; the blocks of part a lie one after
    the other over the whole arena, and the lines of part a that read
    "free" are exactly the lines of part b: the two views of the heap
    agree. *)
Theorem dumpAllocator_views_agree fuel s tl fl :
  alloc_inv s tl fl -> lock s = false ->
  (length tl < fuel)%nat -> (length fl < fuel)%nat ->
  exists all free s',
    dumpAllocator fuel s = Ret (all, free) s' /\
    contiguous 0 all HEAP_SIZE /\
    forall o sz, (o, sz, false) ∈ all <-> (o, sz) ∈ free.
Proof.
  intros [Hinv Huse] Hl Htl Hfl.
  exists (block_lines s heap_base tl), (free_lines s fl), (unlocked (locked s)).
  split; [apply dumpAllocator_run; assumption|].
  pose proof (inv_tiles _ _ _ _ Hinv) as Ht.
  destruct (block_lines_tiled s tl heap_base Ht) as (Hcont & _).
  rewrite Z.sub_diag in Hcont. split; [exact Hcont|].
  intros o sz. rewrite (elem_of_block_lines _ _ _ _ _ Ht), elem_of_free_lines.
  split.
  - intros (x & Hx & Heq). injection Heq as -> -> Hflag. symmetry in Hflag.
    apply Z.eqb_neq in Hflag. exists x. split; [|reflexivity].
    destruct (decide (x ∈ fl)) as [Hin|Hout]; [exact Hin|].
    exfalso. apply Hflag. apply Huse; assumption.
  - intros (x & Hx & Heq). injection Heq as -> ->. exists x.
    split; [apply (inv_sub _ _ _ _ Hinv), Hx|].
    pose proof (listed_not_in_use _ _ _ _ Hinv Hx) as Hn.
    unfold in_use in Hn. rewrite (proj2 (Z.eqb_neq _ _) Hn). reflexivity.
Qed.

(** [initAllocator] returns from any state, also a used one, and leaves one
    free block that spans the arena, with the mutex free: the dump that
    follows prints that block alone in both of its parts. *)
Theorem initAllocator_resets s0 fuel :
  (1 < fuel)%nat ->
  exists s,
    initAllocator s0 = Ret tt s /\
    alloc_inv s [HEAP_SIZE] [heap_base] /\ lock s = false /\
    dumpAllocator fuel s =
    Ret ([(0, HEAP_SIZE, false)], [(0, HEAP_SIZE)]) (unlocked (locked s)).
Proof.
  intros Hfuel. eexists. split; [apply (initAllocator_run Hlayout)|].
  destruct (initAllocator_inv Hlayout s0 _ (initAllocator_run Hlayout s0))
    as [Halloc Hl].
  split; [exact Halloc|]. split; [exact Hl|].
  pose proof Halloc as [Hinv _].
  rewrite (dumpAllocator_run fuel _ [HEAP_SIZE] [heap_base] Hinv Hl)
    by (simpl; lia).
  pose proof (inv_tiles _ _ _ _ Hinv) as (_ & Hsz & _).
  pose proof (listed_not_in_use _ _ _ heap_base Hinv (list_elem_of_here _ _))
    as Hn.
  unfold in_use in Hn. unfold free_lines. simpl.
  rewrite Hsz, Z.sub_diag, (proj2 (Z.eqb_neq _ _) Hn). reflexivity.
Qed.

End Dump.

(** *** [_getNextBlockBySize] *)

Section NextBlock.

Context {L : Layout}.
Hypothesis Hlayout : layout_ok.

(** On a block of a tiled arena, [_getNextBlockBySize] reads only, passes
    its assertion and returns the block that follows, [NULL] after the
    last one. *)
Theorem getNext_walks_tiling s t1 sz t2 :
  tiles_to s heap_base (t1 ++ sz :: t2) heap_end ->
  let current := heap_base + total t1 in
  _getNextBlockBySize current s =
  Ret (if decide (t2 = []) then NULL else current + sz) s.
Proof.
  intros Ht current.
  destruct (tiles_to_split _ _ _ _ _ _ Ht)
    as (_ & Hin & Hsz & Hge & Hmod & Ht2 & _). fold current in Hin, Hsz, Ht2.
  assert (Hnx : wrap64 (current + HEADER_SIZE +
                        wrap64 (size_at s current - HEADER_SIZE))
                = current + sz).
  { apply (getNext_tiled Hlayout s current sz t2 heap_end); [|lia].
    simpl. repeat split; auto. }
  unfold _getNextBlockBySize.
  rewrite run_load_size by assumption. rewrite Hnx.
  pose proof (tiles_to_le _ _ _ _ Ht2) as Hle.
  rewrite run_assert by (apply Z.leb_le; exact Hle).
  unfold ret. f_equal.
  destruct t2 as [|sz' t2].
  - simpl in Ht2. rewrite Ht2, Z.eqb_refl. reflexivity.
  - destruct Ht2 as (Hin' & _). apply in_heap_spec in Hin'.
    rewrite (proj2 (Z.eqb_neq _ _)) by lia. reflexivity.
Qed.

(** A header whose size runs past the end of the arena trips the
    assertion. *)
Theorem getNext_overrun_aborts s current :
  in_heap current = true ->
  HEADER_SIZE <= size_at s current ->
  heap_end < current + size_at s current < 2 ^ 64 ->
  _getNextBlockBySize current s = Aborted.
Proof.
  intros Hin Hge Hover. pose proof (in_heap_range Hlayout _ Hin) as Hr.
  unfold _getNextBlockBySize, HEADER_SIZE in *.
  rewrite run_load_size by assumption.
  rewrite (wrap64_small (size_at s current - 16)) by lia.
  replace (current + 16 + (size_at s current - 16))
    with (current + size_at s current) by lia.
  rewrite wrap64_small by lia.
  unfold bind, assert. rewrite (proj2 (Z.leb_gt _ _)) by lia. reflexivity.
Qed.

Lemma dump_all_blocks_zero_size s current :
  in_heap current = true -> size_at s current = 0 ->
  forall fuel, dump_all_blocks fuel current s = OutOfFuel.
Proof.
  intros Hin Hz fuel. pose proof (in_heap_range Hlayout _ Hin) as Hr.
  pose proof (proj1 (in_heap_spec _) Hin) as [Hb _].
  assert (Hnx : wrap64 (current + HEADER_SIZE +
                        wrap64 (size_at s current - HEADER_SIZE)) = current).
  { rewrite Hz. unfold wrap64, HEADER_SIZE.
    change ((0 - 16) mod 2 ^ 64) with (2 ^ 64 - 16).
    replace (current + 16 + (2 ^ 64 - 16)) with (current + 1 * 2 ^ 64) by lia.
    rewrite Z.mod_add by lia. apply Z.mod_small. lia. }
  induction fuel as [|fuel IH]; [reflexivity|].
  cbn [dump_all_blocks].
  rewrite (proj2 (Z.eqb_neq _ _)) by (apply (in_heap_not_null Hlayout), Hin).
  rewrite run_load_size by assumption.
  unfold load_magic. rewrite run_load_next by assumption.
  rewrite run_getNext; rewrite ?Hnx; [|assumption|lia].
  rewrite (proj2 (Z.eqb_neq _ _)) by lia.
  unfold bind at 1. rewrite IH. reflexivity.
Qed.

(** While the first header of the arena has size 0, as in the zeroed arena
    before [initAllocator], [_getNextBlockBySize] returns the block it was
    given and the first walk of [dumpAllocator] never ends: no amount of
    fuel lets the call return. *)
Theorem dumpAllocator_zero_size_loops s fuel :
  lock s = false -> size_at s heap_base = 0 ->
  _getNextBlockBySize heap_base s = Ret heap_base s /\
  dumpAllocator fuel s = OutOfFuel.
Proof.
  intros Hl Hz. pose proof (in_heap_base Hlayout) as Hin.
  pose proof (in_heap_range Hlayout _ Hin) as Hr.
  pose proof (proj1 (in_heap_spec _) Hin) as [Hb _].
  split.
  - unfold _getNextBlockBySize.
    rewrite run_load_size by assumption. rewrite Hz.
    assert (Hnx : wrap64 (heap_base + HEADER_SIZE + wrap64 (0 - HEADER_SIZE))
                  = heap_base).
    { unfold wrap64, HEADER_SIZE.
      change ((0 - 16) mod 2 ^ 64) with (2 ^ 64 - 16).
      replace (heap_base + 16 + (2 ^ 64 - 16))
        with (heap_base + 1 * 2 ^ 64) by lia.
      rewrite Z.mod_add by lia. apply Z.mod_small. lia. }
    rewrite Hnx. rewrite run_assert by (apply Z.leb_le; lia).
    unfold ret. rewrite (proj2 (Z.eqb_neq _ _)) by lia. reflexivity.
  - unfold dumpAllocator. rewrite run_lock by assumption.
    unfold bind. rewrite dump_all_blocks_zero_size; auto.
Qed.

End NextBlock.

(** *** [merge_blocks] *)

Section Merge.

Context {L : Layout}.
Hypothesis Hlayout : layout_ok.

Lemma total_app l1 l2 : total (l1 ++ l2) = total l1 + total l2.
Proof.
  induction l1 as [|x l1 IH]; [reflexivity|].
  change (x + total (l1 ++ l2) = x + total l1 + total l2). lia.
Qed.

(** Called with the mutex free on two blocks that follow one another both
    in the free list and in the arena, [merge_blocks] returns with the
    mutex released and has merged the second into the first: the first
    block has the sum of the two sizes and the [next] of the second, the
    arena stays tiled, the free list has lost the second block, and no
    other header has changed. *)
Theorem merge_blocks_neighbours s tl l1 b1 b2 l2 t :
  heap_inv s tl (l1 ++ b1 :: b2 :: l2) t -> lock s = false ->
  b1 + size_at s b1 = b2 ->
  exists s' tl',
    merge_blocks b1 b2 s = Ret tt s' /\
    heap_inv s' tl' (l1 ++ b1 :: l2) t /\
    total tl' = total tl /\
    size_at s' b1 = size_at s b1 + size_at s b2 /\
    next_at s' b1 = next_at s b2 /\
    lock s' = false /\
    forall a, a <> b1 ->
      size_at s' a = size_at s a /\ next_at s' a = next_at s a.
Proof.
  intros Hinv Hl Hadj. pose proof Hinv as [Ht Hc Hnd Hs].
  assert (Hb1fl : b1 ∈ l1 ++ b1 :: b2 :: l2).
  { apply elem_of_app. right. apply list_elem_of_here. }
  assert (Hb2fl : b2 ∈ l1 ++ b1 :: b2 :: l2).
  { apply elem_of_app. right. apply list_elem_of_further, list_elem_of_here. }
  pose proof (heap_inv_in_heap _ _ _ _ _ Hinv Hb2fl) as Hin2.
  destruct (elem_of_starts_split _ _ _ (Hs _ Hb1fl)) as (t1 & sz & rest & -> & Hb).
  destruct (tiles_to_split _ _ _ _ _ _ Ht)
    as (Ht1 & Hin1 & Hsz1 & Hge1 & Hmod1 & Hrest & Hlo & _).
  rewrite <- Hb in *. rewrite Hsz1 in Hadj.
  destruct rest as [|sz2 t2].
  { simpl in Hrest. apply in_heap_spec in Hin2. lia. }
  rewrite Hadj in Hrest.
  pose proof Hrest as (_ & Hsz2 & Hge2 & Hmod2 & Ht2).
  pose proof (tiles_to_le _ _ _ _ Ht2) as Hend.
  assert (Hend64 : heap_end < 2 ^ 64) by apply Hlayout.
  pose proof (in_heap_range Hlayout _ Hin1) as Hr1.
  apply chain_app in Hc as (m & Hc1 & Hc2). simpl in Hc2.
  destruct Hc2 as (-> & Hnx1 & Hc2).
  apply NoDup_app in Hnd as (Hnd1 & Hnd12 & Hnd2).
  apply NoDup_cons in Hnd2 as [Hb1r Hnd2].
  apply NoDup_cons in Hnd2 as [Hb2r Hnd2].
  assert (Hb1l1 : b1 ∉ l1).
  { intros H. apply (Hnd12 _ H), list_elem_of_here. }
  assert (Hb1l2 : b1 ∉ l2).
  { intros H. apply Hb1r, list_elem_of_further, H. }
  set (s' := unlocked (set_next b1 (next_at s b2)
                         (set_size b1 (sz + sz2) (locked s)))).
  assert (Hrun : merge_blocks b1 b2 s = Ret tt s').
  { unfold merge_blocks. rewrite run_lock by assumption.
    rewrite run_load_size by assumption. autorewrite with obs.
    rewrite Hsz1. rewrite wrap64_small by (unfold HEADER_SIZE in *; lia).
    rewrite Hadj, Z.eqb_refl. cbn [negb].
    rewrite run_load_next by assumption. autorewrite with obs.
    rewrite run_assert by (apply Z.eqb_eq; exact Hnx1).
    rewrite run_load_size by assumption. autorewrite with obs. rewrite Hsz2.
    rewrite wrap64_small by (unfold HEADER_SIZE in *; lia).
    rewrite run_store_size by assumption.
    rewrite run_load_next by assumption. autorewrite with obs.
    rewrite run_store_next by assumption. reflexivity. }
  assert (Hsz' : forall a, size_at s' a =
                 if decide (a = b1) then sz + sz2 else size_at s a).
  { intros a. unfold s'. autorewrite with obs. reflexivity. }
  assert (Hnx' : forall a, next_at s' a =
                 if decide (a = b1) then next_at s b2 else next_at s a).
  { intros a. unfold s'. autorewrite with obs. reflexivity. }
  exists s', (t1 ++ (sz + sz2) :: t2).
  split; [exact Hrun|]. split; [|repeat split].
  - split.
    + apply tiles_to_app. rewrite <- Hb. split.
      * eapply tiles_to_frame; [|exact Ht1]. intros x Hx. rewrite Hsz'.
        apply Hlo in Hx. rewrite decide_False by lia. reflexivity.
      * simpl. repeat split; auto.
        -- rewrite Hsz'. rewrite decide_True by reflexivity. reflexivity.
        -- unfold HEADER_SIZE in *. lia.
        -- unfold HEADER_SIZE in *. rewrite Z.add_mod, Hmod1, Hmod2 by lia.
           reflexivity.
        -- replace (b1 + (sz + sz2)) with (b2 + sz2) by lia.
           eapply tiles_to_frame; [|exact Ht2]. intros x Hx. rewrite Hsz'.
           destruct (tiles_to_starts _ _ _ _ _ Ht2 Hx) as (_ & ? & _).
           rewrite decide_False by (unfold HEADER_SIZE in *; lia).
           reflexivity.
    + unfold s' at 1. autorewrite with obs.
      apply chain_app. exists b1. split.
      * eapply chain_frame; [|exact Hc1]. intros x Hx. rewrite Hnx'.
        rewrite decide_False; [reflexivity|]. intros ->. contradiction.
      * simpl. split; [reflexivity|]. rewrite Hnx'.
        rewrite decide_True by reflexivity.
        eapply chain_frame; [|exact Hc2]. intros x Hx. rewrite Hnx'.
        rewrite decide_False; [reflexivity|]. intros ->. contradiction.
    + apply NoDup_app. repeat split; auto.
      * intros x Hx1 Hx2. apply (Hnd12 _ Hx1).
        apply elem_of_cons in Hx2 as [->|Hx2]; [apply list_elem_of_here|].
        apply list_elem_of_further, list_elem_of_further, Hx2.
      * apply NoDup_cons. split; assumption.
    + intros x Hx.
      assert (Hx' : x ∈ l1 ++ b1 :: b2 :: l2 /\ x <> b2).
      { apply elem_of_app in Hx as [Hx|Hx].
        - split; [apply elem_of_app; left; exact Hx|]. intros ->.
          apply (Hnd12 _ Hx), list_elem_of_further, list_elem_of_here.
        - apply elem_of_cons in Hx as [->|Hx].
          + split; [exact Hb1fl|]. intros E. apply Hb1r. rewrite E.
            apply list_elem_of_here.
          + split; [|intros ->; contradiction].
            apply elem_of_app. right.
            apply list_elem_of_further, list_elem_of_further, Hx. }
      destruct Hx' as [Hx' Hne]. apply Hs in Hx'.
      apply starts_split_block in Hx' as [Hx'|Hx']; [|exact Hx'].
      exfalso. apply Hne. lia.
  - rewrite !total_app. unfold total. cbn [foldr]. lia.
  - rewrite Hsz'. rewrite decide_True by reflexivity. lia.
  - rewrite Hnx'. rewrite decide_True by reflexivity. reflexivity.
  - rewrite Hsz'. rewrite decide_False by assumption. reflexivity.
  - rewrite Hnx'. rewrite decide_False by assumption. reflexivity.
Qed.

(** When nothing is merged.  On blocks that do not touch, [merge_blocks]
    writes nothing, as its comment says, but it returns with the mutex
    held, so that the next call never proceeds.  On blocks that touch
    while the first does not point to the second, the assertion fails. *)
Theorem merge_blocks_nothing_merged s block1 block2 :
  lock s = false -> in_heap block1 = true ->
  (wrap64 (block1 + size_at s block1) <> block2 ->
   merge_blocks block1 block2 s = Ret tt (locked s) /\
   forall c1 c2, merge_blocks c1 c2 (locked s) = Deadlock) /\
  (wrap64 (block1 + size_at s block1) = block2 ->
   next_at s block1 <> block2 ->
   merge_blocks block1 block2 s = Aborted).
Proof.
  intros Hl Hin. split.
  - intros Hne. split.
    + unfold merge_blocks. rewrite run_lock by assumption.
      rewrite run_load_size by assumption. autorewrite with obs.
      rewrite (proj2 (Z.eqb_neq _ _) Hne). reflexivity.
    + intros c1 c2. apply merge_blocks_deadlock. autorewrite with obs.
      reflexivity.
  - intros Heq Hnx. unfold merge_blocks. rewrite run_lock by assumption.
    rewrite run_load_size by assumption. autorewrite with obs.
    rewrite (proj2 (Z.eqb_eq _ _) Heq). cbn [negb].
    rewrite run_load_next by assumption. autorewrite with obs.
    unfold bind, assert. rewrite (proj2 (Z.eqb_neq _ _) Hnx). reflexivity.
Qed.

End Merge.

(** *** What a call of [my_malloc] does to the free list *)

Section Requests.

Context {L : Layout}.
Hypothesis Hlayout : layout_ok.

(** Either every block of a list is too small, or there is a first one
    that is large enough. *)
Lemma first_fit_split s need fl :
  (forall x, x ∈ fl -> size_at s x < need) \/
  exists l1 b l2, fl = l1 ++ b :: l2 /\
    (forall x, x ∈ l1 -> size_at s x < need) /\ need <= size_at s b.
Proof.
  induction fl as [|a fl IH].
  - left. intros x Hx. inversion Hx.
  - destruct (Z_lt_dec (size_at s a) need) as [Hlt|Hge].
    + destruct IH as [IH|(l1 & b & l2 & -> & Hs & Hf)].
      * left. intros x Hx. apply elem_of_cons in Hx as [->|Hx]; auto.
      * right. exists (a :: l1), b, l2.
        split; [reflexivity|]. split; [|exact Hf].
        intros x Hx. apply elem_of_cons in Hx as [->|Hx]; auto.
    + right. exists [], a, fl. split; [reflexivity|]. split; [|lia].
      intros x Hx. inversion Hx.
Qed.

Lemma getNext_wrapped b :
  0 < b < 2 ^ 64 -> wrap64 (b + HEADER_SIZE + wrap64 (0 - HEADER_SIZE)) = b.
Proof.
  intros Hb. unfold wrap64, HEADER_SIZE.
  change ((0 - 16) mod 2 ^ 64) with (2 ^ 64 - 16).
  replace (b + 16 + (2 ^ 64 - 16)) with (b + 1 * 2 ^ 64) by lia.
  rewrite Z.mod_add by lia. apply Z.mod_small. lia.
Qed.

(** [allocate_block] returns the data part of the block it was given. *)
Lemma allocate_block_result sl b need s p s' :
  allocate_block sl b need s = Ret p s' ->
  p = b + HEADER_SIZE /\ in_heap b = true.
Proof.
  intros H. unfold allocate_block in H.
  apply bind_inv in H as (u & s1 & _ & H).
  apply bind_inv in H as (bsz & s2 & H2 & H).
  split.
  - apply bind_inv in H as (u1 & s3 & _ & H).
    destruct (bsz =? need).
    + do 3 (apply bind_inv in H as (? & ? & _ & H)).
      inversion H; reflexivity.
    + do 8 (apply bind_inv in H as (? & ? & _ & H)).
      inversion H; reflexivity.
  - unfold load_size in H2. destruct (in_heap b); [reflexivity|discriminate].
Qed.

Lemma needed_bounds n :
  0 <= n <= 2 ^ 64 - 32 ->
  needed n = roundUp n + HEADER_SIZE /\ n <= roundUp n <= n + 15 /\
  needed n <> 0.
Proof.
  intros Hn. unfold needed, HEADER_SIZE.
  assert (Hr : roundUp n = 16 * ((n + 15) / 16))
    by (apply roundUp_no_wrap; lia).
  pose proof (Z.div_mod (n + 15) 16 ltac:(lia)) as Hdm.
  pose proof (Z.mod_pos_bound (n + 15) 16 ltac:(lia)) as Hb.
  assert (Hle : n <= roundUp n <= n + 15) by lia.
  rewrite wrap64_small by lia. repeat split; lia.
Qed.

(** The blocks of a free list other than [b] differ from [b] and are
    blocks of the tiling. *)
Lemma free_list_others s tl l1 b l2 t x :
  heap_inv s tl (l1 ++ b :: l2) t -> x ∈ l1 ++ l2 ->
  x <> b /\ x ∈ starts heap_base tl.
Proof.
  intros [_ _ Hnd Hs] Hx.
  apply NoDup_app in Hnd as (_ & Hnd12 & Hnd2).
  apply NoDup_cons in Hnd2 as [Hb2 _].
  apply elem_of_app in Hx as [Hx|Hx].
  - split.
    + intros ->. apply (Hnd12 _ Hx), list_elem_of_here.
    + apply Hs, elem_of_app. left. exact Hx.
  - split.
    + intros ->. contradiction.
    + apply Hs, elem_of_app. right. apply list_elem_of_further, Hx.
Qed.

(** What a returned call whose size has not wrapped to 0 has done: nothing
    but taking the mutex when it returns [NULL]; otherwise it has handed
    out the first block [b] that is large enough, unlinked (exact fit) or
    replaced on the list by its remainder (split). *)
Lemma my_malloc_effect fuel n s tl fl t p s' :
  heap_inv s tl fl t -> t = NULL \/ in_heap t = false -> needed n <> 0 ->
  my_malloc fuel n s = Ret p s' ->
  lock s = false /\
  ((p = NULL /\ s' = locked s /\ t = NULL /\
    forall x, x ∈ fl -> size_at s x < needed n) \/
   exists l1 b l2 tl' fl',
     fl = l1 ++ b :: l2 /\ p = b + HEADER_SIZE /\
     (forall x, x ∈ l1 -> size_at s x < needed n) /\
     needed n <= size_at s b /\
     heap_inv s' tl' fl' t /\ total tl' = total tl /\
     size_at s' b = needed n /\ in_use s' b /\
     (forall x, x ∈ l1 ++ l2 -> size_at s' x = size_at s x) /\
     ((size_at s b = needed n /\ fl' = l1 ++ l2 /\ lock s' = true) \/
      (needed n < size_at s b /\ fl' = l1 ++ (b + needed n) :: l2 /\
       size_at s' (b + needed n) = size_at s b - needed n /\
       lock s' = false))).
Proof.
  intros Hinv Ht Hnz Hrun.
  destruct (my_malloc_inv Hlayout _ _ _ _ _ _ _ _ Hinv Ht Hrun)
    as [Hl [(-> & -> & -> & Hsmall)|(l1 & b & l2 & -> & Hsmall & Hfit & Hab)]].
  { split; [exact Hl|]. left. auto. }
  split; [exact Hl|]. right.
  destruct (needed_cases n) as [Hz|(Hn & Hnm & _)]; [contradiction|].
  pose proof (heap_inv_relocked _ _ _ _ Hinv) as Hinv0.
  assert (Hbfl : b ∈ l1 ++ b :: l2).
  { apply elem_of_app. right. apply list_elem_of_here. }
  pose proof (heap_inv_in_heap _ _ _ _ _ Hinv Hbfl) as Hinb.
  pose proof (heap_inv_slot_ok _ _ _ _ l1 (b :: l2) Hinv eq_refl) as Hsl.
  assert (Hsz0 : forall a, size_at (unlocked (locked s)) a = size_at s a)
    by (intros; autorewrite with obs; reflexivity).
  assert (Hl0 : lock (unlocked (locked s)) = false)
    by (autorewrite with obs; reflexivity).
  destruct (Z.eq_dec (size_at s b) (needed n)) as [E|E].
  - assert (E0 : size_at (unlocked (locked s)) b = needed n)
      by (rewrite Hsz0; exact E).
    rewrite (allocate_block_exact _ _ _ _ Hl0 Hinb Hsl E0) in Hab.
    inversion Hab; subst p s'.
    destruct (exact_fit_preserves _ _ _ _ _ _ Hinv0) as (H & Hsz & Hmg & _).
    exists l1, b, l2, tl, (l1 ++ l2).
    split; [reflexivity|]. split; [reflexivity|].
    split; [exact Hsmall|]. split; [exact Hfit|].
    split; [exact H|]. split; [reflexivity|].
    split; [rewrite Hsz, Hsz0; exact E|]. split; [exact Hmg|].
    split; [intros x _; rewrite Hsz, Hsz0; reflexivity|].
    left. split; [exact E|]. split; [reflexivity|].
    unfold exact_fit_state.
    destruct (slot_after SlotFirstFree l1); simpl; autorewrite with obs;
      reflexivity.
  - destruct (tiles_to_starts _ _ _ _ _ (inv_tiles _ _ _ _ Hinv)
                (inv_sub _ _ _ _ Hinv _ Hbfl)) as (_ & _ & Hhi & _).
    pose proof (in_heap_range Hlayout _ Hinb) as Hbr.
    assert (Hend64 : heap_end < 2 ^ 64) by apply Hlayout.
    assert (Hnf : wrap64 (b + HEADER_SIZE + wrap64 (needed n - HEADER_SIZE))
                  = b + needed n).
    { unfold HEADER_SIZE in *.
      rewrite (wrap64_small (needed n - 16)) by lia.
      rewrite wrap64_small; lia. }
    assert (Hlt : needed n < size_at (unlocked (locked s)) b)
      by (rewrite Hsz0; lia).
    destruct (split_preserves Hlayout _ _ _ _ _ _ _ Hinv0 (proj1 Hn) Hnm Hlt)
      as (t1 & t2 & Htl & Hb & H & Hinnf & Hnew & Hszb & Hsznf & _ & Hmg
          & Hszo & _).
    pose proof Hinnf as Hinnf'. rewrite <- Hnf in Hinnf'.
    rewrite (allocate_block_split _ _ _ _ Hl0 Hinb Hsl Hlt Hinnf') in Hab.
    rewrite Hnf in Hab. inversion Hab; subst p s'.
    eexists l1, b, l2, _, _.
    split; [reflexivity|]. split; [reflexivity|].
    split; [exact Hsmall|]. split; [exact Hfit|].
    split; [exact H|].
    split; [rewrite Htl, !total_app; unfold total; cbn [foldr]; lia|].
    split; [exact Hszb|]. split; [exact Hmg|].
    split.
    { intros x Hx. destruct (free_list_others _ _ _ _ _ _ _ Hinv Hx)
        as [Hxb Hxs].
      rewrite Hszo, Hsz0; [reflexivity|exact Hxb|].
      intros ->. apply Hnew, Hxs. }
    right. split; [rewrite Hsz0 in Hlt; exact Hlt|].
    split; [reflexivity|].
    split; [rewrite Hsznf, Hsz0; reflexivity|].
    unfold split_state. autorewrite with obs. reflexivity.
Qed.

(** In a state that satisfies the heap invariant with the mutex free, and
    with more fuel than the free list has blocks, [my_malloc] returns for
    every requested size: no assertion fails, no access leaves the arena,
    and the result is [NULL] or the data part of a block of the free
    list. *)
Theorem my_malloc_returns s tl fl fuel n :
  heap_inv s tl fl NULL -> lock s = false -> (length fl < fuel)%nat ->
  exists p s',
    my_malloc fuel n s = Ret p s' /\
    (p = NULL \/ exists b, b ∈ fl /\ p = b + HEADER_SIZE).
Proof.
  intros Hinv Hl Hfuel.
  destruct (first_fit_split s (needed n) fl)
    as [Hsmall|(l1 & b & l2 & -> & Hsmall & Hfit)].
  - exists NULL, (locked s). split; [|left; reflexivity].
    apply (my_malloc_null Hlayout fuel n s tl fl); assumption.
  - assert (Hf1 : (length l1 < fuel)%nat).
    { rewrite length_app in Hfuel. simpl in Hfuel. lia. }
    assert (Hbfl : b ∈ l1 ++ b :: l2).
    { apply elem_of_app. right. apply list_elem_of_here. }
    destruct (needed_cases n) as [Hz|(Hn & Hnm & _)].
    + pose proof (heap_inv_in_heap _ _ _ _ _ Hinv Hbfl) as Hinb.
      pose proof (heap_inv_slot_ok _ _ _ _ l1 (b :: l2) Hinv eq_refl) as Hsl.
      destruct (tiles_to_starts _ _ _ _ _ (inv_tiles _ _ _ _ Hinv)
                  (inv_sub _ _ _ _ Hinv _ Hbfl)) as (_ & _ & _ & Hge & _).
      pose proof (in_heap_range Hlayout _ Hinb) as Hbr.
      assert (Hl0 : lock (unlocked (locked s)) = false)
        by (autorewrite with obs; reflexivity).
      assert (Hlt : 0 < size_at (unlocked (locked s)) b)
        by (autorewrite with obs; unfold HEADER_SIZE in *; lia).
      assert (Hinnf : in_heap
                (wrap64 (b + HEADER_SIZE + wrap64 (0 - HEADER_SIZE))) = true)
        by (rewrite getNext_wrapped by exact Hbr; exact Hinb).
      rewrite (my_malloc_found Hlayout fuel n s tl l1 b l2 NULL)
        by assumption.
      rewrite Hz.
      rewrite (allocate_block_split _ _ _ _ Hl0 Hinb Hsl Hlt Hinnf).
      eexists _, _. split; [reflexivity|]. right. exists b. auto.
    + pose proof (my_malloc_fit Hlayout fuel n s tl l1 b l2 NULL Hinv Hl
                    (proj1 Hn) Hnm Hsmall Hfit Hf1) as Hrun.
      cbv zeta in Hrun. rewrite Hrun.
      eexists _, _. split; [reflexivity|]. right. exists b. auto.
Qed.

(** A call of [my_malloc] that returns [NULL] has only taken the mutex,
    and it is the last call to return: every later [my_malloc], [my_free]
    and [dumpAllocator] waits for the mutex for ever.  Only
    [initAllocator], which creates the mutex anew, still returns. *)
Theorem my_malloc_null_is_terminal fuel n s s' :
  my_malloc fuel n s = Ret NULL s' ->
  s' = locked s /\
  (forall fuel' m, my_malloc fuel' m s' = Deadlock) /\
  (forall fuel' p, my_free fuel' p s' = Deadlock) /\
  (forall fuel', dumpAllocator fuel' s' = Deadlock) /\
  exists s'', initAllocator s' = Ret tt s'' /\ lock s'' = false.
Proof.
  intros Hrun.
  assert (Hs' : s' = locked s).
  { destruct (lock s) eqn:Hl;
      [rewrite my_malloc_held in Hrun by exact Hl; discriminate|].
    rewrite my_malloc_unfold in Hrun by exact Hl.
    apply bind_inv in Hrun as ([b sl] & s1 & Hfind & Hrun).
    apply find_block_pure in Hfind as ->. cbn [fst snd] in Hrun.
    destruct (b =? NULL); [inversion Hrun; reflexivity|].
    apply bind_inv in Hrun as (u & s2 & _ & Hrun).
    apply allocate_block_result in Hrun as [Hp Hin].
    pose proof (in_heap_range Hlayout _ Hin).
    unfold NULL, HEADER_SIZE in Hp. lia. }
  subst s'. split; [reflexivity|].
  assert (Hheld : lock (locked s) = true)
    by (autorewrite with obs; reflexivity).
  split; [intros; apply my_malloc_held, Hheld|].
  split; [intros; unfold my_free; apply run_lock_held, Hheld|].
  split; [intros; unfold dumpAllocator; apply run_lock_held, Hheld|].
  eexists. split; [apply (initAllocator_run Hlayout)|].
  autorewrite with obs. reflexivity.
Qed.

(** Whatever non-null pointer [my_malloc n] returns, for [n] up to
    [2^64 - 32], is the data part of a block taken from the free list: the
    block is now in use, its size is the header plus [n] rounded up, and
    the [n] requested bytes lie inside the arena. *)
Theorem my_malloc_payload fuel n s tl fl p s' :
  heap_inv s tl fl NULL -> 0 <= n <= 2 ^ 64 - 32 ->
  my_malloc fuel n s = Ret p s' -> p <> NULL ->
  (p - HEADER_SIZE) ∈ fl /\ in_heap (p - HEADER_SIZE) = true /\
  in_use s' (p - HEADER_SIZE) /\
  size_at s' (p - HEADER_SIZE) = needed n /\
  n + HEADER_SIZE <= needed n < n + 2 * HEADER_SIZE /\
  p + n <= heap_end.
Proof.
  intros Hinv Hn Hrun Hp.
  destruct (needed_bounds n Hn) as (Hneed & Hru & Hnz).
  destruct (my_malloc_effect _ _ _ _ _ _ _ _ Hinv (or_introl eq_refl) Hnz Hrun)
    as [_ [(-> & _)|(l1 & b & l2 & tl' & fl' & -> & -> & _ & Hfit & _ & _
                     & Hsz & Huse & _)]]; [contradiction|].
  replace (b + HEADER_SIZE - HEADER_SIZE) with b by lia.
  assert (Hbfl : b ∈ l1 ++ b :: l2).
  { apply elem_of_app. right. apply list_elem_of_here. }
  destruct (tiles_to_starts _ _ _ _ _ (inv_tiles _ _ _ _ Hinv)
              (inv_sub _ _ _ _ Hinv _ Hbfl)) as (Hinb & _ & Hhi & _).
  unfold HEADER_SIZE in *.
  split; [exact Hbfl|]. split; [exact Hinb|]. split; [exact Huse|].
  split; [exact Hsz|]. split; lia.
Qed.

Lemma bytes_of_cons s b l : bytes_of s (b :: l) = size_at s b + bytes_of s l.
Proof. reflexivity. Qed.

Lemma bytes_of_app s l1 l2 :
  bytes_of s (l1 ++ l2) = bytes_of s l1 + bytes_of s l2.
Proof. unfold bytes_of. rewrite map_app. apply total_app. Qed.

Lemma bytes_of_ext s s' l :
  (forall x, x ∈ l -> size_at s' x = size_at s x) ->
  bytes_of s' l = bytes_of s l.
Proof.
  induction l as [|a l IH]; intros H; [reflexivity|].
  rewrite !bytes_of_cons, H by apply list_elem_of_here.
  rewrite IH; [reflexivity|]. intros x Hx. apply H, list_elem_of_further, Hx.
Qed.

(** The bytes on the free list are accounted for: a returned call whose
    size has not wrapped to 0 takes exactly the size it searched for from
    the free list when it hands out a block, and nothing when it returns
    [NULL]; the blocks still tile the same arena. *)
Theorem my_malloc_free_bytes fuel n s tl fl p s' :
  heap_inv s tl fl NULL -> needed n <> 0 ->
  my_malloc fuel n s = Ret p s' ->
  exists tl' fl',
    heap_inv s' tl' fl' NULL /\ total tl' = total tl /\
    bytes_of s' fl' =
    bytes_of s fl - (if decide (p = NULL) then 0 else needed n).
Proof.
  intros Hinv Hnz Hrun.
  destruct (my_malloc_effect _ _ _ _ _ _ _ _ Hinv (or_introl eq_refl) Hnz Hrun)
    as [_ [(-> & -> & _)|(l1 & b & l2 & tl' & fl' & -> & -> & _ & Hfit & H
                          & Htot & Hsz & _ & Hoth & Hcase)]].
  - exists tl, fl. split; [apply heap_inv_locked, Hinv|].
    split; [reflexivity|].
    rewrite decide_True by reflexivity. rewrite Z.sub_0_r.
    apply bytes_of_ext. intros. autorewrite with obs. reflexivity.
  - assert (Hbfl : b ∈ l1 ++ b :: l2).
    { apply elem_of_app. right. apply list_elem_of_here. }
    pose proof (heap_inv_in_heap _ _ _ _ _ Hinv Hbfl) as Hinb.
    pose proof (in_heap_range Hlayout _ Hinb) as Hbr.
    exists tl', fl'. split; [exact H|]. split; [exact Htot|].
    rewrite decide_False by (unfold NULL, HEADER_SIZE; lia).
    assert (H1 : bytes_of s' l1 = bytes_of s l1).
    { apply bytes_of_ext. intros x Hx. apply Hoth, elem_of_app. auto. }
    assert (H2 : bytes_of s' l2 = bytes_of s l2).
    { apply bytes_of_ext. intros x Hx. apply Hoth, elem_of_app. auto. }
    destruct Hcase as [(E & -> & _)|(Hlt & -> & Hnf & _)].
    + rewrite !bytes_of_app, bytes_of_cons. lia.
    + rewrite !bytes_of_app, !bytes_of_cons. lia.
Qed.

Lemma end_of_cons s lo a l :
  end_of s lo (a :: l) = end_of s (a + size_at s a) l.
Proof.
  destruct l as [|z l]; [reflexivity|].
  unfold end_of. rewrite last_cons_cons.
  destruct (last (z :: l)) eqn:E; [reflexivity|].
  apply last_None in E. discriminate.
Qed.

Lemma spaced_from_mono s lo lo' l :
  lo' <= lo -> spaced_from s lo l -> spaced_from s lo' l.
Proof.
  destruct l as [|a l]; simpl; [auto|]. intros ? [? ?]. split; [lia|auto].
Qed.

Lemma spaced_from_app s l1 l2 :
  forall lo,
  spaced_from s lo (l1 ++ l2) <->
  spaced_from s lo l1 /\ spaced_from s (end_of s lo l1) l2.
Proof.
  induction l1 as [|a l1 IH]; intros lo.
  - simpl. unfold end_of. simpl. tauto.
  - rewrite end_of_cons. simpl. rewrite IH. tauto.
Qed.

Lemma spaced_from_ext s s' l :
  (forall x, x ∈ l -> size_at s' x = size_at s x) ->
  forall lo, spaced_from s lo l -> spaced_from s' lo l.
Proof.
  induction l as [|a l IH]; intros H lo; simpl; [auto|].
  intros [Hlo Hl]. split; [exact Hlo|].
  rewrite H by apply list_elem_of_here.
  apply IH; [|exact Hl]. intros x Hx. apply H, list_elem_of_further, Hx.
Qed.

Lemma end_of_ext s s' lo l :
  (forall x, x ∈ l -> size_at s' x = size_at s x) ->
  end_of s' lo l = end_of s lo l.
Proof.
  intros H. unfold end_of. destruct (last l) as [b|] eqn:E; [|reflexivity].
  rewrite H; [reflexivity|]. eapply last_Some_elem_of, E.
Qed.

(** The free list stays in address order with a gap between any two of its
    blocks: a returned call whose size has not wrapped to 0 keeps every
    listed block strictly above the end of the one listed before it. *)
Theorem my_malloc_keeps_order fuel n s tl fl p s' :
  heap_inv s tl fl NULL -> spaced s fl -> needed n <> 0 ->
  my_malloc fuel n s = Ret p s' ->
  exists tl' fl', heap_inv s' tl' fl' NULL /\ spaced s' fl'.
Proof.
  intros Hinv Hsp Hnz Hrun. unfold spaced in *.
  destruct (my_malloc_effect _ _ _ _ _ _ _ _ Hinv (or_introl eq_refl) Hnz Hrun)
    as [_ [(-> & -> & _)|(l1 & b & l2 & tl' & fl' & -> & -> & _ & Hfit & H
                          & _ & Hsz & _ & Hoth & Hcase)]].
  - exists tl, fl. split; [apply heap_inv_locked, Hinv|].
    eapply spaced_from_ext; [|exact Hsp].
    intros. autorewrite with obs. reflexivity.
  - destruct (needed_cases n) as [Hz|(Hn & _)]; [contradiction|].
    exists tl', fl'. split; [exact H|].
    apply spaced_from_app in Hsp as [Hsp1 Hsp2]. simpl in Hsp2.
    destruct Hsp2 as [Hb Hsp2].
    assert (Ho1 : forall x, x ∈ l1 -> size_at s' x = size_at s x).
    { intros x Hx. apply Hoth, elem_of_app. auto. }
    assert (Ho2 : forall x, x ∈ l2 -> size_at s' x = size_at s x).
    { intros x Hx. apply Hoth, elem_of_app. auto. }
    unfold HEADER_SIZE in *.
    destruct Hcase as [(E & -> & _)|(Hlt & -> & Hnf & _)].
    + apply spaced_from_app. split.
      * apply (spaced_from_ext s s'); assumption.
      * rewrite (end_of_ext s s') by exact Ho1.
        apply (spaced_from_ext s s'); [exact Ho2|].
        eapply spaced_from_mono; [|exact Hsp2]. lia.
    + apply spaced_from_app. split.
      * apply (spaced_from_ext s s'); assumption.
      * rewrite (end_of_ext s s') by exact Ho1. simpl. split; [lia|].
        rewrite Hnf.
        replace (b + needed n + (size_at s b - needed n))
          with (b + size_at s b) by lia.
        apply (spaced_from_ext s s'); assumption.
Qed.

(** The exact-fit path: when the first block that is large enough has
    exactly the size searched for, it is unlinked from the free list and
    handed out whole, no size changes, and the call returns with the mutex
    held, so that the next [my_malloc] never returns. *)
Theorem my_malloc_exact_fit s tl l1 b l2 t n fuel :
  heap_inv s tl (l1 ++ b :: l2) t -> lock s = false ->
  (forall x, x ∈ l1 -> size_at s x < needed n) ->
  size_at s b = needed n -> (length l1 < fuel)%nat ->
  exists s',
    my_malloc fuel n s = Ret (b + HEADER_SIZE) s' /\
    heap_inv s' tl (l1 ++ l2) t /\
    (forall a, size_at s' a = size_at s a) /\
    in_use s' b /\
    lock s' = true /\
    lock_trace s' = lock_trace s ++ [EvLock; EvUnlock; EvLock] /\
    forall fuel' m, my_malloc fuel' m s' = Deadlock.
Proof.
  intros Hinv Hl Hsmall E Hfuel.
  assert (Hbfl : b ∈ l1 ++ b :: l2).
  { apply elem_of_app. right. apply list_elem_of_here. }
  destruct (tiles_to_starts _ _ _ _ _ (inv_tiles _ _ _ _ Hinv)
              (inv_sub _ _ _ _ Hinv _ Hbfl)) as (_ & _ & _ & Hge & Hmod).
  rewrite E in Hge, Hmod.
  pose proof (my_malloc_fit Hlayout fuel n s tl l1 b l2 t Hinv Hl Hge Hmod
                Hsmall ltac:(lia) Hfuel) as Hrun.
  cbv zeta in Hrun. rewrite decide_True in Hrun by exact E.
  pose proof (heap_inv_relocked _ _ _ _ Hinv) as Hinv0.
  destruct (exact_fit_preserves _ _ _ _ _ _ Hinv0) as (H & Hsz & Hmg & _).
  eexists. split; [exact Hrun|]. split; [exact H|].
  split; [intros a; rewrite Hsz; autorewrite with obs; reflexivity|].
  split; [exact Hmg|].
  assert (Hlk : lock (exact_fit_state (slot_after SlotFirstFree l1) b
                        (unlocked (locked s))) = true).
  { unfold exact_fit_state.
    destruct (slot_after SlotFirstFree l1); simpl; autorewrite with obs;
      reflexivity. }
  split; [exact Hlk|]. split.
  - unfold exact_fit_state.
    destruct (slot_after SlotFirstFree l1); simpl; autorewrite with obs;
      rewrite <- !app_assoc; reflexivity.
  - intros. apply my_malloc_held, Hlk.
Qed.

(** Two requests served from the same free block get neighbouring blocks:
    the second block starts where the first ends, and both are in use with
    the sizes searched for. *)
Theorem my_malloc_twice_contiguous s tl b fl t n1 n2 fuel :
  heap_inv s tl (b :: fl) t -> lock s = false -> (0 < fuel)%nat ->
  needed n1 <> 0 -> needed n2 <> 0 ->
  needed n1 + needed n2 <= size_at s b ->
  exists s1 s2,
    my_malloc fuel n1 s = Ret (b + HEADER_SIZE) s1 /\
    my_malloc fuel n2 s1 = Ret (b + needed n1 + HEADER_SIZE) s2 /\
    size_at s2 b = needed n1 /\ in_use s2 b /\
    size_at s2 (b + needed n1) = needed n2 /\ in_use s2 (b + needed n1).
Proof.
  intros Hinv Hl Hfuel Hnz1 Hnz2 Hsum.
  destruct (needed_cases n1) as [Hz|(Hn1 & Hm1 & _)]; [contradiction|].
  destruct (needed_cases n2) as [Hz|(Hn2 & Hm2 & _)]; [contradiction|].
  assert (Hnone : forall m x, x ∈ @nil Z -> size_at m x < needed n1 /\
                                          size_at m x < needed n2).
  { intros m x Hx. inversion Hx. }
  assert (Hfl0 : (length (@nil Z) < fuel)%nat) by exact Hfuel.
  (* the first call splits [b] *)
  pose proof (my_malloc_fit Hlayout fuel n1 s tl [] b fl t Hinv Hl (proj1 Hn1)
                Hm1 (fun x Hx => proj1 (Hnone s x Hx))
                ltac:(unfold HEADER_SIZE in *; lia) Hfl0) as Hrun1.
  cbv zeta in Hrun1.
  rewrite decide_False in Hrun1 by (unfold HEADER_SIZE in *; lia).
  change (slot_after SlotFirstFree []) with SlotFirstFree in Hrun1.
  pose proof (heap_inv_relocked _ _ _ _ Hinv) as Hinv0.
  assert (Hsz0 : forall a, size_at (unlocked (locked s)) a = size_at s a)
    by (intros; autorewrite with obs; reflexivity).
  assert (Hlt1 : needed n1 < size_at (unlocked (locked s)) b)
    by (rewrite Hsz0; unfold HEADER_SIZE in *; lia).
  destruct (split_preserves Hlayout _ _ [] _ _ _ _ Hinv0 (proj1 Hn1) Hm1 Hlt1)
    as (t1 & t2 & _ & _ & Hinv1 & Hinnf & _ & Hszb & Hsznf & _ & Hmgb & _).
  change (slot_after SlotFirstFree []) with SlotFirstFree in *.
  simpl app in Hinv1.
  set (s1 := split_state SlotFirstFree b (needed n1) (b + needed n1)
               (unlocked (locked s))) in *.
  rewrite Hsz0 in Hsznf.
  assert (Hl1 : lock s1 = false).
  { unfold s1, split_state. simpl. autorewrite with obs. reflexivity. }
  (* the second call takes the remainder *)
  pose proof (my_malloc_fit Hlayout fuel n2 s1 _ [] (b + needed n1) fl t
                Hinv1 Hl1 (proj1 Hn2) Hm2 (fun x Hx => proj2 (Hnone s1 x Hx))
                ltac:(lia) Hfl0) as Hrun2.
  cbv zeta in Hrun2.
  change (slot_after SlotFirstFree []) with SlotFirstFree in Hrun2.
  pose proof (heap_inv_relocked _ _ _ _ Hinv1) as Hinv10.
  assert (Hsz10 : forall a, size_at (unlocked (locked s1)) a = size_at s1 a)
    by (intros; autorewrite with obs; reflexivity).
  assert (Hnx10 : forall a, next_at (unlocked (locked s1)) a = next_at s1 a)
    by (intros; autorewrite with obs; reflexivity).
  exists s1. eexists. split; [exact Hrun1|]. split; [exact Hrun2|].
  destruct (decide (size_at s1 (b + needed n1) = needed n2)) as [E|E].
  - destruct (exact_fit_preserves _ _ [] _ _ _ Hinv10)
      as (_ & Hsz & Hmg & Hnxo).
    change (slot_after SlotFirstFree []) with SlotFirstFree in *.
    split; [rewrite Hsz, Hsz10; exact Hszb|].
    split.
    { unfold in_use. rewrite Hnxo, Hnx10; [exact Hmgb| |].
      - intros Hx. inversion Hx.
      - unfold HEADER_SIZE in *. lia. }
    split; [rewrite Hsz, Hsz10; exact E|]. exact Hmg.
  - assert (Hlt2 : needed n2 < size_at (unlocked (locked s1)) (b + needed n1))
      by (rewrite Hsz10; lia).
    destruct (split_preserves Hlayout _ _ [] _ _ _ _ Hinv10 (proj1 Hn2) Hm2
                Hlt2)
      as (_ & _ & _ & _ & _ & _ & _ & Hszb2 & _ & _ & Hmg2 & Hszo & Hnxo & _).
    change (slot_after SlotFirstFree []) with SlotFirstFree in *.
    unfold HEADER_SIZE in *.
    split; [rewrite Hszo, Hsz10 by lia; exact Hszb|].
    split.
    { unfold in_use. rewrite Hnxo, Hnx10; [exact Hmgb| | |].
      - intros Hx. inversion Hx.
      - lia.
      - lia. }
    split; [exact Hszb2|]. exact Hmg2.
Qed.

End Requests.

(** *** The fresh allocator, the reachable states, the scan of [my_free] *)

Section Capacity.

Context {L : Layout}.
Hypothesis Hlayout : layout_ok.

(** The capacity of a fresh allocator: right after [initAllocator], a
    request of up to [HEAP_SIZE - HEADER_SIZE] bytes gets the data part of
    the first block of the arena, and any larger request (up to
    [2^64 - 32], where the size computation starts to wrap) gets [NULL]. *)
Theorem my_malloc_fresh_capacity s0 s fuel n :
  initAllocator s0 = Ret tt s -> 0 <= n <= 2 ^ 64 - 32 -> (1 < fuel)%nat ->
  exists p s',
    my_malloc fuel n s = Ret p s' /\
    (n <= HEAP_SIZE - HEADER_SIZE -> p = heap_base + HEADER_SIZE) /\
    (HEAP_SIZE - HEADER_SIZE < n -> p = NULL).
Proof.
  intros Hinit Hn Hfuel.
  destruct (Z_le_gt_dec n (HEAP_SIZE - HEADER_SIZE)) as [Hle|Hgt].
  - destruct (initAllocator_inv Hlayout _ _ Hinit) as [[Hinv _] Hl].
    destruct (needed_bounds n Hn) as (Hneed & Hru & Hnz).
    destruct (needed_cases n) as [Hz|(Hn16 & Hm16 & _)]; [contradiction|].
    pose proof (inv_tiles _ _ _ _ Hinv) as (_ & Hsz & _).
    assert (Hfit : needed n <= size_at s heap_base).
    { rewrite Hsz, Hneed. destruct (roundUp_range n) as [_ Hrm].
      destruct Hlayout as (_ & _ & Hhm & _). unfold HEADER_SIZE in *.
      apply Z.mod_divide in Hrm; [|lia]. destruct Hrm as [q1 Hq1].
      apply Z.mod_divide in Hhm; [|lia]. destruct Hhm as [q2 Hq2].
      lia. }
    pose proof (my_malloc_fit Hlayout fuel n s _ [] heap_base [] NULL Hinv Hl
                  (proj1 Hn16) Hm16) as Hrun.
    cbv zeta in Hrun. eexists _, _. split; [apply Hrun|].
    + intros x Hx. inversion Hx.
    + exact Hfit.
    + simpl. lia.
    + split; [reflexivity|]. intros ?. lia.
  - destruct (my_malloc_fresh_exhausted Hlayout s0 s fuel n Hinit
                ltac:(lia) Hfuel) as (s' & Hrun & _).
    exists NULL, s'. split; [exact Hrun|]. split; [intros ?; lia|reflexivity].
Qed.

(** [my_malloc] never lengthens the free list, whatever size is asked
    for. *)
Lemma my_malloc_list_length fuel n p s s' tl fl t :
  heap_inv s tl fl t -> t = NULL \/ t = ALLOCATED_BLOCK_MAGIC ->
  my_malloc fuel n s = Ret p s' ->
  exists tl' fl' t',
    heap_inv s' tl' fl' t' /\ (t' = NULL \/ t' = ALLOCATED_BLOCK_MAGIC) /\
    (length fl' <= length fl)%nat.
Proof.
  intros Hinv Ht Hrun.
  destruct (Z.eq_dec (needed n) 0) as [Hz|Hnz].
  - destruct (my_malloc_inv Hlayout _ _ _ _ _ _ _ _ Hinv
                (magic_not_in_heap Hlayout _ Ht) Hrun)
      as [Hl [(-> & -> & -> & _)|(l1 & b & l2 & -> & Hsmall & Hfit & Hab)]].
    + exists tl, fl, NULL. split; [apply heap_inv_locked, Hinv|]. auto.
    + pose proof (heap_inv_relocked _ _ _ _ Hinv) as Hinv0.
      assert (Hbfl : b ∈ l1 ++ b :: l2).
      { apply elem_of_app. right. apply list_elem_of_here. }
      pose proof (heap_inv_in_heap _ _ _ _ _ Hinv Hbfl) as Hinb.
      pose proof (heap_inv_slot_ok _ _ _ _ l1 (b :: l2) Hinv eq_refl) as Hsl.
      destruct (tiles_to_starts _ _ _ _ _ (inv_tiles _ _ _ _ Hinv)
                  (inv_sub _ _ _ _ Hinv _ Hbfl)) as (_ & _ & _ & Hge & _).
      pose proof (in_heap_range Hlayout _ Hinb) as Hbr.
      assert (Hl0 : lock (unlocked (locked s)) = false)
        by (autorewrite with obs; reflexivity).
      rewrite Hz in *.
      assert (l1 = []) as ->.
      { destruct l1 as [|x l1]; [reflexivity|]. exfalso.
        assert (Hx : x ∈ (x :: l1) ++ b :: l2) by apply list_elem_of_here.
        destruct (tiles_to_starts _ _ _ _ _ (inv_tiles _ _ _ _ Hinv)
                    (inv_sub _ _ _ _ Hinv _ Hx)) as (_ & _ & _ & Hgx & _).
        specialize (Hsmall x (list_elem_of_here _ _)).
        unfold HEADER_SIZE in *. lia. }
      assert (Hlt : 0 < size_at (unlocked (locked s)) b)
        by (autorewrite with obs; unfold HEADER_SIZE in *; lia).
      assert (Hinnf : in_heap
                (wrap64 (b + HEADER_SIZE + wrap64 (0 - HEADER_SIZE))) = true)
        by (rewrite (getNext_wrapped b Hbr); exact Hinb).
      rewrite (allocate_block_split _ _ _ _ Hl0 Hinb Hsl Hlt Hinnf) in Hab.
      rewrite (getNext_wrapped b Hbr) in Hab. inversion Hab; subst p s'.
      exists tl, [b], ALLOCATED_BLOCK_MAGIC.
      split; [|split; [auto|simpl; lia]].
      apply (wrapped_split_preserves Hlayout _ _ _ l2 t). exact Hinv0.
  - destruct (my_malloc_effect Hlayout _ _ _ _ _ _ _ _ Hinv
                (magic_not_in_heap Hlayout _ Ht) Hnz Hrun)
      as [_ [(-> & -> & _)|(l1 & b & l2 & tl' & fl' & -> & -> & _ & _ & H & _
                            & _ & _ & _ & Hcase)]].
    + exists tl, fl, t. split; [apply heap_inv_locked, Hinv|]. auto.
    + exists tl', fl', t. split; [exact H|]. split; [exact Ht|].
      destruct Hcase as [(_ & -> & _)|(_ & -> & _)];
        rewrite !length_app; simpl; lia.
Qed.

(** Since no [my_free] of a block ever returns, the free list never grows:
    in every state reachable from [initAllocator] by returned calls of
    [my_malloc] and [my_free], the arena is tiled by blocks and the free
    list holds at most one block. *)
Theorem reachable_free_list_short s :
  reachable s ->
  exists tl fl t,
    heap_inv s tl fl t /\ (t = NULL \/ t = ALLOCATED_BLOCK_MAGIC) /\
    (length fl <= 1)%nat.
Proof.
  induction 1 as [s0 s Hinit|s fuel n p s' _ IH _ Hrun|s fuel p s' _ IH Hrun].
  - destruct (initAllocator_inv Hlayout _ _ Hinit) as [[Hinv _] _].
    exists [HEAP_SIZE], [heap_base], NULL. simpl. auto.
  - destruct IH as (tl & fl & t & Hinv & Ht & Hlen).
    destruct (my_malloc_list_length _ _ _ _ _ _ _ _ Hinv Ht Hrun)
      as (tl' & fl' & t' & Hinv' & Ht' & Hlen').
    exists tl', fl', t'. split; [exact Hinv'|]. split; [exact Ht'|]. lia.
  - apply my_free_returns in Hrun as (_ & _ & ->).
    destruct IH as (tl & fl & t & Hinv & Ht & Hlen).
    exists tl, fl, t. split; [apply heap_inv_locked, Hinv|]. auto.
Qed.

(** The scan of [my_free] over the blocks before the freed one.  Started
    at a block [h] whose successors are the blocks [l] of a [NULL]-ended
    list, it only reads, and it stops at the first block [fb] whose [next]
    is [NULL] or not below [block]; every block it stepped to lies below
    [block]. *)
Theorem find_prev_scan s block l :
  forall h fuel,
  in_heap h = true -> chain s (next_at s h) l NULL ->
  (forall x, x ∈ l -> in_heap x = true) -> (length l < fuel)%nat ->
  exists fb pre post,
    find_prev fuel block h s = Ret fb s /\
    h :: l = pre ++ fb :: post /\
    (forall x, x ∈ pre ++ [fb] -> x = h \/ x < block) /\
    (next_at s fb = NULL \/ block <= next_at s fb).
Proof.
  induction l as [|a l IH]; intros h fuel Hh Hc Hin Hfuel;
    (destruct fuel as [|fuel]; [simpl in Hfuel; lia|]);
    cbn [find_prev]; rewrite run_load_next by exact Hh.
  - simpl in Hc. rewrite Hc. simpl. rewrite andb_false_r.
    exists h, [], []. split; [reflexivity|]. split; [reflexivity|].
    split; [|left; exact Hc].
    intros x Hx. apply list_elem_of_singleton in Hx. auto.
  - simpl in Hc. destruct Hc as [Ha Hc]. rewrite Ha.
    destruct ((a <? block) && negb (a =? NULL)) eqn:Hcond.
    + apply andb_true_iff in Hcond as [Hlt _]. apply Z.ltb_lt in Hlt.
      destruct (IH a fuel) as (fb & pre & post & Hrun & Hsplit & Hbelow & Hstop).
      * apply Hin, list_elem_of_here.
      * exact Hc.
      * intros x Hx. apply Hin, list_elem_of_further, Hx.
      * simpl in Hfuel. lia.
      * exists fb, (h :: pre), post. split; [exact Hrun|].
        split; [simpl; rewrite Hsplit; reflexivity|]. split; [|exact Hstop].
        intros x Hx. simpl in Hx. apply elem_of_cons in Hx as [->|Hx]; [auto|].
        destruct (Hbelow x Hx) as [->|?]; auto.
    + exists h, [], (a :: l). split; [reflexivity|]. split; [reflexivity|].
      split.
      * intros x Hx. apply list_elem_of_singleton in Hx. auto.
      * rewrite Ha. apply andb_false_iff in Hcond as [Hc1|Hc2].
        -- right. apply Z.ltb_ge in Hc1. exact Hc1.
        -- left. apply negb_false_iff, Z.eqb_eq in Hc2. exact Hc2.
Qed.

End Capacity.

(** *** Requests whose size wraps to 0 *)

Section Wrapped.

Context {L : Layout}.
Hypothesis Hlayout : layout_ok.

Lemma my_malloc_wrapped_run s tl b fl t n fuel :
  heap_inv s tl (b :: fl) t -> lock s = false -> needed n = 0 ->
  (0 < fuel)%nat ->
  my_malloc fuel n s =
  Ret (b + HEADER_SIZE)
      (split_state SlotFirstFree b 0 b (unlocked (locked s))).
Proof.
  intros Hinv Hl Hz Hfuel.
  assert (Hbfl : b ∈ b :: fl) by apply list_elem_of_here.
  pose proof (heap_inv_in_heap _ _ _ _ _ Hinv Hbfl) as Hinb.
  destruct (tiles_to_starts _ _ _ _ _ (inv_tiles _ _ _ _ Hinv)
              (inv_sub _ _ _ _ Hinv _ Hbfl)) as (_ & _ & _ & Hge & _).
  pose proof (in_heap_range Hlayout _ Hinb) as Hbr.
  assert (Hl0 : lock (unlocked (locked s)) = false)
    by (autorewrite with obs; reflexivity).
  assert (Hlt : 0 < size_at (unlocked (locked s)) b)
    by (autorewrite with obs; unfold HEADER_SIZE in *; lia).
  assert (Hinnf : in_heap
            (wrap64 (b + HEADER_SIZE + wrap64 (0 - HEADER_SIZE))) = true)
    by (rewrite (getNext_wrapped b Hbr); exact Hinb).
  rewrite (my_malloc_found Hlayout fuel n s tl [] b fl t Hinv Hl).
  - change (slot_after SlotFirstFree []) with SlotFirstFree. rewrite Hz.
    rewrite (allocate_block_split SlotFirstFree _ _ _ Hl0 Hinb I Hlt Hinnf).
    rewrite (getNext_wrapped b Hbr). reflexivity.
  - intros x Hx. inversion Hx.
  - rewrite Hz. unfold HEADER_SIZE in *. lia.
  - simpl. lia.
Qed.

Lemma needed_wraps n : 2 ^ 64 - 31 <= n <= 2 ^ 64 - 16 -> needed n = 0.
Proof.
  intros Hn. unfold needed, HEADER_SIZE.
  rewrite roundUp_no_wrap by lia.
  assert (Hq : (n + 15) / 16 = 2 ^ 60 - 1).
  { apply Z.le_antisymm.
    - assert ((n + 15) / 16 < 2 ^ 60); [|lia].
      apply Z.div_lt_upper_bound; lia.
    - apply Z.div_le_lower_bound; lia. }
  rewrite Hq. reflexivity.
Qed.

(** A request of [2^64 - 31] to [2^64 - 16] bytes, whose rounded size plus
    header wraps to 0, is served: it gets the first free block whole, and
    the block, now marked in use, stays the head of the free list.  The
    next request that fits the block is given the same pointer; one that
    does not fit follows the magic value out of the arena. *)
Theorem my_malloc_wrapped_hands_out_twice s tl b fl t n m fuel :
  heap_inv s tl (b :: fl) t -> lock s = false -> (1 < fuel)%nat ->
  2 ^ 64 - 31 <= n <= 2 ^ 64 - 16 ->
  exists s1,
    my_malloc fuel n s = Ret (b + HEADER_SIZE) s1 /\
    _firstFreeBlock s1 = b /\ in_use s1 b /\
    size_at s1 b = size_at s b /\ lock s1 = false /\
    (needed m <= size_at s b ->
     exists s2, my_malloc fuel m s1 = Ret (b + HEADER_SIZE) s2) /\
    (size_at s b < needed m -> my_malloc fuel m s1 = Fault).
Proof.
  intros Hinv Hl Hfuel Hrange. pose proof (needed_wraps n Hrange) as Hz.
  assert (Hbfl : b ∈ b :: fl) by apply list_elem_of_here.
  pose proof (heap_inv_in_heap _ _ _ _ _ Hinv Hbfl) as Hinb.
  destruct (tiles_to_starts _ _ _ _ _ (inv_tiles _ _ _ _ Hinv)
              (inv_sub _ _ _ _ Hinv _ Hbfl)) as (_ & _ & Hhi & Hge & _).
  pose proof (in_heap_range Hlayout _ Hinb) as Hbr.
  assert (Hend64 : heap_end < 2 ^ 64) by apply Hlayout.
  pose proof (heap_inv_relocked _ _ _ _ Hinv) as Hinv0.
  pose proof (wrapped_split_preserves Hlayout _ _ _ _ _ Hinv0) as Hinv1.
  cbv zeta in Hinv1.
  set (s1 := split_state SlotFirstFree b 0 b (unlocked (locked s))) in *.
  destruct (inv_chain _ _ _ _ Hinv1) as (Hfirst & Hmg).
  assert (Hsz1 : size_at s1 b = size_at s b).
  { unfold s1, split_state. simpl. autorewrite with obs.
    rewrite decide_True by reflexivity.
    rewrite Z.sub_0_r. apply wrap64_small. unfold HEADER_SIZE in *. lia. }
  assert (Hl1 : lock s1 = false).
  { unfold s1, split_state. simpl. autorewrite with obs. reflexivity. }
  exists s1.
  split; [apply (my_malloc_wrapped_run s tl b fl t n fuel Hinv Hl Hz); lia|].
  split; [exact Hfirst|]. split; [exact Hmg|]. split; [exact Hsz1|].
  split; [exact Hl1|]. split.
  - intros Hfit. destruct (needed_cases m) as [Hzm|(Hn & Hnm & _)].
    + eexists.
      apply (my_malloc_wrapped_run s1 tl b [] _ m fuel Hinv1 Hl1 Hzm). lia.
    + pose proof (my_malloc_fit Hlayout fuel m s1 tl [] b [] _ Hinv1 Hl1
                    (proj1 Hn) Hnm) as Hrun.
      cbv zeta in Hrun. eexists. apply Hrun.
      * intros x Hx. inversion Hx.
      * rewrite Hsz1. exact Hfit.
      * simpl. lia.
  - intros Hbig. rewrite my_malloc_unfold by exact Hl1.
    apply bind_fault. autorewrite with obs. rewrite Hfirst.
    destruct fuel as [|[|fuel]]; [lia|lia|].
    cbn [find_block].
    rewrite (proj2 (Z.eqb_neq _ _)) by (apply (in_heap_not_null Hlayout), Hinb).
    rewrite run_load_size by exact Hinb. autorewrite with obs.
    rewrite Hsz1. rewrite (proj2 (Z.leb_gt _ _)) by exact Hbig.
    rewrite run_load_next by exact Hinb. autorewrite with obs.
    unfold in_use in Hmg. rewrite Hmg.
    rewrite (proj2 (Z.eqb_neq _ _)) by apply Hlayout.
    apply run_load_size_fault, Hlayout.
Qed.

End Wrapped.

(** ** The further properties on the small arena *)

Lemma small_unmerged_inv :
  heap_inv (L := small) small_unmerged [16; 48] [4096; 4112] NULL.
Proof.
  split.
  - small_facts.
  - small_facts.
  - apply NoDup_cons. split; [|apply NoDup_singleton].
    intros H. apply list_elem_of_singleton in H. discriminate.
  - intros b Hb. exact Hb.
Defined.

Lemma dumpAllocator_read_only_witness :
  dumpAllocator (L := small) 8 small_one
  = Ret ([(0, 16, true); (16, 48, false)], [(16, 48)])
        (unlocked (locked small_one)) /\
  lock small_one = false /\ lock (unlocked (locked small_one)) = false /\
  lock_trace (unlocked (locked small_one))
  = lock_trace small_one ++ [EvLock; EvUnlock] /\
  _heapData (unlocked (locked small_one)) = _heapData small_one /\
  _firstFreeBlock (unlocked (locked small_one)) = _firstFreeBlock small_one.
Proof.
  assert (H : dumpAllocator (L := small) 8 small_one
              = Ret ([(0, 16, true); (16, 48, false)], [(16, 48)])
                    (unlocked (locked small_one)))
    by (vm_compute; reflexivity).
  split; [exact H|].
  apply (dumpAllocator_read_only (L := small) 8 small_one _ _ H).
Defined.

Lemma dumpAllocator_views_agree_witness :
  exists all free s',
    dumpAllocator (L := small) 8 small_one = Ret (all, free) s' /\
    contiguous 0 all 64 /\
    forall o sz, (o, sz, false) ∈ all <-> (o, sz) ∈ free.
Proof.
  apply (dumpAllocator_views_agree (L := small) small_layout_ok 8 small_one
           [16; 48] [4112] small_one_alloc_inv).
  - vm_compute. reflexivity.
  - simpl. lia.
  - simpl. lia.
Defined.

Lemma initAllocator_resets_witness :
  exists s,
    initAllocator (L := small) small_one = Ret tt s /\
    alloc_inv (L := small) s [64] [4096] /\ lock s = false /\
    dumpAllocator (L := small) 8 s
    = Ret ([(0, 64, false)], [(0, 64)]) (unlocked (locked s)).
Proof.
  apply (initAllocator_resets (L := small) small_layout_ok small_one 8).
  lia.
Defined.

Lemma getNext_walks_tiling_witness :
  _getNextBlockBySize (L := small) 4096 small_one = Ret 4112 small_one /\
  _getNextBlockBySize (L := small) 4112 small_one = Ret NULL small_one.
Proof.
  split.
  - exact (getNext_walks_tiling (L := small) small_layout_ok small_one
             [] 16 [48] (inv_tiles _ _ _ _ small_one_inv)).
  - exact (getNext_walks_tiling (L := small) small_layout_ok small_one
             [16] 48 [] (inv_tiles _ _ _ _ small_one_inv)).
Defined.

Lemma getNext_overrun_aborts_witness :
  size_at (set_size 4096 80 small_init) 4096 = 80 /\
  _getNextBlockBySize (L := small) 4096 (set_size 4096 80 small_init)
  = Aborted.
Proof.
  split; [vm_compute; reflexivity|].
  apply (getNext_overrun_aborts (L := small) small_layout_ok).
  - vm_compute. reflexivity.
  - small_facts.
  - small_facts.
Defined.

Lemma dumpAllocator_zero_size_loops_witness :
  _getNextBlockBySize (L := small) 4096 boot = Ret 4096 boot /\
  dumpAllocator (L := small) 8 boot = OutOfFuel.
Proof.
  apply (dumpAllocator_zero_size_loops (L := small) small_layout_ok boot 8).
  - vm_compute. reflexivity.
  - vm_compute. reflexivity.
Defined.

Lemma merge_blocks_neighbours_witness :
  exists s' tl',
    merge_blocks (L := small) 4096 4112 small_unmerged = Ret tt s' /\
    heap_inv (L := small) s' tl' ([] ++ 4096 :: []) NULL /\
    total tl' = total [16; 48] /\
    size_at s' 4096
    = size_at small_unmerged 4096 + size_at small_unmerged 4112 /\
    next_at s' 4096 = next_at small_unmerged 4112 /\
    lock s' = false /\
    forall a, a <> 4096 ->
      size_at s' a = size_at small_unmerged a /\
      next_at s' a = next_at small_unmerged a.
Proof.
  apply (merge_blocks_neighbours (L := small) small_layout_ok small_unmerged
           [16; 48] [] 4096 4112 [] NULL small_unmerged_inv).
  - vm_compute. reflexivity.
  - vm_compute. reflexivity.
Defined.

Lemma merge_blocks_nothing_merged_witness :
  (merge_blocks (L := small) 4096 NULL small_one = Ret tt (locked small_one) /\
   forall c1 c2,
     merge_blocks (L := small) c1 c2 (locked small_one) = Deadlock) /\
  merge_blocks (L := small) 4096 4112 small_one = Aborted.
Proof.
  split.
  - apply (merge_blocks_nothing_merged (L := small) small_one 4096 NULL).
    + vm_compute. reflexivity.
    + vm_compute. reflexivity.
    + vm_compute. discriminate.
  - apply (merge_blocks_nothing_merged (L := small) small_one 4096 4112).
    + vm_compute. reflexivity.
    + vm_compute. reflexivity.
    + vm_compute. reflexivity.
    + vm_compute. discriminate.
Defined.

Lemma my_malloc_returns_witness :
  exists p s',
    my_malloc (L := small) 8 16 small_one = Ret p s' /\
    (p = NULL \/ exists b, b ∈ [4112] /\ p = b + HEADER_SIZE).
Proof.
  apply (my_malloc_returns (L := small) small_layout_ok small_one
           [16; 48] [4112] 8 16 small_one_inv).
  - vm_compute. reflexivity.
  - simpl. lia.
Defined.

Lemma my_malloc_null_is_terminal_witness :
  my_malloc (L := small) 8 64 small_init = Ret NULL small_failed /\
  small_failed = locked small_init /\
  (forall fuel' m, my_malloc (L := small) fuel' m small_failed = Deadlock) /\
  (forall fuel' p, my_free (L := small) fuel' p small_failed = Deadlock) /\
  (forall fuel', dumpAllocator (L := small) fuel' small_failed = Deadlock) /\
  exists s'',
    initAllocator (L := small) small_failed = Ret tt s'' /\ lock s'' = false.
Proof.
  assert (H : my_malloc (L := small) 8 64 small_init = Ret NULL small_failed)
    by (vm_compute; reflexivity).
  split; [exact H|].
  apply (my_malloc_null_is_terminal (L := small) small_layout_ok 8 64
           small_init small_failed H).
Defined.

Lemma my_malloc_payload_witness :
  (4112 - HEADER_SIZE) ∈ [4096] /\
  in_heap (L := small) (4112 - HEADER_SIZE) = true /\
  in_use (L := small) small_one (4112 - HEADER_SIZE) /\
  size_at small_one (4112 - HEADER_SIZE) = needed 0 /\
  0 + HEADER_SIZE <= needed 0 < 0 + 2 * HEADER_SIZE /\
  4112 + 0 <= heap_end (L := small).
Proof.
  apply (my_malloc_payload (L := small) small_layout_ok 8 0 small_init
           [64] [4096] 4112 small_one small_init_inv).
  - lia.
  - exact small_one_run.
  - discriminate.
Defined.

Lemma my_malloc_free_bytes_witness :
  exists tl' fl',
    heap_inv (L := small) small_one tl' fl' NULL /\
    total tl' = total [64] /\
    bytes_of small_one fl' =
    bytes_of small_init [4096] -
    (if decide (4112 = NULL) then 0 else needed 0).
Proof.
  apply (my_malloc_free_bytes (L := small) small_layout_ok 8 0 small_init
           [64] [4096] 4112 small_one small_init_inv).
  - vm_compute. discriminate.
  - exact small_one_run.
Defined.

Lemma my_malloc_keeps_order_witness :
  exists tl' fl',
    heap_inv (L := small) small_one tl' fl' NULL /\
    spaced (L := small) small_one fl'.
Proof.
  apply (my_malloc_keeps_order (L := small) small_layout_ok 8 0 small_init
           [64] [4096] 4112 small_one small_init_inv).
  - small_facts.
  - vm_compute. discriminate.
  - exact small_one_run.
Defined.

Lemma my_malloc_exact_fit_witness :
  exists s',
    my_malloc (L := small) 8 48 small_init = Ret (4096 + HEADER_SIZE) s' /\
    heap_inv (L := small) s' [64] ([] ++ []) NULL /\
    (forall a, size_at s' a = size_at small_init a) /\
    in_use (L := small) s' 4096 /\
    lock s' = true /\
    lock_trace s' = lock_trace small_init ++ [EvLock; EvUnlock; EvLock] /\
    forall fuel' m, my_malloc (L := small) fuel' m s' = Deadlock.
Proof.
  apply (my_malloc_exact_fit (L := small) small_layout_ok small_init
           [64] [] 4096 [] NULL 48 8 small_init_inv).
  - vm_compute. reflexivity.
  - intros x Hx. inversion Hx.
  - vm_compute. reflexivity.
  - simpl. lia.
Defined.

Lemma my_malloc_twice_contiguous_witness :
  exists s1 s2,
    my_malloc (L := small) 8 0 small_init = Ret (4096 + HEADER_SIZE) s1 /\
    my_malloc (L := small) 8 16 s1
    = Ret (4096 + needed 0 + HEADER_SIZE) s2 /\
    size_at s2 4096 = needed 0 /\ in_use (L := small) s2 4096 /\
    size_at s2 (4096 + needed 0) = needed 16 /\
    in_use (L := small) s2 (4096 + needed 0).
Proof.
  apply (my_malloc_twice_contiguous (L := small) small_layout_ok small_init
           [64] 4096 [] NULL 0 16 8 small_init_inv).
  - vm_compute. reflexivity.
  - lia.
  - vm_compute. discriminate.
  - vm_compute. discriminate.
  - small_facts.
Defined.

Lemma my_malloc_fresh_capacity_witness :
  exists p s',
    my_malloc (L := small) 8 48 small_init = Ret p s' /\
    (48 <= @HEAP_SIZE small - HEADER_SIZE ->
     p = @heap_base small + HEADER_SIZE) /\
    (@HEAP_SIZE small - HEADER_SIZE < 48 -> p = NULL).
Proof.
  apply (my_malloc_fresh_capacity (L := small) small_layout_ok boot
           small_init 8 48 small_init_run).
  - lia.
  - lia.
Defined.

Lemma reachable_free_list_short_witness :
  exists tl fl t,
    heap_inv (L := small) small_one tl fl t /\
    (t = NULL \/ t = @ALLOCATED_BLOCK_MAGIC small) /\
    (length fl <= 1)%nat.
Proof.
  apply (reachable_free_list_short (L := small) small_layout_ok small_one).
  apply (reach_malloc small_init 8 0 4112 small_one).
  - apply (reach_init boot small_init small_init_run).
  - lia.
  - exact small_one_run.
Defined.

Lemma find_prev_scan_witness :
  exists fb pre post,
    find_prev (L := small) 8 4128 4096 small_unmerged
    = Ret fb small_unmerged /\
    4096 :: [4112] = pre ++ fb :: post /\
    (forall x, x ∈ pre ++ [fb] -> x = 4096 \/ x < 4128) /\
    (next_at small_unmerged fb = NULL \/
     4128 <= next_at small_unmerged fb).
Proof.
  apply (find_prev_scan (L := small) small_unmerged 4128
           [4112] 4096 8).
  - vm_compute. reflexivity.
  - small_facts.
  - intros x Hx. apply list_elem_of_singleton in Hx. subst x.
    vm_compute. reflexivity.
  - simpl. lia.
Defined.

Lemma my_malloc_wrapped_hands_out_twice_witness :
  exists s1,
    my_malloc (L := small) 8 (2 ^ 64 - 16) small_init
    = Ret (4096 + HEADER_SIZE) s1 /\
    _firstFreeBlock s1 = 4096 /\ in_use (L := small) s1 4096 /\
    size_at s1 4096 = size_at small_init 4096 /\ lock s1 = false /\
    (needed 0 <= size_at small_init 4096 ->
     exists s2, my_malloc (L := small) 8 0 s1 = Ret (4096 + HEADER_SIZE) s2) /\
    (size_at small_init 4096 < needed 0 ->
     my_malloc (L := small) 8 0 s1 = Fault).
Proof.
  apply (my_malloc_wrapped_hands_out_twice (L := small) small_layout_ok
           small_init [64] 4096 [] NULL (2 ^ 64 - 16) 0 8 small_init_inv).
  - vm_compute. reflexivity.
  - lia.
  - lia.
Defined.

(** ** Where [my_malloc] departs from its contract *)

Section Departures.

Context {L : Layout}.
Hypothesis Hlayout : layout_ok.

Lemma needed_overflow n :
  2 ^ 64 - 16 < n < 2 ^ 64 -> needed n = HEADER_SIZE.
Proof.
  intros Hn. unfold needed. rewrite roundUp_wrap by exact Hn. reflexivity.
Qed.

Lemma heap_size_lt : HEAP_SIZE <= 2 ^ 64 - 16.
Proof.
  destruct Hlayout as (Hb & Hs & Hm & He & _).
  unfold heap_end, HEADER_SIZE in *.
  apply Z.mod_divide in Hm; [|lia]. destruct Hm as [q Hq]. lia.
Qed.

Lemma needed_fits_arena m :
  0 <= m <= HEAP_SIZE - HEADER_SIZE ->
  needed m = roundUp m + HEADER_SIZE /\
  HEADER_SIZE <= needed m <= HEAP_SIZE /\ needed m mod HEADER_SIZE = 0.
Proof.
  intros Hm. pose proof heap_size_lt as Hlt.
  assert (Hm' : 0 <= m <= 2 ^ 64 - 32) by (unfold HEADER_SIZE in *; lia).
  destruct (needed_bounds m Hm') as (Hneed & Hru & Hnz).
  destruct (needed_cases m) as [Hz|(Hn16 & Hm16 & _)]; [contradiction|].
  split; [exact Hneed|]. split; [|exact Hm16]. split; [lia|].
  rewrite Hneed. destruct (roundUp_range m) as [_ Hrm].
  destruct Hlayout as (_ & _ & Hhm & _). unfold HEADER_SIZE in *.
  apply Z.mod_divide in Hrm; [|lia]. destruct Hrm as [q1 Hq1].
  apply Z.mod_divide in Hhm; [|lia]. destruct Hhm as [q2 Hq2].
  lia.
Qed.

Lemma my_malloc_null_state fuel n s tl fl t s' :
  heap_inv s tl fl t -> t = NULL \/ in_heap t = false ->
  my_malloc fuel n s = Ret NULL s' -> s' = locked s /\ lock s = false.
Proof.
  intros Hinv Ht Hrun.
  destruct (my_malloc_inv Hlayout _ _ _ _ _ _ _ _ Hinv Ht Hrun)
    as [Hl [(_ & -> & _)|(l1 & b & l2 & _ & _ & _ & Hab)]]; [auto|].
  apply allocate_block_result in Hab as [Hp Hin].
  pose proof (in_heap_range Hlayout _ Hin).
  unfold NULL, HEADER_SIZE in Hp. lia.
Qed.

(** C3. The claim fails by an unchecked overflow.  On a freshly
    initialised allocator, a request of more than [2^64 - 16] bytes is far
    beyond [HEAP_SIZE - HEADER_SIZE], and the one free block is smaller than
    the least multiple of 16 from [n] plus a header; yet [n + 0xF] wraps in
    [roundUp], the size searched for is [HEADER_SIZE], and [my_malloc]
    returns a non-null pointer: it has changed the arena, where the first
    block is now [HEADER_SIZE] bytes long and marked in use. *)
Theorem my_malloc_overflow_served s0 s fuel n :
  initAllocator s0 = Ret tt s -> 2 ^ 64 - 16 < n < 2 ^ 64 ->
  (0 < fuel)%nat ->
  alloc_inv s [HEAP_SIZE] [heap_base] /\
  HEAP_SIZE - HEADER_SIZE < n /\
  (forall r, least_multiple_of_16_from n r ->
             size_at s heap_base < r + HEADER_SIZE) /\
  exists s',
    my_malloc fuel n s = Ret (heap_base + HEADER_SIZE) s' /\
    heap_base + HEADER_SIZE <> NULL /\
    size_at s' heap_base = HEADER_SIZE /\ in_use s' heap_base /\
    next_at s' heap_base <> next_at s heap_base.
Proof.
  intros Hinit Hn Hfuel.
  destruct (initAllocator_inv Hlayout _ _ Hinit) as [Halloc Hl].
  pose proof Halloc as [Hinv _].
  pose proof (inv_tiles _ _ _ _ Hinv) as (Hinb & Hsz & Hge & _).
  destruct (inv_chain _ _ _ _ Hinv) as [_ Hnx]. simpl in Hnx.
  pose proof heap_size_lt as Hlt.
  pose proof (heap_base_pos Hlayout) as Hbase.
  pose proof (needed_overflow n Hn) as Hneed.
  split; [exact Halloc|].
  split; [unfold HEADER_SIZE in *; lia|].
  split.
  { intros r (_ & Hle & _). rewrite Hsz. unfold HEADER_SIZE in *. lia. }
  pose proof (my_malloc_fit Hlayout fuel n s _ [] heap_base [] NULL Hinv Hl)
    as Hrun.
  cbv zeta in Hrun.
  assert (Hnone : forall x, x ∈ @nil Z -> size_at s x < needed n)
    by (intros x Hx; inversion Hx).
  specialize (Hrun ltac:(rewrite Hneed; lia) ltac:(rewrite Hneed; reflexivity)
                Hnone ltac:(rewrite Hneed, Hsz; lia) ltac:(simpl; lia)).
  eexists. split; [exact Hrun|].
  destruct (my_malloc_effect Hlayout _ _ _ _ _ _ _ _ Hinv (or_introl eq_refl)
              ltac:(rewrite Hneed; discriminate) Hrun)
    as [_ [(Hp & _)|(l1 & b & l2 & tl' & fl' & _ & Hp & _ & _ & _ & _ & Hsz'
                     & Huse & _)]].
  { unfold NULL, HEADER_SIZE in Hp. lia. }
  assert (b = heap_base) as -> by lia.
  split; [unfold NULL, HEADER_SIZE; lia|].
  split; [rewrite <- Hneed; exact Hsz'|].
  split; [exact Huse|].
  unfold in_use in Huse. rewrite Huse, Hnx. apply Hlayout.
Qed.

(** C6. The claim fails in a reachable state.  After [initAllocator] and
    a returned [my_malloc (2^64 - 16)], whose size has wrapped to 0, the
    mutex is free and the block at the start of the arena is live (handed
    out, marked in use) while it is still the head of the free list with
    its full size.  Any request of up to [HEAP_SIZE - HEADER_SIZE] bytes
    then finds it large enough and is given the same pointer: the region
    returned is not disjoint from the live allocation. *)
Theorem my_malloc_returns_live_pointer s0 fuel m :
  (1 < fuel)%nat -> 0 <= m <= HEAP_SIZE - HEADER_SIZE ->
  exists s s1 s2,
    initAllocator s0 = Ret tt s /\
    my_malloc fuel (2 ^ 64 - 16) s = Ret (heap_base + HEADER_SIZE) s1 /\
    reachable s1 /\ lock s1 = false /\
    in_use s1 heap_base /\ _firstFreeBlock s1 = heap_base /\
    roundUp m + HEADER_SIZE <= size_at s1 heap_base /\
    my_malloc fuel m s1 = Ret (heap_base + HEADER_SIZE) s2 /\
    reachable s2.
Proof.
  intros Hfuel Hm.
  pose proof (initAllocator_run Hlayout s0) as Hinit.
  set (s := fresh_lock _) in Hinit.
  destruct (initAllocator_inv Hlayout _ _ Hinit) as [[Hinv _] Hl].
  pose proof (my_malloc_wrapped_run Hlayout s _ heap_base [] NULL
                (2 ^ 64 - 16) fuel Hinv Hl (needed_wraps (2 ^ 64 - 16) ltac:(lia))
                ltac:(lia)) as Hrun1.
  set (s1 := split_state SlotFirstFree heap_base 0 heap_base
               (unlocked (locked s))) in *.
  pose proof (wrapped_split_preserves Hlayout _ _ _ _ _
                (heap_inv_relocked _ _ _ _ Hinv)) as Hinv1.
  cbv zeta in Hinv1. fold s1 in Hinv1.
  destruct (inv_chain _ _ _ _ Hinv1) as (Hfirst & Hmg).
  pose proof (inv_tiles _ _ _ _ Hinv1) as (_ & Hsz1 & _).
  assert (Hl1 : lock s1 = false).
  { unfold s1, split_state. simpl. autorewrite with obs. reflexivity. }
  assert (Hreach1 : reachable s1).
  { apply (reach_malloc s fuel (2 ^ 64 - 16) (heap_base + HEADER_SIZE) s1).
    - apply (reach_init s0 s Hinit).
    - lia.
    - exact Hrun1. }
  destruct (needed_fits_arena m Hm) as (Hneed & Hnb & Hnm).
  pose proof (my_malloc_fit Hlayout fuel m s1 _ [] heap_base [] _ Hinv1 Hl1
                (proj1 Hnb) Hnm) as Hrun2.
  cbv zeta in Hrun2.
  assert (Hnone : forall x, x ∈ @nil Z -> size_at s1 x < needed m)
    by (intros x Hx; inversion Hx).
  specialize (Hrun2 Hnone ltac:(rewrite Hsz1; lia) ltac:(simpl; lia)).
  exists s, s1. eexists.
  split; [exact Hinit|]. split; [exact Hrun1|]. split; [exact Hreach1|].
  split; [exact Hl1|]. split; [exact Hmg|]. split; [exact Hfirst|].
  split; [rewrite Hsz1, <- Hneed; lia|]. split; [exact Hrun2|].
  apply (reach_malloc s1 fuel m (heap_base + HEADER_SIZE) _ Hreach1);
    [|exact Hrun2].
  pose proof heap_size_lt. unfold HEADER_SIZE in *. lia.
Qed.

(** C10. The claim fails in a reachable state.  A [my_malloc] that returns
    [NULL] from a reachable state with free blocks leaves a reachable state
    with the very same free blocks, each of at least [HEADER_SIZE] bytes,
    and the mutex held; there [my_malloc 0] returns no pointer at all: it
    waits for the mutex for ever. *)
Theorem my_malloc_zero_hangs_after_failure s tl fl fuel fuel' n s' :
  reachable s -> heap_inv s tl fl NULL -> fl <> [] -> 0 <= n < 2 ^ 64 ->
  my_malloc fuel n s = Ret NULL s' ->
  reachable s' /\ heap_inv s' tl fl NULL /\
  (forall x, x ∈ fl -> HEADER_SIZE <= size_at s' x) /\
  lock s' = true /\
  my_malloc fuel' 0 s' = Deadlock.
Proof.
  intros Hreach Hinv Hne Hn Hrun.
  destruct (my_malloc_null_state _ _ _ _ _ _ _ Hinv (or_introl eq_refl) Hrun)
    as [Hs' Hl].
  pose proof (heap_inv_locked _ _ _ _ Hinv) as Hinv'. rewrite <- Hs' in Hinv'.
  assert (Hheld : lock s' = true)
    by (rewrite Hs'; autorewrite with obs; reflexivity).
  split; [apply (reach_malloc s fuel n NULL s' Hreach Hn Hrun)|].
  split; [exact Hinv'|]. split.
  - intros x Hx.
    destruct (tiles_to_starts _ _ _ _ _ (inv_tiles _ _ _ _ Hinv')
                (inv_sub _ _ _ _ Hinv' _ Hx)) as (_ & _ & _ & Hge & _).
    exact Hge.
  - split; [exact Hheld|]. apply my_malloc_held, Hheld.
Qed.

End Departures.

Lemma my_malloc_overflow_served_witness :
  alloc_inv (L := small) small_init [64] [4096] /\
  64 - HEADER_SIZE < 2 ^ 64 - 1 /\
  (forall r, least_multiple_of_16_from (2 ^ 64 - 1) r ->
             size_at small_init 4096 < r + HEADER_SIZE) /\
  exists s',
    my_malloc (L := small) 8 (2 ^ 64 - 1) small_init
    = Ret (4096 + HEADER_SIZE) s' /\
    4096 + HEADER_SIZE <> NULL /\
    size_at s' 4096 = HEADER_SIZE /\ in_use (L := small) s' 4096 /\
    next_at s' 4096 <> next_at small_init 4096.
Proof.
  apply (my_malloc_overflow_served (L := small) small_layout_ok boot
           small_init 8 (2 ^ 64 - 1) small_init_run).
  - lia.
  - lia.
Defined.

Lemma my_malloc_returns_live_pointer_witness :
  exists s s1 s2,
    initAllocator (L := small) boot = Ret tt s /\
    my_malloc (L := small) 8 (2 ^ 64 - 16) s = Ret (4096 + HEADER_SIZE) s1 /\
    reachable (L := small) s1 /\ lock s1 = false /\
    in_use (L := small) s1 4096 /\ _firstFreeBlock s1 = 4096 /\
    roundUp 0 + HEADER_SIZE <= size_at s1 4096 /\
    my_malloc (L := small) 8 0 s1 = Ret (4096 + HEADER_SIZE) s2 /\
    reachable (L := small) s2.
Proof.
  apply (my_malloc_returns_live_pointer (L := small) small_layout_ok boot 8 0).
  - lia.
  - vm_compute. split; discriminate.
Defined.

Lemma my_malloc_zero_hangs_after_failure_witness :
  my_malloc (L := small) 8 64 small_init = Ret NULL small_failed /\
  reachable (L := small) small_failed /\
  heap_inv (L := small) small_failed [64] [4096] NULL /\
  (forall x, x ∈ [4096] -> HEADER_SIZE <= size_at small_failed x) /\
  lock small_failed = true /\
  my_malloc (L := small) 8 0 small_failed = Deadlock.
Proof.
  assert (H : my_malloc (L := small) 8 64 small_init = Ret NULL small_failed)
    by (vm_compute; reflexivity).
  split; [exact H|].
  apply (my_malloc_zero_hangs_after_failure (L := small) small_layout_ok
           small_init [64] [4096] 8 8 64 small_failed).
  - apply (reach_init boot small_init small_init_run).
  - exact small_init_inv.
  - discriminate.
  - lia.
  - exact H.
Defined.
